(** * ReSub [StoreBase]: subscription registry, pending-callback table, resolver

    A shallow embedding of [src/StoreBase.ts].  Every store instance and the
    static (process-wide) fields of the class live in one explicit [World];
    methods are functions on that world.

    - Tokens and times in milliseconds are integers of [Z]; a number used
      as a key is an integer that [toString()] writes in decimal;
      [undefined] is [None].  Truthiness is written out where the source
      relies on it.
    - Objects are compared by identity, and a read of a property of a
      plain object that has no such property of its own finds what the
      object inherits.
    - A static method is called on a class, [StoreBase] or one derived
      from it, and reaches the static fields through that class.
    - A callback is known by its identity.  What it does when invoked is a
      script of further calls on the stores, chosen from its argument and
      from the world it sees, so that re-entrant use from inside a running
      callback is part of the model.
    - A failed assertion is fatal: it ends the run.
    - The protected hooks [_startedTrackingKey] and [_stoppedTrackingKey]
      keep their default no-op bodies; each call is recorded in the trace.
    - The clock and the timers belong to the environment: time passes by
      [Elapse], and a timer started by [trigger] fires as [TimerFires]. *)

From Stdlib Require Import ZArith Lia.
From stdpp Require Import base list strings gmap pretty.

(** ** JavaScript helpers *)

(** Truthiness of a value of type [number | undefined]: [undefined] and [0]
    are falsy. *)
Definition truthy (n : option Z) : bool :=
  match n with
  | Some z => negb (z =? 0)%Z
  | None => false
  end.

(** The functions imported from lodash, on immutable lists. *)
Section lodash.
Context {A : Type} `{EqDecision A}.

Definition flatten (l : list (list A)) : list A := concat l.

Definition clone (l : list A) : list A := l.

Fixpoint indexOf_from (i : Z) (l : list A) (x : A) : Z :=
  match l with
  | [] => (-1)%Z
  | y :: r => if decide (y = x) then i else indexOf_from (i + 1)%Z r x
  end.

(** [indexOf(array, value)]: first position of [value], or [-1]. *)
Definition indexOf (l : list A) (x : A) : Z := indexOf_from 0%Z l x.

(** [array.splice(index, 1)] for a non-negative [index]. *)
Definition splice1 (index : Z) (l : list A) : list A :=
  delete (Z.to_nat index) l.

(** [pull(array, value)]: removes every element that is the same value as
    [value].  [same] is the comparison lodash makes on the elements
    (SameValueZero): for objects it is identity. *)
Definition pull (same : A → A → bool) (l : list A) (x : A) : list A :=
  filter (λ y, ¬ same y x) l.

(** [uniq(array)]: keeps the first occurrence of each element. *)
Definition uniq (l : list A) : list A :=
  fold_left (λ seen x, if decide (x ∈ seen) then seen else seen ++ [x]) l [].
End lodash.

(** Insertion-ordered finite maps with in-place update: the behaviour shared
    by a JavaScript [Map] and by the string-keyed own properties of a plain
    object.  [assoc_set] on a present key keeps its position; on an absent
    key it appends. *)
Section assoc.
Context {K V : Type} `{EqDecision K}.

Fixpoint assoc_get (k : K) (m : list (K * V)) : option V :=
  match m with
  | [] => None
  | (k', v) :: r => if decide (k' = k) then Some v else assoc_get k r
  end.

Fixpoint assoc_set (k : K) (v : V) (m : list (K * V)) : list (K * V) :=
  match m with
  | [] => [(k, v)]
  | (k', v') :: r =>
      if decide (k' = k) then (k, v) :: r else (k', v') :: assoc_set k v r
  end.

Definition assoc_delete (k : K) (m : list (K * V)) : list (K * V) :=
  filter (λ e, e.1 ≠ k) m.
End assoc.

(** [interface Dictionary<T> { [index: string]: T }]: the own properties of
    a plain object, in creation order. *)
Abbreviation Dictionary T := (list (string * T)) (only parsing).

(** The registries are created as [{}], so a read [object[key]] that finds
    no own property goes on to [Object.prototype]: for the names below it
    yields the inherited member, a function (for ["__proto__"] the
    prototype object itself), which is truthy, is not an array and has no
    enumerable property of its own. *)
Definition prototypeNames : list string :=
  ["constructor"; "hasOwnProperty"; "isPrototypeOf"; "propertyIsEnumerable";
   "toLocaleString"; "toString"; "valueOf"; "__proto__";
   "__defineGetter__"; "__defineSetter__";
   "__lookupGetter__"; "__lookupSetter__"].

(** The result of the read [object[key]]. *)
Inductive Property (T : Type) : Type :=
  | Own (value : T)
  | Inherited
  | Absent.
Arguments Own {T} value.
Arguments Inherited {T}.
Arguments Absent {T}.

Definition getProperty {T} (d : list (string * T)) (key : string) : Property T :=
  match assoc_get key d with
  | Some value => Own value
  | None => if bool_decide (key ∈ prototypeNames) then Inherited else Absent
  end.

(** [!!object[key]] for a dictionary of arrays: every array is truthy, and
    so is every inherited member. *)
Definition isDefined {T} (property : Property T) : bool :=
  match property with
  | Absent => false
  | _ => true
  end.

(** Own-property enumeration order of a plain object: array-index keys
    (canonical decimal strings below 2^32 - 1) in ascending numeric order,
    then the remaining keys in creation order. *)
Definition parseDigit (a : Ascii.ascii) : option N :=
  let c := Ascii.N_of_ascii a in
  if ((48 <=? c) && (c <=? 57))%N then Some (c - 48)%N else None.

Fixpoint parseDecimal (acc : N) (s : string) : option N :=
  match s with
  | EmptyString => Some acc
  | String a r =>
      match parseDigit a with
      | Some d => parseDecimal (10 * acc + d)%N r
      | None => None
      end
  end.

Definition arrayIndex (s : string) : option N :=
  match s with
  | EmptyString => None
  | _ =>
      match parseDecimal 0%N s with
      | Some n =>
          if decide (pretty n = s) then
            if (n <? 4294967295)%N then Some n else None
          else None
      | None => None
      end
  end.

Fixpoint insertByIndex {T} (n : N) (v : T) (l : list (N * T)) : list (N * T) :=
  match l with
  | [] => [(n, v)]
  | (m, w) :: r =>
      if (n <? m)%N then (n, v) :: (m, w) :: r
      else (m, w) :: insertByIndex n v r
  end.

Definition indexedProperties {T} (d : Dictionary T) : list (N * (string * T)) :=
  fold_left
    (λ acc e, match arrayIndex e.1 with
              | Some n => insertByIndex n e acc
              | None => acc
              end) d [].

Definition ownProperties {T} (d : Dictionary T) : list (string * T) :=
  map snd (indexedProperties d) ++ filter (λ e, arrayIndex e.1 = None) d.

(** [Object.keys(object)] and lodash's [values(object)]. *)
Definition Object_keys {T} (d : Dictionary T) : list string :=
  map fst (ownProperties d).

Definition values {T} (d : Dictionary T) : list T :=
  map snd (ownProperties d).

(** ** Data model *)

(** A callback is known to the store only through its identity. *)
Definition SubscriptionCallbackFunction : Type := nat.

(** [interface AutoSubscription].  [sub_ref] is the identity of the record
    object; [sub_store] names the owning store instance.  A value of this
    type is the object as a call sees it: two values with the same
    [sub_ref] are the same object, seen at moments between which a field
    (in practice the flag [sub_used]) may have been assigned. *)
Record AutoSubscription : Type := {
  sub_ref : nat;
  sub_store : nat;
  sub_callback : SubscriptionCallbackFunction;
  sub_key : string;
  sub_used : bool
}.

(** Comparison of two records by reference, as [pull] makes it. *)
Definition sameObject (a b : AutoSubscription) : bool :=
  bool_decide (sub_ref a = sub_ref b).

(** [type CallbackMetadata]: [meta_keys = None] is the [null] key list
    (every key); [meta_throttledUntil = None] is [undefined]. *)
Record CallbackMetadata : Type := {
  meta_keys : option (list string);
  meta_throttledUntil : option Z;
  meta_bypassBlock : bool
}.

Definition set_meta_keys (ks : option (list string)) (m : CallbackMetadata) :=
  {| meta_keys := ks;
     meta_throttledUntil := meta_throttledUntil m;
     meta_bypassBlock := meta_bypassBlock m |}.

Definition set_meta_throttledUntil (t : option Z) (m : CallbackMetadata) :=
  {| meta_keys := meta_keys m;
     meta_throttledUntil := t;
     meta_bypassBlock := meta_bypassBlock m |}.

Definition set_meta_bypassBlock (b : bool) (m : CallbackMetadata) :=
  {| meta_keys := meta_keys m;
     meta_throttledUntil := meta_throttledUntil m;
     meta_bypassBlock := b |}.

(** [type CallbackMap = Map<SubscriptionCallbackFunction, CallbackMetadata>]. *)
Abbreviation CallbackMap :=
  (list (SubscriptionCallbackFunction * CallbackMetadata)) (only parsing).

Definition Key_All : string := "%!$all".

(** ** Merging a trigger into the pending table *)

(** [_updateExistingMeta]: the metadata object is mutated in place; the
    result is the object after the call ([None] when there was none). *)
Definition _updateExistingMeta (meta : option CallbackMetadata)
    (throttledUntil : option Z) (bypassBlock : bool) : option CallbackMetadata :=
  match meta with
  | None => None
  | Some meta =>
      let meta :=
        match throttledUntil, meta_throttledUntil meta with
        | Some t, Some mt =>
            if truthy (Some t) && truthy (Some mt)
            then set_meta_throttledUntil (Some (Z.min mt t)) meta
            else meta
        | _, _ => meta
        end in
      let meta :=
        if negb (truthy throttledUntil)
        then set_meta_throttledUntil None meta else meta in
      let meta :=
        if bypassBlock then set_meta_bypassBlock true meta else meta in
      Some meta
  end.

(** [_setupAllKeySubscription]. *)
Definition _setupAllKeySubscription (callback : SubscriptionCallbackFunction)
    (throttledUntil : option Z) (bypassBlock : bool)
    (pending : CallbackMap) : CallbackMap :=
  let existingMeta := assoc_get callback pending in
  let newMeta :=
    {| meta_keys := None;
       meta_throttledUntil := throttledUntil;
       meta_bypassBlock := bypassBlock |} in
  let newMeta :=
    match existingMeta, throttledUntil with
    | Some e, Some t =>
        match meta_throttledUntil e with
        | Some et =>
            if truthy (Some t) && truthy (Some et)
            then set_meta_throttledUntil (Some (Z.min t et)) newMeta
            else newMeta
        | None => newMeta
        end
    | _, _ => newMeta
    end in
  let newMeta :=
    match existingMeta with
    | Some e =>
        if meta_bypassBlock e then set_meta_bypassBlock true newMeta
        else newMeta
    | None => newMeta
    end in
  assoc_set callback newMeta pending.

(** [_setupSpecificKeySubscription]. *)
Definition _setupSpecificKeySubscription (keys : list string)
    (callback : SubscriptionCallbackFunction)
    (throttledUntil : option Z) (bypassBlock : bool)
    (pending : CallbackMap) : CallbackMap :=
  let existingMeta := assoc_get callback pending in
  match _updateExistingMeta existingMeta throttledUntil bypassBlock with
  | None =>
      assoc_set callback
        {| meta_keys := Some (clone keys);
           meta_throttledUntil := throttledUntil;
           meta_bypassBlock := bypassBlock |} pending
  | Some meta =>
      match meta_keys meta with
      | None => assoc_set callback meta pending
      | Some existing =>
          assoc_set callback (set_meta_keys (Some (existing ++ keys)) meta) pending
      end
  end.

(** ** Stores, the static fields and the environment *)

(** Instance fields of [StoreBase].  [_throttleData] is the pair
    [(timerId, callbackTime)]. *)
Record StoreBase : Type := {
  _subscriptions : Dictionary (list SubscriptionCallbackFunction);
  _autoSubscriptions : Dictionary (list AutoSubscription);
  _subTokenNum : Z;
  _subsByNum : gmap Z (string * SubscriptionCallbackFunction);
  _throttleData : option (Z * Z);
  _throttleMs : option Z;
  _bypassTriggerBlocks : bool
}.

Definition set_subscriptions d (s : StoreBase) : StoreBase :=
  {| _subscriptions := d; _autoSubscriptions := _autoSubscriptions s;
     _subTokenNum := _subTokenNum s; _subsByNum := _subsByNum s;
     _throttleData := _throttleData s; _throttleMs := _throttleMs s;
     _bypassTriggerBlocks := _bypassTriggerBlocks s |}.

Definition set_autoSubscriptions d (s : StoreBase) : StoreBase :=
  {| _subscriptions := _subscriptions s; _autoSubscriptions := d;
     _subTokenNum := _subTokenNum s; _subsByNum := _subsByNum s;
     _throttleData := _throttleData s; _throttleMs := _throttleMs s;
     _bypassTriggerBlocks := _bypassTriggerBlocks s |}.

Definition set_subTokenNum n (s : StoreBase) : StoreBase :=
  {| _subscriptions := _subscriptions s;
     _autoSubscriptions := _autoSubscriptions s;
     _subTokenNum := n; _subsByNum := _subsByNum s;
     _throttleData := _throttleData s; _throttleMs := _throttleMs s;
     _bypassTriggerBlocks := _bypassTriggerBlocks s |}.

Definition set_subsByNum m (s : StoreBase) : StoreBase :=
  {| _subscriptions := _subscriptions s;
     _autoSubscriptions := _autoSubscriptions s;
     _subTokenNum := _subTokenNum s; _subsByNum := m;
     _throttleData := _throttleData s; _throttleMs := _throttleMs s;
     _bypassTriggerBlocks := _bypassTriggerBlocks s |}.

Definition set_throttleData t (s : StoreBase) : StoreBase :=
  {| _subscriptions := _subscriptions s;
     _autoSubscriptions := _autoSubscriptions s;
     _subTokenNum := _subTokenNum s; _subsByNum := _subsByNum s;
     _throttleData := t; _throttleMs := _throttleMs s;
     _bypassTriggerBlocks := _bypassTriggerBlocks s |}.

(** [constructor(_throttleMs?, _bypassTriggerBlocks = false)]. *)
Definition new_StoreBase (throttleMs : option Z)
    (bypassTriggerBlocks : option bool) : StoreBase :=
  {| _subscriptions := []; _autoSubscriptions := [];
     _subTokenNum := 1; _subsByNum := ∅;
     _throttleData := None; _throttleMs := throttleMs;
     _bypassTriggerBlocks := default false bypassTriggerBlocks |}.

(** What the outside can observe of a run. *)
Inductive Event : Type :=
  | CallbackInvoked (callback : SubscriptionCallbackFunction)
      (keys : option (list string))
  | BeginInvokeStoreCallbacks
  | EndInvokeStoreCallbacks (count : Z)
  | StartedTrackingKey (store : nat) (key : string)
  | StoppedTrackingKey (store : nat) (key : string)
  | SetTimeout (store : nat) (timeoutMs : option Z) (timerId : Z).

Global Instance Event_eq_dec : EqDecision Event.
Proof. solve_decision. Defined.

(** The store instances (a store is named by its position), the static
    fields of the class, and the environment: the clock read by
    [Date.now()], the next timer handle, and the trace of events.
    [defaultThrottleMs] stands for [Options.defaultThrottleMs]; the
    configuration provider is not among the sources, so its value is a
    parameter of the world.

    [_triggerBlockCount] and [_bypassThrottle] are the static fields of
    [StoreBase] itself, the ones the resolver reads.  The three public
    static methods reach these fields through [this], the class they are
    called on: on a class derived from [StoreBase] the first write creates
    a static field of that class, which from then on hides the field of
    [StoreBase].  [derived_triggerBlockCount] and [derived_bypassThrottle]
    hold these fields of the derived classes (a class is named by a
    number). *)
Record World : Type := {
  stores : list StoreBase;
  _triggerPending : bool;
  _isTriggering : bool;
  _triggerBlockCount : Z;
  _bypassThrottle : bool;
  derived_triggerBlockCount : gmap nat Z;
  derived_bypassThrottle : gmap nat bool;
  _pendingCallbacks : CallbackMap;
  defaultThrottleMs : option Z;
  dateNow : Z;
  nextTimerId : Z;
  trace : list Event
}.

Definition set_stores x (w : World) : World :=
  {| stores := x; _triggerPending := _triggerPending w;
     _isTriggering := _isTriggering w;
     _triggerBlockCount := _triggerBlockCount w;
     _bypassThrottle := _bypassThrottle w;
     derived_triggerBlockCount := derived_triggerBlockCount w;
     derived_bypassThrottle := derived_bypassThrottle w;
     _pendingCallbacks := _pendingCallbacks w;
     defaultThrottleMs := defaultThrottleMs w; dateNow := dateNow w;
     nextTimerId := nextTimerId w; trace := trace w |}.

Definition set_triggerPending x (w : World) : World :=
  {| stores := stores w; _triggerPending := x;
     _isTriggering := _isTriggering w;
     _triggerBlockCount := _triggerBlockCount w;
     _bypassThrottle := _bypassThrottle w;
     derived_triggerBlockCount := derived_triggerBlockCount w;
     derived_bypassThrottle := derived_bypassThrottle w;
     _pendingCallbacks := _pendingCallbacks w;
     defaultThrottleMs := defaultThrottleMs w; dateNow := dateNow w;
     nextTimerId := nextTimerId w; trace := trace w |}.

Definition set_isTriggering x (w : World) : World :=
  {| stores := stores w; _triggerPending := _triggerPending w;
     _isTriggering := x;
     _triggerBlockCount := _triggerBlockCount w;
     _bypassThrottle := _bypassThrottle w;
     derived_triggerBlockCount := derived_triggerBlockCount w;
     derived_bypassThrottle := derived_bypassThrottle w;
     _pendingCallbacks := _pendingCallbacks w;
     defaultThrottleMs := defaultThrottleMs w; dateNow := dateNow w;
     nextTimerId := nextTimerId w; trace := trace w |}.

Definition set_triggerBlockCount x (w : World) : World :=
  {| stores := stores w; _triggerPending := _triggerPending w;
     _isTriggering := _isTriggering w;
     _triggerBlockCount := x;
     _bypassThrottle := _bypassThrottle w;
     derived_triggerBlockCount := derived_triggerBlockCount w;
     derived_bypassThrottle := derived_bypassThrottle w;
     _pendingCallbacks := _pendingCallbacks w;
     defaultThrottleMs := defaultThrottleMs w; dateNow := dateNow w;
     nextTimerId := nextTimerId w; trace := trace w |}.

Definition set_bypassThrottle x (w : World) : World :=
  {| stores := stores w; _triggerPending := _triggerPending w;
     _isTriggering := _isTriggering w;
     _triggerBlockCount := _triggerBlockCount w;
     _bypassThrottle := x;
     derived_triggerBlockCount := derived_triggerBlockCount w;
     derived_bypassThrottle := derived_bypassThrottle w;
     _pendingCallbacks := _pendingCallbacks w;
     defaultThrottleMs := defaultThrottleMs w; dateNow := dateNow w;
     nextTimerId := nextTimerId w; trace := trace w |}.

Definition set_derived_triggerBlockCount x (w : World) : World :=
  {| stores := stores w; _triggerPending := _triggerPending w;
     _isTriggering := _isTriggering w;
     _triggerBlockCount := _triggerBlockCount w;
     _bypassThrottle := _bypassThrottle w;
     derived_triggerBlockCount := x;
     derived_bypassThrottle := derived_bypassThrottle w;
     _pendingCallbacks := _pendingCallbacks w;
     defaultThrottleMs := defaultThrottleMs w; dateNow := dateNow w;
     nextTimerId := nextTimerId w; trace := trace w |}.

Definition set_derived_bypassThrottle x (w : World) : World :=
  {| stores := stores w; _triggerPending := _triggerPending w;
     _isTriggering := _isTriggering w;
     _triggerBlockCount := _triggerBlockCount w;
     _bypassThrottle := _bypassThrottle w;
     derived_triggerBlockCount := derived_triggerBlockCount w;
     derived_bypassThrottle := x;
     _pendingCallbacks := _pendingCallbacks w;
     defaultThrottleMs := defaultThrottleMs w; dateNow := dateNow w;
     nextTimerId := nextTimerId w; trace := trace w |}.

Definition set_pendingCallbacks x (w : World) : World :=
  {| stores := stores w; _triggerPending := _triggerPending w;
     _isTriggering := _isTriggering w;
     _triggerBlockCount := _triggerBlockCount w;
     _bypassThrottle := _bypassThrottle w;
     derived_triggerBlockCount := derived_triggerBlockCount w;
     derived_bypassThrottle := derived_bypassThrottle w;
     _pendingCallbacks := x;
     defaultThrottleMs := defaultThrottleMs w; dateNow := dateNow w;
     nextTimerId := nextTimerId w; trace := trace w |}.

Definition set_dateNow x (w : World) : World :=
  {| stores := stores w; _triggerPending := _triggerPending w;
     _isTriggering := _isTriggering w;
     _triggerBlockCount := _triggerBlockCount w;
     _bypassThrottle := _bypassThrottle w;
     derived_triggerBlockCount := derived_triggerBlockCount w;
     derived_bypassThrottle := derived_bypassThrottle w;
     _pendingCallbacks := _pendingCallbacks w;
     defaultThrottleMs := defaultThrottleMs w; dateNow := x;
     nextTimerId := nextTimerId w; trace := trace w |}.

Definition set_nextTimerId x (w : World) : World :=
  {| stores := stores w; _triggerPending := _triggerPending w;
     _isTriggering := _isTriggering w;
     _triggerBlockCount := _triggerBlockCount w;
     _bypassThrottle := _bypassThrottle w;
     derived_triggerBlockCount := derived_triggerBlockCount w;
     derived_bypassThrottle := derived_bypassThrottle w;
     _pendingCallbacks := _pendingCallbacks w;
     defaultThrottleMs := defaultThrottleMs w; dateNow := dateNow w;
     nextTimerId := x; trace := trace w |}.

Definition emit (e : Event) (w : World) : World :=
  {| stores := stores w; _triggerPending := _triggerPending w;
     _isTriggering := _isTriggering w;
     _triggerBlockCount := _triggerBlockCount w;
     _bypassThrottle := _bypassThrottle w;
     derived_triggerBlockCount := derived_triggerBlockCount w;
     derived_bypassThrottle := derived_bypassThrottle w;
     _pendingCallbacks := _pendingCallbacks w;
     defaultThrottleMs := defaultThrottleMs w; dateNow := dateNow w;
     nextTimerId := nextTimerId w; trace := trace w ++ [e] |}.

(** The world before any store exists. *)
Definition initialWorld (defaultThrottle : option Z) (now : Z) : World :=
  {| stores := []; _triggerPending := false; _isTriggering := false;
     _triggerBlockCount := 0; _bypassThrottle := false;
     derived_triggerBlockCount := ∅; derived_bypassThrottle := ∅;
     _pendingCallbacks := [];
     defaultThrottleMs := defaultThrottle; dateNow := now;
     nextTimerId := 1; trace := [] |}.

(** Failed assertions are fatal: a run stops at the first one.  The
    constructors follow the assertion messages of the source;
    [NotAFunction] is the [TypeError] of calling [push] on an inherited
    member of [Object.prototype]; [NoSuchStore] is a method call on a store
    that was never constructed. *)
Inductive Error : Type :=
  | InvalidKey                 (* Trying to subscribe to invalid key *)
  | NoSubscriptionsForToken    (* No subscriptions found for token *)
  | NoSubscriptionsUnderKey    (* No subscriptions under key *)
  | SubscriptionNotFound       (* Subscription not found during unsubscribe... *)
  | OverPoppedTriggerBlocks    (* Over-popped trigger blocks! *)
  | NotAFunction               (* TypeError: callbacks.push is not a function *)
  | NoSuchStore.

Inductive Result (A : Type) : Type :=
  | Ok (a : A)
  | Throw (e : Error)
  | OutOfFuel.
Arguments Ok {A} a.
Arguments Throw {A} e.
Arguments OutOfFuel {A}.

Definition bind {A B} (m : Result A) (f : A → Result B) : Result B :=
  match m with
  | Ok a => f a
  | Throw e => Throw e
  | OutOfFuel => OutOfFuel
  end.

Notation "'let*' x ':=' m 'in' k" := (bind m (λ x, k))
  (at level 10, x pattern, m at level 100, k at level 200, only parsing).

Definition getStore (store : nat) (w : World) : Result StoreBase :=
  match stores w !! store with
  | Some this => Ok this
  | None => Throw NoSuchStore
  end.

Definition putStore (store : nat) (this : StoreBase) (w : World) : World :=
  set_stores (<[store := this]> (stores w)) w.

(** Modelled from the spec: the configuration provider [Options] is not
    among the sources.  Its scheduling primitive takes a delay and a
    callback and returns a handle; here the request is recorded in the
    trace and a fresh handle is returned.  The timer later fires as the
    environment event [TimerFires]. *)
Definition Options_setTimeout (store : nat) (timeoutMs : option Z)
    (w : World) : Z * World :=
  let timerId := nextTimerId w in
  (timerId, emit (SetTimeout store timeoutMs timerId)
              (set_nextTimerId (timerId + 1) w)).

(** The two protected hooks are no-ops by default; a call is recorded. *)
Definition _startedTrackingKey (store : nat) (key : string) (w : World) : World :=
  emit (StartedTrackingKey store key) w.

Definition _stoppedTrackingKey (store : nat) (key : string) (w : World) : World :=
  emit (StoppedTrackingKey store key) w.

(** ** Subscription registry *)

(** The numbers of the model: the integers that a [number] holds exactly
    and that [toString()] writes out in decimal, that is those of absolute
    value at most [2^53 - 1].  Fractions, [NaN], the infinities and larger
    magnitudes are not in the model. *)
Record SafeInteger : Type := safe {
  int_value : Z;
  int_safe : Is_true (Z.abs int_value <=? 9007199254740991)%Z
}.

Global Instance SafeInteger_eq_dec : EqDecision SafeInteger.
Proof.
  intros [x Hx] [y Hy]. destruct (decide (x = y)) as [->|Hne].
  - left. f_equal. apply proof_irrel.
  - right. congruence.
Defined.

(** A key as callers pass it: [string | number]. *)
Inductive KeyValue : Type :=
  | KStr (s : string)
  | KNum (n : SafeInteger).

(** [typeof key === 'number' ? key.toString() : key]. *)
Definition keyToString (key : KeyValue) : string :=
  match key with
  | KNum n => pretty (int_value n)
  | KStr s => s
  end.

(** [subscribe(callback, rawKey = StoreBase.Key_All)]: returns the token. *)
Definition subscribe (store : nat) (callback : SubscriptionCallbackFunction)
    (rawKey : option KeyValue) (w : World) : Result (Z * World) :=
  let* this := getStore store w in
  let key := keyToString (default (KStr Key_All) rawKey) in
  if decide (key = "") then Throw InvalidKey else
  let* registered :=
    match getProperty (_subscriptions this) key with
    | Absent =>
        let this :=
          set_subscriptions (assoc_set key [callback] (_subscriptions this)) this in
        if bool_decide (key ≠ Key_All)
           && negb (isDefined (getProperty (_autoSubscriptions this) key))
        then Ok (this, _startedTrackingKey store key w)
        else Ok (this, w)
    | Own callbacks =>
        Ok (set_subscriptions
              (assoc_set key (callbacks ++ [callback]) (_subscriptions this))
              this,
            w)
    | Inherited => Throw NotAFunction
    end in
  let '(this, w) := registered in
  let token := _subTokenNum this in
  let this := set_subTokenNum (token + 1)%Z this in
  let this := set_subsByNum (<[token := (key, callback)]> (_subsByNum this)) this in
  Ok (token, putStore store this w).

(** [unsubscribe(subToken)]. *)
Definition unsubscribe (store : nat) (subToken : Z) (w : World) : Result World :=
  let* this := getStore store w in
  match _subsByNum this !! subToken with
  | None => Throw NoSubscriptionsForToken
  | Some (key, callback) =>
      let this := set_subsByNum (delete subToken (_subsByNum this)) this in
      let w :=
        set_pendingCallbacks (assoc_delete callback (_pendingCallbacks w)) w in
      match getProperty (_subscriptions this) key with
      | Absent => Throw NoSubscriptionsUnderKey
      | Own callbacks =>
          let index := indexOf callbacks callback in
          if negb (index =? -1)%Z then
            let callbacks := splice1 index callbacks in
            let this :=
              set_subscriptions (assoc_set key callbacks (_subscriptions this)) this in
            if (length callbacks =? 0)%nat then
              let this :=
                set_subscriptions (assoc_delete key (_subscriptions this)) this in
              if bool_decide (key ≠ Key_All)
                 && negb (isDefined (getProperty (_autoSubscriptions this) key))
              then Ok (putStore store this (_stoppedTrackingKey store key w))
              else Ok (putStore store this w)
            else Ok (putStore store this w)
          else Throw SubscriptionNotFound
      | Inherited =>
          (* [indexOf] finds no callback in an inherited member *)
          Throw SubscriptionNotFound
      end
  end.

(** [trackAutoSubscription(subscription)]. *)
Definition trackAutoSubscription (store : nat) (subscription : AutoSubscription)
    (w : World) : Result World :=
  let* this := getStore store w in
  let key := sub_key subscription in
  match getProperty (_autoSubscriptions this) key with
  | Absent =>
      let this :=
        set_autoSubscriptions
          (assoc_set key [subscription] (_autoSubscriptions this)) this in
      if bool_decide (key ≠ Key_All)
         && negb (isDefined (getProperty (_subscriptions this) key))
      then Ok (putStore store this (_startedTrackingKey store key w))
      else Ok (putStore store this w)
  | Own callbacks =>
      Ok (putStore store
            (set_autoSubscriptions
               (assoc_set key (callbacks ++ [subscription])
                  (_autoSubscriptions this)) this) w)
  | Inherited => Throw NotAFunction
  end.

(** [removeAutoSubscription(subscription)]. *)
Definition removeAutoSubscription (store : nat) (subscription : AutoSubscription)
    (w : World) : Result World :=
  let* this := getStore store w in
  let key := sub_key subscription in
  match getProperty (_autoSubscriptions this) key with
  | Absent => Throw NoSubscriptionsUnderKey
  | Own subs =>
      let oldLength := length subs in
      let subs := pull sameObject subs subscription in
      let this :=
        set_autoSubscriptions (assoc_set key subs (_autoSubscriptions this)) this in
      if (Z.of_nat (length subs) =? Z.of_nat oldLength - 1)%Z then
        let w :=
          set_pendingCallbacks
            (assoc_delete (sub_callback subscription) (_pendingCallbacks w)) w in
        if (length subs =? 0)%nat then
          let this :=
            set_autoSubscriptions
              (assoc_delete key (_autoSubscriptions this)) this in
          if bool_decide (key ≠ Key_All)
             && negb (isDefined (getProperty (_subscriptions this) key))
          then Ok (putStore store this (_stoppedTrackingKey store key w))
          else Ok (putStore store this w)
        else Ok (putStore store this w)
      else Throw SubscriptionNotFound
  | Inherited =>
      (* [pull] takes nothing out of an inherited member, whose [length]
         is therefore not one less than before *)
      Throw SubscriptionNotFound
  end.

(** [_getSubscriptionKeys()] and [_isTrackingKey(key)]. *)
Definition _getSubscriptionKeys (this : StoreBase) : list string :=
  uniq (Object_keys (_subscriptions this)
        ++ Object_keys (_autoSubscriptions this)).

Definition _isTrackingKey (this : StoreBase) (key : string) : bool :=
  isDefined (getProperty (_subscriptions this) key)
  || isDefined (getProperty (_autoSubscriptions this) key).

(** ** Trigger dispatch *)

(** The argument of [trigger(keyOrKeys?)]:
    [string | number | (string | number)[] | undefined]. *)
Inductive KeyOrKeys : Type :=
  | Undefined
  | Single (key : KeyValue)
  | Many (keys : list KeyValue).

(** JavaScript truthiness of the argument: [undefined], the empty string
    and the number [0] are falsy; every array is truthy. *)
Definition truthyArg (keyOrKeys : KeyOrKeys) : bool :=
  match keyOrKeys with
  | Undefined => false
  | Single (KStr s) => negb (bool_decide (s = ""))
  | Single (KNum n) => negb (int_value n =? 0)%Z
  | Many _ => true
  end.

Definition typeofNumber (keyOrKeys : KeyOrKeys) : bool :=
  match keyOrKeys with
  | Single (KNum _) => true
  | _ => false
  end.

(** The test [!keyOrKeys && typeof keyOrKeys !== 'number'] that selects the
    all-keys branch. *)
Definition allKeysBranch (keyOrKeys : KeyOrKeys) : bool :=
  negb (truthyArg keyOrKeys) && negb (typeofNumber keyOrKeys).

(** [(Array.isArray(keyOrKeys) ? keyOrKeys : [keyOrKeys]).map(...)]; the
    specific-keys branch is never entered with [undefined]. *)
Definition normalizedKeys (keyOrKeys : KeyOrKeys) : list string :=
  match keyOrKeys with
  | Many keys => map keyToString keys
  | Single key => [keyToString key]
  | Undefined => []
  end.

Definition forEach {A S} (collection : list A) (iteratee : A → S → S) (s : S) : S :=
  fold_left (λ s a, iteratee a s) collection s.

(** Lookup of a list-valued property for iteration by [forEach]: an absent
    key iterates nothing, and neither does an inherited member, which has
    no enumerable property of its own. *)
Definition at_key {T} (key : string) (d : Dictionary (list T)) : list T :=
  default [] (assoc_get key d).

(** First part of [trigger]: the effective throttle, the timer, and the
    due-time [throttledUntil] of this call.  Returns the updated store,
    the world and [throttledUntil]. *)
Definition triggerThrottle (store : nat) (this : StoreBase) (w : World)
    : StoreBase * World * option Z :=
  let throttleMs :=
    match _throttleMs this with
    | Some ms => Some ms
    | None => defaultThrottleMs w
    end in
  match throttleMs with
  | Some ms =>
      if truthy (Some ms) then
        match _throttleData this with
        | None =>
            let '(timerId, w) :=
              Options_setTimeout store (_throttleMs this) w in
            let callbackTime := (dateNow w + ms)%Z in
            (set_throttleData (Some (timerId, callbackTime)) this, w,
             Some callbackTime)
        | Some (_, callbackTime) => (this, w, Some callbackTime)
        end
      else (this, w, None)
  | None => (this, w, None)
  end.

(** Second part of [trigger]: registration of the affected callbacks in
    the pending table. *)
Definition triggerAllKeys (this : StoreBase) (throttledUntil : option Z)
    (bypassBlock : bool) (pending : CallbackMap) : CallbackMap :=
  let allSubs := flatten (values (_subscriptions this)) in
  let pending :=
    forEach allSubs
      (λ sub, _setupAllKeySubscription sub throttledUntil bypassBlock) pending in
  forEach (flatten (values (_autoSubscriptions this)))
    (λ sub, _setupAllKeySubscription (sub_callback sub) throttledUntil bypassBlock)
    pending.

Definition triggerSpecificKeys (this : StoreBase) (keys : list string)
    (throttledUntil : option Z) (bypassBlock : bool)
    (pending : CallbackMap) : CallbackMap :=
  let pending :=
    forEach keys
      (λ key pending,
         let pending :=
           forEach (at_key key (_subscriptions this))
             (λ callback,
                _setupSpecificKeySubscription [key] callback
                  throttledUntil bypassBlock) pending in
         forEach (at_key key (_autoSubscriptions this))
           (λ sub,
              _setupSpecificKeySubscription [key] (sub_callback sub)
                throttledUntil bypassBlock) pending)
      pending in
  let pending :=
    forEach (at_key Key_All (_subscriptions this))
      (λ callback,
         _setupSpecificKeySubscription keys callback throttledUntil bypassBlock)
      pending in
  forEach (at_key Key_All (_autoSubscriptions this))
    (λ sub,
       _setupSpecificKeySubscription keys (sub_callback sub)
         throttledUntil bypassBlock)
    pending.

Definition triggerRegister (this : StoreBase) (keyOrKeys : KeyOrKeys)
    (throttledUntil : option Z) (bypassBlock : bool)
    (pending : CallbackMap) : CallbackMap :=
  if allKeysBranch keyOrKeys
  then triggerAllKeys this throttledUntil bypassBlock pending
  else triggerSpecificKeys this (normalizedKeys keyOrKeys)
         throttledUntil bypassBlock pending.

(** ** The shared resolver *)

(** [meta.throttledUntil && meta.throttledUntil > currentTime]. *)
Definition stillThrottled (meta : CallbackMetadata) (currentTime : Z) : bool :=
  match meta_throttledUntil meta with
  | Some t => truthy (Some t) && (currentTime <? t)%Z
  | None => false
  end.

(** [meta.keys ? uniq(meta.keys) : meta.keys], then [uniquedKeys || undefined]:
    the argument handed to the callback. *)
Definition uniquedKeys (meta : CallbackMetadata) : option (list string) :=
  match meta_keys meta with
  | Some keys => Some (uniq keys)
  | None => None
  end.

(** One iteration of [_pendingCallbacks.forEach((meta, callback, map) => ...)]:
    [acc] is the local array [callbacks] together with the table. *)
Definition captureCallback (blockCount : Z) (bypassThrottle : bool)
    (currentTime : Z)
    (acc : list (SubscriptionCallbackFunction * option (list string)) * CallbackMap)
    (entry : SubscriptionCallbackFunction * CallbackMetadata)
    : list (SubscriptionCallbackFunction * option (list string)) * CallbackMap :=
  let '(callback, meta) := entry in
  if (0 <? blockCount)%Z && negb (meta_bypassBlock meta) then acc
  else if stillThrottled meta currentTime && negb bypassThrottle then acc
  else (acc.1 ++ [(callback, uniquedKeys meta)], assoc_delete callback acc.2).

Definition captureCallbacks (blockCount : Z) (bypassThrottle : bool)
    (currentTime : Z) (pending : CallbackMap)
    : list (SubscriptionCallbackFunction * option (list string)) * CallbackMap :=
  fold_left (captureCallback blockCount bypassThrottle currentTime)
    pending ([], pending).

(** The calls a client or the environment can make. *)
Inductive Op : Type :=
  | NewStore (throttleMs : option Z) (bypassTriggerBlocks : option bool)
  | Subscribe (store : nat) (callback : SubscriptionCallbackFunction)
      (rawKey : option KeyValue)
  | Unsubscribe (store : nat) (subToken : Z)
  | TrackAutoSubscription (store : nat) (subscription : AutoSubscription)
  | RemoveAutoSubscription (store : nat) (subscription : AutoSubscription)
  | Trigger (store : nat) (keyOrKeys : KeyOrKeys)
  | PushTriggerBlock (receiver : list nat)
  | PopTriggerBlock (receiver : list nat)
  | SetThrottleStatus (receiver : list nat) (enabled : bool)
  | TimerFires (store : nat)
  | Elapse (ms : N).

(** The class a static method is called on, [this] inside the method:
    [StoreBase] itself is [[]]; a derived class is the chain of classes
    from itself up to, and not including, [StoreBase].  A read
    [this.field] finds the field of the nearest class on the chain that
    has one of its own, and at last the field of [StoreBase]; a write
    [this.field = value] sets the field of the receiver itself. *)
Fixpoint readStatic {T} (derived : gmap nat T) (base : T)
    (receiver : list nat) : T :=
  match receiver with
  | [] => base
  | class :: ancestors =>
      match derived !! class with
      | Some value => value
      | None => readStatic derived base ancestors
      end
  end.

Definition this_triggerBlockCount (receiver : list nat) (w : World) : Z :=
  readStatic (derived_triggerBlockCount w) (_triggerBlockCount w) receiver.

Definition set_this_triggerBlockCount (receiver : list nat) (x : Z)
    (w : World) : World :=
  match receiver with
  | [] => set_triggerBlockCount x w
  | class :: _ =>
      set_derived_triggerBlockCount
        (<[class := x]> (derived_triggerBlockCount w)) w
  end.

Definition set_this_bypassThrottle (receiver : list nat) (x : bool)
    (w : World) : World :=
  match receiver with
  | [] => set_bypassThrottle x w
  | class :: _ =>
      set_derived_bypassThrottle (<[class := x]> (derived_bypassThrottle w)) w
  end.

(** [static pushTriggerBlock()]: [this._triggerBlockCount++]. *)
Definition pushTriggerBlock (receiver : list nat) (w : World) : World :=
  set_this_triggerBlockCount receiver
    (this_triggerBlockCount receiver w + 1)%Z w.

Section StoreBase.
(** The body of each callback: the calls it makes when invoked with
    [keys], chosen from what it can see of the world. *)
Variable behaviour :
  SubscriptionCallbackFunction → option (list string) → World → list Op.

Section methods.
(** The resolver, tied to [_resolveCallbacks] below. *)
Variable resolve : World → Result World.

(** [static popTriggerBlock()]. *)
Definition popTriggerBlock (receiver : list nat) (w : World) : Result World :=
  let w :=
    set_this_triggerBlockCount receiver
      (this_triggerBlockCount receiver w - 1)%Z w in
  if (0 <=? this_triggerBlockCount receiver w)%Z then
    if (this_triggerBlockCount receiver w =? 0)%Z then resolve w else Ok w
  else Throw OverPoppedTriggerBlocks.

(** [static setThrottleStatus(enabled)]. *)
Definition setThrottleStatus (receiver : list nat) (enabled : bool)
    (w : World) : Result World :=
  resolve (set_this_bypassThrottle receiver (negb enabled) w).

Definition trigger (store : nat) (keyOrKeys : KeyOrKeys) (w : World)
    : Result World :=
  let* this := getStore store w in
  let '(this, w, throttledUntil) := triggerThrottle store this w in
  let w := putStore store this w in
  let bypassBlock := _bypassTriggerBlocks this in
  let w :=
    set_pendingCallbacks
      (triggerRegister this keyOrKeys throttledUntil bypassBlock
         (_pendingCallbacks w)) w in
  if negb (truthy throttledUntil) || bypassBlock then resolve w else Ok w.

Definition _handleThrottledCallbacks (store : nat) (w : World)
    : Result World :=
  let* this := getStore store w in
  resolve (putStore store (set_throttleData None this) w).

Definition step (op : Op) (w : World) : Result World :=
  match op with
  | NewStore throttleMs bypassTriggerBlocks =>
      Ok (set_stores
            (stores w ++ [new_StoreBase throttleMs bypassTriggerBlocks]) w)
  | Subscribe store callback rawKey =>
      let* r := subscribe store callback rawKey w in Ok r.2
  | Unsubscribe store subToken => unsubscribe store subToken w
  | TrackAutoSubscription store subscription =>
      trackAutoSubscription store subscription w
  | RemoveAutoSubscription store subscription =>
      removeAutoSubscription store subscription w
  | Trigger store keyOrKeys => trigger store keyOrKeys w
  | PushTriggerBlock receiver => Ok (pushTriggerBlock receiver w)
  | PopTriggerBlock receiver => popTriggerBlock receiver w
  | SetThrottleStatus receiver enabled => setThrottleStatus receiver enabled w
  | TimerFires store => _handleThrottledCallbacks store w
  | Elapse ms => Ok (set_dateNow (dateNow w + Z.of_N ms)%Z w)
  end.

Fixpoint run (ops : list Op) (w : World) : Result World :=
  match ops with
  | [] => Ok w
  | op :: ops => let* w := step op w in run ops w
  end.

(** [callbacks.forEach(([callback, keys]) => { callback(keys); })]. *)
Fixpoint invokeCallbacks
    (callbacks : list (SubscriptionCallbackFunction * option (list string)))
    (w : World) : Result World :=
  match callbacks with
  | [] => Ok w
  | (callback, keys) :: callbacks =>
      let w := emit (CallbackInvoked callback keys) w in
      let* w := run (behaviour callback keys w) w in
      invokeCallbacks callbacks w
  end.

(** One pass of the resolver: [_resolveCallbacks] from the point where
    [_isTriggering] is set up to the point where it is cleared. *)
Definition resolverPass (w : World) : Result World :=
  let w := set_isTriggering true w in
  let w := set_triggerPending false w in
  let w := emit BeginInvokeStoreCallbacks w in
  let callbacksCount := 0%Z in
  let currentTime := dateNow w in
  let '(callbacks, pending) :=
    captureCallbacks (_triggerBlockCount w) (_bypassThrottle w)
      currentTime (_pendingCallbacks w) in
  let w := set_pendingCallbacks pending w in
  let* w := invokeCallbacks callbacks w in
  let w := emit (EndInvokeStoreCallbacks callbacksCount) w in
  Ok (set_isTriggering false w).
End methods.

(** [_resolveCallbacks].  The final self-call can go on for ever when
    callbacks keep triggering; [fuel] bounds the number of passes. *)
Fixpoint _resolveCallbacks (fuel : nat) (w : World) : Result World :=
  if _isTriggering w then Ok (set_triggerPending true w)
  else
    match fuel with
    | O => OutOfFuel
    | S fuel =>
        let* w := resolverPass (_resolveCallbacks fuel) w in
        if _triggerPending w then _resolveCallbacks fuel w else Ok w
    end.

(** A sequence of calls made from outside any callback. *)
Definition exec (fuel : nat) (ops : list Op) (w : World) : Result World :=
  run (_resolveCallbacks fuel) ops w.
End StoreBase.

(** ** Notions used to state the properties *)

Global Instance KeyValue_eq_dec : EqDecision KeyValue.
Proof. solve_decision. Defined.

Global Instance KeyOrKeys_eq_dec : EqDecision KeyOrKeys.
Proof. solve_decision. Defined.

(** The events a world [w'] has seen beyond those of an earlier world [w]. *)
Definition events_since (w w' : World) : list Event :=
  drop (length (trace w)) (trace w').

(** Events produced by the resolver itself: the two instrumentation marks
    around a pass and the callback invocations. *)
Definition resolverEvent (e : Event) : bool :=
  match e with
  | CallbackInvoked _ _ | BeginInvokeStoreCallbacks
  | EndInvokeStoreCallbacks _ => true
  | _ => false
  end.

Definition passMark (e : Event) : bool :=
  match e with
  | BeginInvokeStoreCallbacks | EndInvokeStoreCallbacks _ => true
  | _ => false
  end.

Definition isInvocation (e : Event) : bool :=
  match e with
  | CallbackInvoked _ _ => true
  | _ => false
  end.

Definition invocationOf (callback : SubscriptionCallbackFunction) (e : Event) : bool :=
  match e with
  | CallbackInvoked c _ => bool_decide (c = callback)
  | _ => false
  end.

Definition invocation
    (c : SubscriptionCallbackFunction * option (list string)) : Event :=
  CallbackInvoked c.1 c.2.

(** The two gates of a pass as the code tests them. *)
Definition capturedNow (blockCount : Z) (bypassThrottle : bool) (currentTime : Z)
    (entry : SubscriptionCallbackFunction * CallbackMetadata) : bool :=
  negb ((0 <? blockCount)%Z && negb (meta_bypassBlock entry.2))
  && negb (stillThrottled entry.2 currentTime && negb bypassThrottle).

(** The two gates of a resolver pass, in the words of the specification:
    an entry is held back when the block counter is positive and the entry
    does not bypass blocks, and when its due-time is strictly in the future
    and throttling is not bypassed. *)
Definition heldByBlock (blockCount : Z) (meta : CallbackMetadata) : bool :=
  (0 <? blockCount)%Z && negb (meta_bypassBlock meta).

Definition heldByThrottle (bypassThrottle : bool) (now : Z)
    (meta : CallbackMetadata) : bool :=
  match meta_throttledUntil meta with
  | Some due => (now <? due)%Z
  | None => false
  end && negb bypassThrottle.

Definition passesGates (blockCount : Z) (bypassThrottle : bool) (now : Z)
    (entry : SubscriptionCallbackFunction * CallbackMetadata) : bool :=
  negb (heldByBlock blockCount entry.2)
  && negb (heldByThrottle bypassThrottle now entry.2).

(** What a delivered entry hands to its callback. *)
Definition delivery (entry : SubscriptionCallbackFunction * CallbackMetadata)
    : SubscriptionCallbackFunction * option (list string) :=
  (entry.1, uniquedKeys entry.2).

(** The captures of a pass started in world [w]. *)
Definition capturedBy (w : World)
    : list (SubscriptionCallbackFunction * option (list string)) * CallbackMap :=
  captureCallbacks (_triggerBlockCount w) (_bypassThrottle w) (dateNow w)
    (_pendingCallbacks w).

(** A pending entry is immediate when it carries no due-time, that is when
    [throttledUntil] is falsy. *)
Definition immediate (meta : CallbackMetadata) : Prop :=
  truthy (meta_throttledUntil meta) = false.

(** The pending table holds an entry for [callback] with the all-keys list. *)
Definition allKeysEntry (callback : SubscriptionCallbackFunction)
    (pending : CallbackMap) : Prop :=
  ∃ meta, assoc_get callback pending = Some meta ∧ meta_keys meta = None.

(** Subscribers of [key] on a store, explicit and automatic together. *)
Definition subscriberCount (w : World) (store : nat) (key : string) : nat :=
  match stores w !! store with
  | Some this =>
      length (at_key key (_subscriptions this))
      + length (at_key key (_autoSubscriptions this))
  | None => 0
  end.

(** Class invariants.  A key of either registry always maps to a non-empty
    list (the key is deleted with its last subscriber); the keys of the
    pending table are distinct, as in any [Map]; the block counter is not
    negative. *)
Definition noEmptyLists {T} (d : Dictionary (list T)) : Prop :=
  ∀ key l, assoc_get key d = Some l → l ≠ [].

Definition registryInv (w : World) : Prop :=
  ∀ store this, stores w !! store = Some this →
    noEmptyLists (_subscriptions this) ∧ noEmptyLists (_autoSubscriptions this).

Definition pendingInv (w : World) : Prop :=
  NoDup (map fst (_pendingCallbacks w)).

Definition worldInv (w : World) : Prop :=
  registryInv w ∧ pendingInv w ∧ (0 ≤ _triggerBlockCount w)%Z.

(** The four registry operations on [store] that move the subscriber count
    of [key]. *)
Definition registryOp (store : nat) (op : Op) : Prop :=
  match op with
  | Subscribe s _ _ | Unsubscribe s _
  | TrackAutoSubscription s _ | RemoveAutoSubscription s _ => s = store
  | _ => False
  end.

(** A callback that makes no calls of its own. *)
Definition quiet : SubscriptionCallbackFunction → option (list string)
    → World → list Op := λ _ _ _, [].

(** ** Calls, up to the resolver *)

(** What a call does before it reaches the resolver, and whether it then
    asks for a resolution: the body of each method with its final call of
    [_resolveCallbacks] taken off.  [step_prepare] below shows that [step]
    is this followed by the resolver. *)
Definition prepare (op : Op) (w : World) : Result (World * bool) :=
  match op with
  | NewStore throttleMs bypassTriggerBlocks =>
      Ok (set_stores
            (stores w ++ [new_StoreBase throttleMs bypassTriggerBlocks]) w,
          false)
  | Subscribe store callback rawKey =>
      let* r := subscribe store callback rawKey w in Ok (r.2, false)
  | Unsubscribe store subToken =>
      let* w := unsubscribe store subToken w in Ok (w, false)
  | TrackAutoSubscription store subscription =>
      let* w := trackAutoSubscription store subscription w in Ok (w, false)
  | RemoveAutoSubscription store subscription =>
      let* w := removeAutoSubscription store subscription w in Ok (w, false)
  | Trigger store keyOrKeys =>
      let* this := getStore store w in
      let r := triggerThrottle store this w in
      let w1 := putStore store r.1.1 r.1.2 in
      Ok (set_pendingCallbacks
            (triggerRegister r.1.1 keyOrKeys r.2 (_bypassTriggerBlocks r.1.1)
               (_pendingCallbacks w1)) w1,
          negb (truthy r.2) || _bypassTriggerBlocks r.1.1)
  | PushTriggerBlock receiver => Ok (pushTriggerBlock receiver w, false)
  | PopTriggerBlock receiver =>
      if (0 <=? this_triggerBlockCount receiver w - 1)%Z
      then Ok (set_this_triggerBlockCount receiver
                 (this_triggerBlockCount receiver w - 1)%Z w,
               (this_triggerBlockCount receiver w - 1 =? 0)%Z)
      else Throw OverPoppedTriggerBlocks
  | SetThrottleStatus receiver enabled =>
      Ok (set_this_bypassThrottle receiver (negb enabled) w, true)
  | TimerFires store =>
      let* this := getStore store w in
      Ok (putStore store (set_throttleData None this) w, true)
  | Elapse ms => Ok (set_dateNow (dateNow w + Z.of_N ms)%Z w, false)
  end.

(** The instrumentation marks of [n] passes run one after the other. *)
Definition passMarks (n : nat) : list Event :=
  concat (replicate n [BeginInvokeStoreCallbacks; EndInvokeStoreCallbacks 0]).

(** [w'] follows [w]: what every call guarantees of the world it returns.
    The class invariants carry over; the reentrancy flag is back at its
    value; the trace has only grown, by no resolver event at all if the
    call was made inside a running pass, and by the marks of whole passes
    otherwise. *)
Record follows (w w' : World) : Prop := {
  follows_inv : worldInv w → worldInv w';
  follows_triggering : _isTriggering w' = _isTriggering w;
  follows_trace :
    ∃ evs, trace w' = trace w ++ evs
      ∧ (_isTriggering w = true → filter resolverEvent evs = [])
      ∧ (_isTriggering w = false → ∃ n, filter passMark evs = passMarks n)
}.

Definition resolverFollows (resolve : World → Result World) : Prop :=
  ∀ v v', resolve v = Ok v' → follows v v'.

(** ** Sample worlds *)

(** A pending table in a blocked world: callback 1 bypasses the block,
    callback 2 does not, callback 3 bypasses it but is due in the future,
    callback 4 bypasses it with the all-keys list. *)
Definition blockedWorld : World :=
  {| stores := []; _triggerPending := false; _isTriggering := false;
     _triggerBlockCount := 1; _bypassThrottle := false;
     derived_triggerBlockCount := ∅; derived_bypassThrottle := ∅;
     _pendingCallbacks :=
       [(1, {| meta_keys := Some ["a"; "b"; "a"];
               meta_throttledUntil := None; meta_bypassBlock := true |});
        (2, {| meta_keys := Some ["a"];
               meta_throttledUntil := None; meta_bypassBlock := false |});
        (3, {| meta_keys := Some ["c"];
               meta_throttledUntil := Some 2000%Z; meta_bypassBlock := true |});
        (4, {| meta_keys := None;
               meta_throttledUntil := Some 900%Z; meta_bypassBlock := true |})];
     defaultThrottleMs := None; dateNow := 1000; nextTimerId := 1;
     trace := [] |}.

(** The world a result stands for, when there is one. *)
Definition worldOf (r : Result World) (otherwise : World) : World :=
  match r with
  | Ok w => w
  | _ => otherwise
  end.

(** Two stores share callback 7: store 0 is not throttled, store 1 is
    throttled by 1000 ms.  While delivery is blocked, store 0 triggers key
    "a". *)
Definition sharedCallbackBlocked : list Op :=
  [NewStore None None; NewStore (Some 1000%Z) None;
   Subscribe 0 7 (Some (KStr "a")); Subscribe 1 7 (Some (KStr "a"));
   PushTriggerBlock []; Trigger 0 (Single (KStr "a"))].

(** A store without a throttle of its own, with one subscriber, triggered
    where the configured default throttle applies. *)
Definition defaultThrottled : list Op :=
  [NewStore None None; Subscribe 0 1 (Some (KStr "a"));
   Trigger 0 (Single (KStr "a"))].

(** One subscriber of key "a"; the store is triggered with the empty string. *)
Definition emptyStringTrigger : list Op :=
  [NewStore None None; Subscribe 0 1 (Some (KStr "a"));
   Trigger 0 (Single (KStr ""))].

(** A store whose key "a" has callback 1 as its only subscriber, and a
    pending all-keys entry for that callback. *)
Definition storeWithSubscriber : StoreBase :=
  set_subscriptions [("a", [1])] (new_StoreBase None None).

Definition allKeysPending : list (SubscriptionCallbackFunction * CallbackMetadata) :=
  [(1, {| meta_keys := None; meta_throttledUntil := None;
          meta_bypassBlock := false |})].

(** Callback 1 unsubscribes token 2 of store 0 when it runs; every other
    callback makes no calls. *)
Definition unsubscribesOther : SubscriptionCallbackFunction
    → option (list string) → World → list Op :=
  λ callback _ _, if decide (callback = 1) then [Unsubscribe 0 2] else [].

(** Callback 1 subscribes to "a" (token 1) and callback 2 to "b"
    (token 2); both keys are then triggered together. *)
Definition bothTriggered : list Op :=
  [NewStore None None;
   Subscribe 0 1 (Some (KStr "a")); Subscribe 0 2 (Some (KStr "b"));
   Trigger 0 (Many [KStr "a"; KStr "b"])].

(** Callback 7 subscribes to "a" (token 1) and to "b" (token 2) of store 0;
    while delivery is blocked both keys are triggered. *)
Definition twoKeysBlocked : list Op :=
  [NewStore None None;
   Subscribe 0 7 (Some (KStr "a")); Subscribe 0 7 (Some (KStr "b"));
   PushTriggerBlock [];
   Trigger 0 (Single (KStr "a")); Trigger 0 (Single (KStr "b"))].

Definition twoKeysBlockedWorld : World :=
  worldOf (exec quiet 1 twoKeysBlocked (initialWorld None 1000))
    (initialWorld None 1000).

(** Token 1, the subscription of callback 7 to "a", is then removed. *)
Definition afterUnsubscribe : World :=
  worldOf (unsubscribe 0 1 twoKeysBlockedWorld) twoKeysBlockedWorld.

(** Callback 1 triggers key "b" twice when it runs; every other callback
    makes no calls.  Callback 1 subscribes to "a" and callback 2 to "b". *)
Definition retriggers : SubscriptionCallbackFunction
    → option (list string) → World → list Op :=
  λ callback _ _,
    if decide (callback = 1)
    then [Trigger 0 (Single (KStr "b")); Trigger 0 (Single (KStr "b"))]
    else [].

Definition subscribedToAandB : list Op :=
  [NewStore None None;
   Subscribe 0 1 (Some (KStr "a")); Subscribe 0 2 (Some (KStr "b"))].

Definition subscribedToAandBWorld : World :=
  worldOf (exec retriggers 0 subscribedToAandB (initialWorld None 1000))
    (initialWorld None 1000).

(** ** Notions for the further properties *)

(** What the resolver changes by itself, apart from what its callbacks do:
    only the two flags, the pending table and the trace. *)
Definition resolverOwn (w w' : World) : Prop :=
  stores w' = stores w
  ∧ _triggerBlockCount w' = _triggerBlockCount w
  ∧ _bypassThrottle w' = _bypassThrottle w
  ∧ defaultThrottleMs w' = defaultThrottleMs w
  ∧ dateNow w' = dateNow w
  ∧ nextTimerId w' = nextTimerId w.

(** How often [x] occurs in a list. *)
Definition occurrences {A} `{EqDecision A} (x : A) (l : list A) : nat :=
  length (filter (λ y, y = x) l).

(** The live tokens of a store that stand for the subscription of
    [callback] to [key]. *)
Definition tokensFor (this : StoreBase) (key : string)
    (callback : SubscriptionCallbackFunction) : nat :=
  size (filter (λ e : Z * (string * SubscriptionCallbackFunction),
                  e.2 = (key, callback)) (_subsByNum this)).

(** The token table and the explicit registry of a store agree: every live
    token is below the token counter, and a callback occurs in the list of
    a key as often as there are live tokens for that pair. *)
Definition tokensOk (this : StoreBase) : Prop :=
  (∀ tok, is_Some (_subsByNum this !! tok) → (tok < _subTokenNum this)%Z)
  ∧ ∀ key callback,
      tokensFor this key callback
      = occurrences callback (at_key key (_subscriptions this)).

Definition tokenInv (w : World) : Prop :=
  ∀ store this, stores w !! store = Some this → tokensOk this.

(** [this'] has the explicit registry, the token table and the token
    counter of [this]. *)
Definition sameTokens (this this' : StoreBase) : Prop :=
  _subscriptions this' = _subscriptions this
  ∧ _subsByNum this' = _subsByNum this
  ∧ _subTokenNum this' = _subTokenNum this.

(** The store a call addresses, before the call and when the call reaches
    the resolver or returns: [this'] is [this] after [op]. *)
Definition storeAfter (op : Op) (this this' : StoreBase) : Prop :=
  match op with
  | Subscribe _ callback rawKey =>
      let key := keyToString (default (KStr Key_All) rawKey) in
      key ≠ ""
      ∧ getProperty (_subscriptions this) key ≠ Inherited
      ∧ this'
        = set_subsByNum
            (<[_subTokenNum this := (key, callback)]> (_subsByNum this))
            (set_subTokenNum (_subTokenNum this + 1)%Z
               (set_subscriptions
                  (assoc_set key (at_key key (_subscriptions this) ++ [callback])
                     (_subscriptions this)) this))
  | Unsubscribe _ subToken =>
      ∃ key callback l,
        _subsByNum this !! subToken = Some (key, callback)
        ∧ assoc_get key (_subscriptions this) = Some l
        ∧ indexOf l callback ≠ (-1)%Z
        ∧ this'
          = set_subscriptions
              (if (length (splice1 (indexOf l callback) l) =? 0)%nat
               then assoc_delete key
                      (assoc_set key (splice1 (indexOf l callback) l)
                         (_subscriptions this))
               else assoc_set key (splice1 (indexOf l callback) l)
                      (_subscriptions this))
              (set_subsByNum (delete subToken (_subsByNum this)) this)
  | TrackAutoSubscription _ subscription =>
      getProperty (_autoSubscriptions this) (sub_key subscription) ≠ Inherited
      ∧ this'
        = set_autoSubscriptions
            (assoc_set (sub_key subscription)
               (at_key (sub_key subscription) (_autoSubscriptions this)
                ++ [subscription])
               (_autoSubscriptions this)) this
  | RemoveAutoSubscription _ subscription =>
      ∃ subs,
        assoc_get (sub_key subscription) (_autoSubscriptions this) = Some subs
        ∧ length subs = S (length (pull sameObject subs subscription))
        ∧ this'
          = set_autoSubscriptions
              (if (length (pull sameObject subs subscription) =? 0)%nat
               then assoc_delete (sub_key subscription)
                      (assoc_set (sub_key subscription)
                         (pull sameObject subs subscription)
                         (_autoSubscriptions this))
               else assoc_set (sub_key subscription)
                      (pull sameObject subs subscription)
                      (_autoSubscriptions this))
              this
  | Trigger _ _ => ∃ throttleData, this' = set_throttleData throttleData this
  | TimerFires _ => this' = set_throttleData None this
  | _ => False
  end.

(** The store a call addresses, if it addresses one. *)
Definition addressed (op : Op) : option nat :=
  match op with
  | Subscribe s _ _ | Unsubscribe s _ | TrackAutoSubscription s _
  | RemoveAutoSubscription s _ | Trigger s _ | TimerFires s => Some s
  | _ => None
  end.

(** A third subscriber, callback 5 under key "c", joins store 0 of
    [subscribedToAandBWorld]. *)
Definition withThirdSubscriber : World :=
  worldOf (step (_resolveCallbacks quiet 0) (Subscribe 0 5 (Some (KStr "c")))
             subscribedToAandBWorld)
    subscribedToAandBWorld.

(** Token 1 (callback 1 under "a") of [subscribedToAandBWorld] is
    unsubscribed; then callback 1 subscribes to "a" again. *)
Definition tokenOneGone : World :=
  worldOf (unsubscribe 0 1 subscribedToAandBWorld) subscribedToAandBWorld.

Definition resubscribed : World :=
  worldOf (exec quiet 0 [Subscribe 0 1 (Some (KStr "a"))] tokenOneGone)
    tokenOneGone.

(** An auto-subscription record of callback 4 for key "a" of store 0,
    tracked once and tracked twice. *)
Definition sampleRecord : AutoSubscription :=
  {| sub_ref := 1; sub_store := 0; sub_callback := 4; sub_key := "a";
     sub_used := true |}.

Definition storeOnly : World :=
  worldOf (exec quiet 0 [NewStore None None] (initialWorld None 1000))
    (initialWorld None 1000).

Definition trackedOnce : World :=
  worldOf (trackAutoSubscription 0 sampleRecord storeOnly) storeOnly.

Definition trackedTwice : World :=
  worldOf (trackAutoSubscription 0 sampleRecord trackedOnce) trackedOnce.

(** How many records of [l] are the object [subscription]. *)
Definition timesTracked (subscription : AutoSubscription)
    (l : list AutoSubscription) : nat :=
  length (filter (λ y, sub_ref y = sub_ref subscription) l).

(** [sampleRecord] after its flag [used] was cleared: the same object. *)
Definition sampleRecordUnused : AutoSubscription :=
  {| sub_ref := 1; sub_store := 0; sub_callback := 4; sub_key := "a";
     sub_used := false |}.

Definition trackedAgain : World :=
  worldOf (trackAutoSubscription 0 sampleRecordUnused trackedOnce) trackedOnce.

(** [callback] is subscribed to [key] on the store, explicitly or through
    an auto-subscription record. *)
Definition listens (this : StoreBase) (key : string)
    (callback : SubscriptionCallbackFunction) : Prop :=
  callback ∈ at_key key (_subscriptions this)
  ∨ ∃ sub, sub ∈ at_key key (_autoSubscriptions this)
           ∧ sub_callback sub = callback.

(** The callbacks a specific-keys trigger of [keys] reaches: the
    subscribers of one of the keys and the subscribers of [Key_All]. *)
Definition affectedBy (this : StoreBase) (keys : list string)
    (callback : SubscriptionCallbackFunction) : Prop :=
  (∃ key, key ∈ keys ∧ listens this key callback)
  ∨ listens this Key_All callback.

(** What a pending entry (or its absence) says about keys. *)
Definition holdsAll (entry : option CallbackMetadata) : Prop :=
  ∃ meta, entry = Some meta ∧ meta_keys meta = None.

Definition holdsKey (entry : option CallbackMetadata) (key : string) : Prop :=
  ∃ meta keys, entry = Some meta ∧ meta_keys meta = Some keys ∧ key ∈ keys.

(** [entry'] is captured by every pass that would capture [entry]. *)
Definition noHarder (entry entry' : option CallbackMetadata) : Prop :=
  ∀ meta, entry = Some meta →
    ∃ meta', entry' = Some meta'
      ∧ ∀ blockCount bypassThrottle now callback,
          capturedNow blockCount bypassThrottle now (callback, meta) = true →
          capturedNow blockCount bypassThrottle now (callback, meta') = true.

(** How registration of specific keys moves the entry of one callback:
    untouched entries stay, touched ones exist afterwards, an entry never
    gets harder to deliver, the all-keys list stays the all-keys list, and
    a key list gains exactly the keys [added]. *)
Definition grown (entry entry' : option CallbackMetadata) (touched : Prop)
    (added : string → Prop) : Prop :=
  (¬ touched → entry' = entry)
  ∧ (touched → is_Some entry')
  ∧ noHarder entry entry'
  ∧ (holdsAll entry' ↔ holdsAll entry)
  ∧ ∀ key, holdsKey entry' key
           ↔ ¬ holdsAll entry ∧ (holdsKey entry key ∨ added key).

(** The keys of each registry object are distinct, as the own properties
    of any object are. *)
Definition keysDistinct (this : StoreBase) : Prop :=
  NoDup (map fst (_subscriptions this))
  ∧ NoDup (map fst (_autoSubscriptions this)).

(** A store where callback 1 is subscribed to "a" and callback 2 to every
    key. *)
Definition keyAndAllStore : StoreBase :=
  set_subscriptions [("a", [1]); (Key_All, [2])] (new_StoreBase None None).

(** The entry carries the due-time and bypass flag of a trigger with
    [throttledUntil] and [bypassBlock]: the bypass flag as given, the
    due-time as given when there is one, and no due-time otherwise. *)
Definition carries (throttledUntil : option Z) (bypassBlock : bool)
    (entry : option CallbackMetadata) : Prop :=
  ∀ meta, entry = Some meta →
    meta_bypassBlock meta = bypassBlock
    ∧ (truthy throttledUntil = true → meta_throttledUntil meta = throttledUntil)
    ∧ (truthy throttledUntil = false → immediate meta).

(** The callbacks a trigger with argument [keyOrKeys] reaches: on the
    all-keys branch every subscriber of the store, otherwise the
    subscribers of the given keys and of [Key_All]. *)
Definition reached (this : StoreBase) (keyOrKeys : KeyOrKeys)
    (callback : SubscriptionCallbackFunction) : Prop :=
  if allKeysBranch keyOrKeys then ∃ key, listens this key callback
  else affectedBy this (normalizedKeys keyOrKeys) callback.

(** Store 0 is constructed with a throttle of 500 ms and callback 1
    subscribes to "a", at time 1000. *)
Definition throttledStore : list Op :=
  [NewStore (Some 500%Z) None; Subscribe 0 1 (Some (KStr "a"))].

Definition throttledStoreWorld : World :=
  worldOf (exec quiet 0 throttledStore (initialWorld None 1000))
    (initialWorld None 1000).

(** The state of a world [v] inside a trigger block opened in [w], as far
    as [callback] and the unthrottled store [store] are concerned: the
    block is one deep, the store is as it was, the callback's entry (if
    any) has no due-time and does not bypass blocks, and the callback has
    not been invoked since [w]. *)
Definition heldInBlock (store : nat) (this : StoreBase)
    (callback : SubscriptionCallbackFunction) (w v : World) : Prop :=
  stores v !! store = Some this
  ∧ defaultThrottleMs v = defaultThrottleMs w
  ∧ _isTriggering v = false
  ∧ _triggerBlockCount v = 1%Z
  ∧ NoDup (map fst (_pendingCallbacks v))
  ∧ carries None false (assoc_get callback (_pendingCallbacks v))
  ∧ ∃ evs, trace v = trace w ++ evs ∧ filter (invocationOf callback) evs = [].

(** Callback 1 listens to "a" and to "b" on the unthrottled store 0. *)
Definition listensToAandB : list Op :=
  [NewStore None None;
   Subscribe 0 1 (Some (KStr "a")); Subscribe 0 1 (Some (KStr "b"))].

Definition listensToAandBWorld : World :=
  worldOf (exec quiet 0 listensToAandB (initialWorld None 1000))
    (initialWorld None 1000).

(** The blocked sample world with the block lifted. *)
Definition unblockedWorld : World := set_triggerBlockCount 0%Z blockedWorld.

(** The characters of a decimal numeral: the digits and the minus sign. *)
Definition decimalChar (c : Ascii.ascii) : bool :=
  let code := Ascii.N_of_ascii c in
  (code =? 45)%N || ((48 <=? code)%N && (code <=? 57)%N).

Fixpoint allDecimal (s : string) : bool :=
  match s with
  | EmptyString => true
  | String c s => decimalChar c && allDecimal s
  end.

(** The number zero, as a key. *)
Definition zero : SafeInteger := safe 0 I.




(** The calls [ops] made by a callback, that is inside a pass, from world
    [w]: whether one of them reaches the resolver, and the world they
    leave.  A call that reaches the resolver there only has the pending
    flag set. *)
Fixpoint requestsIn (ops : list Op) (w : World) : Result (bool * World) :=
  match ops with
  | [] => Ok (false, w)
  | op :: ops =>
      let* p := prepare op w in
      let* r :=
        requestsIn ops (if p.2 then set_triggerPending true p.1 else p.1) in
      Ok (p.2 || r.1, r.2)
  end.

(** The callbacks of a pass invoked one after the other from world [w]:
    whether a call made by one of them reaches the resolver, and the world
    they leave. *)
Fixpoint passRequests
    (behaviour : SubscriptionCallbackFunction → option (list string)
                 → World → list Op)
    (callbacks : list (SubscriptionCallbackFunction * option (list string)))
    (w : World) : Result (bool * World) :=
  match callbacks with
  | [] => Ok (false, w)
  | (callback, keys) :: callbacks =>
      let w := emit (CallbackInvoked callback keys) w in
      let* r := requestsIn (behaviour callback keys w) w in
      let* r' := passRequests behaviour callbacks r.2 in
      Ok (r.1 || r'.1, r'.2)
  end.

(** The world in which the callbacks of a pass started in [w] are
    invoked. *)
Definition passStart (w : World) : World :=
  set_pendingCallbacks (capturedBy w).2
    (emit BeginInvokeStoreCallbacks
       (set_triggerPending false (set_isTriggering true w))).

(** Store 0 of [subscribedToAandBWorld] has triggered "a" and is about to
    call the resolver. *)
Definition aTriggered : World :=
  worldOf (let* p := prepare (Trigger 0 (Single (KStr "a")))
                       subscribedToAandBWorld in Ok p.1)
    subscribedToAandBWorld.

(** A world whose pending table is [allKeysPending] after key "a" was
    triggered on [storeWithSubscriber]. *)
Definition allKeysPendingWorld : World :=
  set_pendingCallbacks
    (triggerRegister storeWithSubscriber (Single (KStr "a")) None false
       allKeysPending)
    (initialWorld None 1000).

(** The key whose subscriber count a registry call moves, and whether the
    call adds a subscriber ([true]) or takes one away ([false]).  For
    [unsubscribe] it is the key that the token stands for. *)
Definition movedKey (op : Op) (w : World) : option (string * bool) :=
  match op with
  | Subscribe _ _ rawKey =>
      Some (keyToString (default (KStr Key_All) rawKey), true)
  | Unsubscribe store subToken =>
      match stores w !! store with
      | Some this =>
          match _subsByNum this !! subToken with
          | Some (key, _) => Some (key, false)
          | None => None
          end
      | None => None
      end
  | TrackAutoSubscription _ subscription => Some (sub_key subscription, true)
  | RemoveAutoSubscription _ subscription => Some (sub_key subscription, false)
  | _ => None
  end.

(** A sequence of registry calls, on any stores. *)
Definition registryRun (ops : list Op) : Prop :=
  Forall (λ op, ∃ store, registryOp store op) ops.

(** Store 0 after an explicit subscription of callback 5 to "a" was added
    to the tracked record. *)
Definition trackedAndSubscribed : World :=
  worldOf (exec quiet 0 [Subscribe 0 5 (Some (KStr "a"))] trackedOnce)
    trackedOnce.

(** No key of either registry of [this] is the name of a member that a
    plain object inherits. *)
Definition plainKeys (this : StoreBase) : Prop :=
  ∀ key, key ∈ prototypeNames →
    assoc_get key (_subscriptions this) = None
    ∧ assoc_get key (_autoSubscriptions this) = None.

Definition plainInv (w : World) : Prop :=
  ∀ store this, stores w !! store = Some this → plainKeys this.

(** * Properties *)

(** ** Insertion-ordered maps *)

Section assoc_facts.
Context {K V : Type} `{EqDecision K}.
Implicit Types (m : list (K * V)) (k : K) (v : V).

Lemma assoc_get_set_eq m k v : assoc_get k (assoc_set k v m) = Some v.
Proof.
  induction m as [|[k' v'] m IH]; simpl.
  - by rewrite decide_True.
  - destruct (decide (k' = k)) as [->|Hne]; simpl.
    + by rewrite decide_True.
    + by rewrite decide_False.
Qed.

Lemma assoc_get_set_ne m k k' v :
  k ≠ k' → assoc_get k' (assoc_set k v m) = assoc_get k' m.
Proof.
  intros Hne. induction m as [|[k0 v0] m IH]; simpl.
  - by rewrite decide_False.
  - destruct (decide (k0 = k)) as [->|Hk]; simpl.
    + by rewrite !decide_False.
    + destruct (decide (k0 = k')); [done | apply IH].
Qed.

Lemma assoc_set_keys m k v :
  map fst (assoc_set k v m)
  = if decide (k ∈ map fst m) then map fst m else map fst m ++ [k].
Proof.
  induction m as [|[k0 v0] m IH]; simpl; [done |].
  - destruct (decide (k0 = k)) as [->|Hk]; simpl.
    + rewrite decide_True; [done | left].
    + rewrite IH. destruct (decide (k ∈ map fst m)) as [Hin|Hin].
      * rewrite decide_True; [done | by right].
      * rewrite decide_False; [done |].
        intros Hc. apply elem_of_cons in Hc as [->|Hc]; done.
Qed.

Lemma assoc_set_NoDup m k v :
  NoDup (map fst m) → NoDup (map fst (assoc_set k v m)).
Proof.
  intros Hnd. rewrite assoc_set_keys.
  destruct (decide (k ∈ map fst m)); [done |].
  apply NoDup_app. split_and!; [done | | apply NoDup_singleton].
  intros x Hx Hx'. apply list_elem_of_singleton in Hx'. by subst.
Qed.

Lemma assoc_delete_keys_subseteq m k :
  map fst (assoc_delete k m) ⊆ map fst m.
Proof.
  intros x. unfold assoc_delete. rewrite !list_elem_of_fmap.
  intros (e & -> & He). apply list_elem_of_filter in He as [_ He]. eauto.
Qed.

Lemma assoc_delete_NoDup m k :
  NoDup (map fst m) → NoDup (map fst (assoc_delete k m)).
Proof.
  unfold assoc_delete. induction m as [|[k0 v0] m IH]; simpl; [done |].
  intros Hnd. apply NoDup_cons in Hnd as [Hk0 Hnd].
  rewrite filter_cons. simpl. destruct (decide (k0 ≠ k)); simpl; [|auto].
  apply NoDup_cons. split; [|auto].
  intros Hc. apply Hk0. by apply (assoc_delete_keys_subseteq m k).
Qed.

Lemma assoc_get_None m k : assoc_get k m = None ↔ k ∉ map fst m.
Proof.
  induction m as [|[k0 v0] m IH]; simpl.
  - split; [intros _; apply not_elem_of_nil | done].
  - destruct (decide (k0 = k)) as [->|Hk].
    + split; [done | intros Hc; exfalso; apply Hc; left].
    + rewrite IH. rewrite not_elem_of_cons. intuition congruence.
Qed.

Lemma assoc_get_Some_elem m k v : assoc_get k m = Some v → (k, v) ∈ m.
Proof.
  induction m as [|[k0 v0] m IH]; simpl; [done |].
  destruct (decide (k0 = k)) as [->|Hk].
  - intros [= ->]. left.
  - intros Hg. right. auto.
Qed.

Lemma assoc_get_elem_NoDup m k v :
  NoDup (map fst m) → (k, v) ∈ m → assoc_get k m = Some v.
Proof.
  induction m as [|[k0 v0] m IH]; simpl; [by intros _ ?%elem_of_nil |].
  intros Hnd Hin. apply NoDup_cons in Hnd as [Hk0 Hnd].
  apply elem_of_cons in Hin as [[= <- <-]|Hin].
  - by rewrite decide_True.
  - destruct (decide (k0 = k)) as [->|Hk]; [|auto].
    exfalso. apply Hk0. apply list_elem_of_fmap. by exists (k, v).
Qed.

Lemma assoc_get_delete_eq m k : assoc_get k (assoc_delete k m) = None.
Proof.
  apply assoc_get_None. unfold assoc_delete. rewrite list_elem_of_fmap.
  intros ([k0 v0] & -> & He). apply list_elem_of_filter in He as [He _]. done.
Qed.

Lemma assoc_get_delete_ne m k k' :
  k ≠ k' → assoc_get k' (assoc_delete k m) = assoc_get k' m.
Proof.
  intros Hne. unfold assoc_delete.
  induction m as [|[k0 v0] m IH]; simpl; [done |].
  rewrite filter_cons. simpl.
  destruct (decide (k0 ≠ k)) as [Hk|Hk]; simpl.
  - destruct (decide (k0 = k')); [done | apply IH].
  - apply dec_stable in Hk as ->. by rewrite decide_False.
Qed.

Lemma assoc_delete_absent m k : k ∉ map fst m → assoc_delete k m = m.
Proof.
  unfold assoc_delete. induction m as [|[k0 v0] m IH]; simpl; [done |].
  intros Hk. apply not_elem_of_cons in Hk as [Hk Hm].
  rewrite filter_cons. simpl. rewrite decide_True; [|done]. f_equal. auto.
Qed.
End assoc_facts.

(** ** [uniq] deduplicates and keeps every key *)

Section uniq_facts.
Context {A : Type} `{EqDecision A}.

Lemma uniq_fold_spec (l seen : list A) :
  NoDup seen →
  let r := fold_left
             (λ seen x, if decide (x ∈ seen) then seen else seen ++ [x]) l seen in
  NoDup r ∧ ∀ x, x ∈ r ↔ x ∈ seen ∨ x ∈ l.
Proof.
  revert seen. induction l as [|a l IH]; intros seen Hnd; simpl.
  - split; [done |]. intros x. rewrite elem_of_nil. tauto.
  - destruct (decide (a ∈ seen)) as [Hin|Hin].
    + destruct (IH seen Hnd) as [H1 H2]. split; [done |].
      intros x. rewrite H2, elem_of_cons. split; [tauto |].
      intros [?|[->|?]]; tauto.
    + destruct (IH (seen ++ [a])) as [H1 H2].
      { apply NoDup_app. split_and!; [done | | apply NoDup_singleton].
        intros x Hx Hx'. apply list_elem_of_singleton in Hx'. by subst. }
      split; [done |]. intros x.
      rewrite H2, elem_of_app, list_elem_of_singleton, elem_of_cons. tauto.
Qed.

Lemma uniq_NoDup (l : list A) : NoDup (uniq l).
Proof. apply (uniq_fold_spec l []), NoDup_nil_2. Qed.

Lemma uniq_elem_of (l : list A) (x : A) : x ∈ uniq l ↔ x ∈ l.
Proof.
  destruct (uniq_fold_spec l [] (NoDup_nil_2)) as [_ H1].
  unfold uniq. rewrite H1, elem_of_nil. tauto.
Qed.
End uniq_facts.

(** ** The capture loop of a pass *)

Lemma captureCallback_unfold bc bt now acc entry :
  captureCallback bc bt now acc entry
  = if capturedNow bc bt now entry
    then (acc.1 ++ [delivery entry], assoc_delete entry.1 acc.2)
    else acc.
Proof.
  destruct entry as [cb meta]. unfold captureCallback, capturedNow, delivery.
  simpl. destruct ((0 <? bc)%Z && negb (meta_bypassBlock meta)); simpl; [done |].
  by destruct (stillThrottled meta now && negb bt).
Qed.

Lemma capture_fold bc bt now (rest pre : CallbackMap) cbs :
  NoDup (map fst (pre ++ rest)) →
  fold_left (captureCallback bc bt now) rest (cbs, pre ++ rest)
  = (cbs ++ map delivery (filter (λ e, capturedNow bc bt now e) rest),
     pre ++ filter (λ e, ¬ capturedNow bc bt now e) rest).
Proof.
  revert pre cbs. induction rest as [|e rest IH]; intros pre cbs Hnd; simpl.
  - rewrite !app_nil_r. reflexivity.
  - rewrite captureCallback_unfold, !filter_cons. simpl.
    destruct (capturedNow bc bt now e) eqn:He.
    + rewrite decide_True by done.
      rewrite decide_False by (intros Hc; by apply Hc).
      assert (assoc_delete e.1 (pre ++ e :: rest) = pre ++ rest) as ->.
      { unfold assoc_delete. rewrite filter_app, filter_cons.
        rewrite decide_False by tauto.
        rewrite fmap_app, fmap_cons in Hnd.
        apply NoDup_app in Hnd as (_ & Hdisj & Hnd).
        apply NoDup_cons in Hnd as [Hhd _].
        rewrite <- (assoc_delete_absent rest e.1) at 2 by done.
        rewrite <- (assoc_delete_absent pre e.1) at 2; [done |].
        intros Hc. apply (Hdisj _ Hc). left. }
      rewrite IH.
      * simpl. by rewrite <- app_assoc.
      * rewrite fmap_app in *. rewrite fmap_cons in Hnd.
        apply NoDup_app in Hnd as (H1 & H2 & H3).
        apply NoDup_cons in H3 as [_ H3].
        apply NoDup_app. split_and!; [done | | done].
        intros x Hx Hx'. apply (H2 x Hx). by right.
    + rewrite decide_False by (intros []). rewrite decide_True by (intros []).
      replace (pre ++ e :: rest) with ((pre ++ [e]) ++ rest)
        by (by rewrite <- app_assoc).
      rewrite IH.
      * by rewrite <- app_assoc.
      * by rewrite <- app_assoc.
Qed.

Lemma captureCallbacks_spec bc bt now (pending : CallbackMap) :
  NoDup (map fst pending) →
  captureCallbacks bc bt now pending
  = (map delivery (filter (λ e, capturedNow bc bt now e) pending),
     filter (λ e, ¬ capturedNow bc bt now e) pending).
Proof.
  intros Hnd. unfold captureCallbacks.
  apply (capture_fold bc bt now pending [] []), Hnd.
Qed.

Lemma stillThrottled_future meta now :
  (0 ≤ now)%Z →
  stillThrottled meta now
  = match meta_throttledUntil meta with
    | Some due => (now <? due)%Z
    | None => false
    end.
Proof.
  intros Hnow. unfold stillThrottled, truthy.
  destruct (meta_throttledUntil meta) as [t|]; [|done].
  destruct (Z.eqb_spec t 0) as [->|]; simpl; [|done].
  symmetry. apply Z.ltb_ge. lia.
Qed.

Lemma capturedNow_passesGates bc bt now entry :
  (0 ≤ now)%Z → capturedNow bc bt now entry = passesGates bc bt now entry.
Proof.
  intros Hnow. unfold capturedNow, passesGates, heldByBlock, heldByThrottle.
  by rewrite stillThrottled_future.
Qed.

(** ** Properties of a plain object *)

Lemma getProperty_Own {T} (d : Dictionary T) key value :
  getProperty d key = Own value ↔ assoc_get key d = Some value.
Proof.
  unfold getProperty. destruct (assoc_get key d).
  - split; congruence.
  - by destruct (bool_decide _).
Qed.

Lemma getProperty_Absent {T} (d : Dictionary T) key :
  getProperty d key = Absent ↔ assoc_get key d = None ∧ key ∉ prototypeNames.
Proof.
  unfold getProperty. destruct (assoc_get key d); [by split; [|intros []] |].
  case_bool_decide; split; try done; by intros [].
Qed.

Lemma getProperty_Inherited {T} (d : Dictionary T) key :
  getProperty d key = Inherited ↔ assoc_get key d = None ∧ key ∈ prototypeNames.
Proof.
  unfold getProperty. destruct (assoc_get key d); [by split; [|intros []] |].
  case_bool_decide; split; try done; by intros [].
Qed.

Lemma notDefined_plain {T} (d : Dictionary T) key :
  key ∉ prototypeNames →
  negb (isDefined (getProperty d key)) = bool_decide (assoc_get key d = None).
Proof.
  intros Hplain. unfold getProperty. destruct (assoc_get key d); [done |].
  by rewrite bool_decide_eq_false_2.
Qed.

(** ** Static fields read and written through a receiver *)

Lemma readStatic_insert {T} (derived : gmap nat T) base class ancestors x :
  readStatic (<[class := x]> derived) base (class :: ancestors) = x.
Proof. simpl. by rewrite lookup_insert_eq. Qed.

Lemma this_triggerBlockCount_set receiver x w :
  this_triggerBlockCount receiver (set_this_triggerBlockCount receiver x w) = x.
Proof.
  destruct receiver as [|class ancestors]; [done |].
  unfold this_triggerBlockCount. simpl. by rewrite lookup_insert_eq.
Qed.

(** ** Every call is its preparation followed by the resolver *)

Lemma step_prepare resolve op w :
  step resolve op w
  = let* p := prepare op w in if p.2 then resolve p.1 else Ok p.1.
Proof.
  destruct op; simpl; try reflexivity.
  - by destruct (subscribe store callback rawKey w).
  - by destruct (unsubscribe store subToken w).
  - by destruct (trackAutoSubscription store subscription w).
  - by destruct (removeAutoSubscription store subscription w).
  - unfold trigger. destruct (getStore store w) as [this| |]; simpl; try done.
    by destruct (triggerThrottle store this w) as [[this' w'] tu].
  - unfold popTriggerBlock. rewrite this_triggerBlockCount_set.
    by destruct (0 <=? this_triggerBlockCount receiver w - 1)%Z.
  - unfold _handleThrottledCallbacks.
    by destruct (getStore store w).
Qed.

(** ** Traces *)

Lemma events_since_app w w' evs :
  trace w' = trace w ++ evs → events_since w w' = evs.
Proof.
  intros H. unfold events_since. by rewrite H, drop_app_length.
Qed.

Lemma filter_passMark_resolverEvent (evs : list Event) :
  filter passMark evs = filter passMark (filter resolverEvent evs).
Proof.
  induction evs as [|e evs IH]; [done |].
  rewrite !filter_cons. destruct e; simpl; rewrite ?filter_cons; simpl;
    by rewrite IH.
Qed.

Lemma filter_isInvocation_resolverEvent (evs : list Event) :
  filter isInvocation evs = filter isInvocation (filter resolverEvent evs).
Proof.
  induction evs as [|e evs IH]; [done |].
  rewrite !filter_cons. destruct e; simpl; rewrite ?filter_cons; simpl;
    by rewrite IH.
Qed.

Lemma filter_invocationOf_resolverEvent c (evs : list Event) :
  filter (invocationOf c) evs = filter (invocationOf c) (filter resolverEvent evs).
Proof.
  induction evs as [|e evs IH]; [done |].
  rewrite !filter_cons. destruct e; simpl; rewrite ?filter_cons; simpl;
    by rewrite IH.
Qed.

Lemma filter_passMark_invocations
    (l : list (SubscriptionCallbackFunction * option (list string))) :
  filter passMark (map invocation l) = [].
Proof.
  induction l as [|c l IH]; [done |].
  simpl. rewrite filter_cons. simpl. exact IH.
Qed.

Lemma passMarks_add n m : passMarks n ++ passMarks m = passMarks (n + m).
Proof. unfold passMarks. by rewrite replicate_add, concat_app. Qed.

Lemma follows_refl w : follows w w.
Proof.
  split; [done | done |]. exists []. rewrite app_nil_r.
  split_and!; [done | done |]. intros _. by exists 0.
Qed.

Lemma follows_trans w1 w2 w3 : follows w1 w2 → follows w2 w3 → follows w1 w3.
Proof.
  intros [Hi1 Ht1 (e1 & He1 & Hq1 & Hm1)] [Hi2 Ht2 (e2 & He2 & Hq2 & Hm2)].
  split; [auto | congruence |].
  exists (e1 ++ e2). rewrite He2, He1, app_assoc. split_and!; [done | |].
  - intros Htr. rewrite filter_app, Hq1, Hq2; [done | congruence | done].
  - intros Htr. destruct (Hm1 Htr) as [n1 Hn1].
    destruct Hm2 as [n2 Hn2]; [congruence |].
    exists (n1 + n2). by rewrite filter_app, Hn1, Hn2, passMarks_add.
Qed.

(** ** Class invariants *)

Lemma forEach_preserves {A S} (P : S → Prop) (f : A → S → S) (l : list A) (s : S) :
  (∀ a s, P s → P (f a s)) → P s → P (forEach l f s).
Proof.
  intros Hf. unfold forEach. revert s.
  induction l as [|a l IH]; simpl; auto.
Qed.

Lemma _setupAllKeySubscription_keys callback throttledUntil bypassBlock
    (pending : CallbackMap) :
  NoDup (map fst pending) →
  NoDup (map fst
           (_setupAllKeySubscription callback throttledUntil bypassBlock pending)).
Proof. unfold _setupAllKeySubscription. apply assoc_set_NoDup. Qed.

Lemma _setupSpecificKeySubscription_keys keys callback throttledUntil bypassBlock
    (pending : CallbackMap) :
  NoDup (map fst pending) →
  NoDup (map fst
           (_setupSpecificKeySubscription keys callback throttledUntil
              bypassBlock pending)).
Proof.
  intros Hnd. unfold _setupSpecificKeySubscription.
  destruct (_updateExistingMeta _ _ _) as [meta|]; [|by apply assoc_set_NoDup].
  destruct (meta_keys meta); by apply assoc_set_NoDup.
Qed.

Lemma triggerRegister_keys this keyOrKeys throttledUntil bypassBlock
    (pending : CallbackMap) :
  NoDup (map fst pending) →
  NoDup (map fst
           (triggerRegister this keyOrKeys throttledUntil bypassBlock pending)).
Proof.
  intros Hnd. unfold triggerRegister, triggerAllKeys, triggerSpecificKeys.
  destruct (allKeysBranch keyOrKeys).
  - repeat (apply (forEach_preserves (λ p : CallbackMap, NoDup (map fst p)));
            [intros; by apply _setupAllKeySubscription_keys |]).
    done.
  - do 2 (apply (forEach_preserves (λ p : CallbackMap, NoDup (map fst p)));
          [intros; by apply _setupSpecificKeySubscription_keys |]).
    apply (forEach_preserves (λ p : CallbackMap, NoDup (map fst p))); [|done].
    intros key p Hp.
    do 2 (apply (forEach_preserves (λ p : CallbackMap, NoDup (map fst p)));
          [intros; by apply _setupSpecificKeySubscription_keys |]).
    done.
Qed.

Lemma noEmptyLists_set {T} (d : Dictionary (list T)) key l :
  noEmptyLists d → l ≠ [] → noEmptyLists (assoc_set key l d).
Proof.
  intros Hd Hl key' l'. destruct (decide (key = key')) as [->|Hne].
  - rewrite assoc_get_set_eq. by intros [= <-].
  - rewrite assoc_get_set_ne by done. apply Hd.
Qed.

Lemma noEmptyLists_delete_set {T} (d : Dictionary (list T)) key l :
  noEmptyLists d → noEmptyLists (assoc_delete key (assoc_set key l d)).
Proof.
  intros Hd key' l'. destruct (decide (key = key')) as [->|Hne].
  - by rewrite assoc_get_delete_eq.
  - rewrite assoc_get_delete_ne, assoc_get_set_ne by done. apply Hd.
Qed.

Lemma registryInv_putStore w w' store this this' :
  registryInv w →
  stores w !! store = Some this →
  stores w' = <[store := this']> (stores w) →
  noEmptyLists (_subscriptions this') →
  noEmptyLists (_autoSubscriptions this') →
  registryInv w'.
Proof.
  intros Hinv Hthis Hst Hs Ha s t. rewrite Hst.
  destruct (decide (store = s)) as [->|Hne].
  - rewrite list_lookup_insert_eq by (by eapply lookup_lt_Some).
    by intros [= <-].
  - rewrite list_lookup_insert_ne by done. apply Hinv.
Qed.

Lemma app_not_nil {A} (l : list A) x : l ++ [x] ≠ [].
Proof. by destruct l. Qed.

(** The trace of the returned world is that of [w] with no event, or one
    event, added. *)
Ltac trace_grows := first [exists []; by rewrite app_nil_r | by eexists [_]].

(** The registry invariant of a world that differs from [w] in the store
    [this]: what is left to show is that neither registry of the new
    store has an empty list. *)
Ltac registry_kept Hthis :=
  match goal with
  | Hreg : registryInv _ |- registryInv _ =>
      let Hs := fresh "Hs" in
      let Ha := fresh "Ha" in
      destruct (Hreg _ _ Hthis) as [Hs Ha];
      eapply registryInv_putStore;
      [exact Hreg | exact Hthis | reflexivity | simpl | simpl]
  end.

Lemma subscribe_prepared store callback rawKey w r :
  subscribe store callback rawKey w = Ok r →
  (worldInv w → worldInv r.2)
  ∧ _isTriggering r.2 = _isTriggering w
  ∧ ∃ evs, trace r.2 = trace w ++ evs ∧ filter resolverEvent evs = [].
Proof.
  unfold subscribe, getStore, bind.
  destruct (stores w !! store) as [this|] eqn:Hthis; [|done].
  destruct (decide (_ = "")) as [|Hkey]; [done |].
  set (key := keyToString (default (KStr Key_All) rawKey)) in *.
  unfold getProperty at 1.
  destruct (assoc_get key (_subscriptions this)) as [callbacks|] eqn:Hcbs;
    [| destruct (bool_decide (key ∈ prototypeNames)); [done |]].
  - intros [= <-]. simpl. split_and!; [| done | trace_grows].
    intros (Hreg & Hpend & Hcount).
    split_and!; [registry_kept Hthis | done | done]; [|done].
    apply noEmptyLists_set; [done | apply app_not_nil].
  - destruct (bool_decide (key ≠ Key_All) && _) eqn:Hhook;
      intros [= <-]; simpl;
      (split_and!; [| done | trace_grows]);
      intros (Hreg & Hpend & Hcount);
      (split_and!; [registry_kept Hthis | done | done]); [| done | | done];
      by apply noEmptyLists_set.
Qed.

Lemma unsubscribe_prepared store subToken w w' :
  unsubscribe store subToken w = Ok w' →
  (worldInv w → worldInv w')
  ∧ _isTriggering w' = _isTriggering w
  ∧ ∃ evs, trace w' = trace w ++ evs ∧ filter resolverEvent evs = [].
Proof.
  unfold unsubscribe, getStore, bind.
  destruct (stores w !! store) as [this|] eqn:Hthis; [|done].
  destruct (_subsByNum this !! subToken) as [[key callback]|]; [|done].
  simpl. unfold getProperty at 1.
  destruct (assoc_get key (_subscriptions this)) as [callbacks|];
    [| by destruct (bool_decide (key ∈ prototypeNames))].
  destruct (negb _); [|done].
  set (callbacks' := splice1 (indexOf callbacks callback) callbacks).
  destruct (Nat.eqb_spec (length callbacks') 0) as [Hlen|Hlen].
  - destruct (bool_decide (key ≠ Key_All) && _); intros [= <-]; simpl;
      (split_and!; [| done | trace_grows]);
      intros (Hreg & Hpend & Hcount);
      (split_and!;
         [registry_kept Hthis | by apply assoc_delete_NoDup | done]);
      [| done | | done]; by apply noEmptyLists_delete_set.
  - intros [= <-]; simpl. split_and!; [| done | trace_grows].
    intros (Hreg & Hpend & Hcount).
    split_and!; [registry_kept Hthis | by apply assoc_delete_NoDup | done];
      [|done].
    apply noEmptyLists_set; [done |]. by destruct callbacks'.
Qed.

Lemma trackAutoSubscription_prepared store subscription w w' :
  trackAutoSubscription store subscription w = Ok w' →
  (worldInv w → worldInv w')
  ∧ _isTriggering w' = _isTriggering w
  ∧ ∃ evs, trace w' = trace w ++ evs ∧ filter resolverEvent evs = [].
Proof.
  unfold trackAutoSubscription, getStore, bind.
  destruct (stores w !! store) as [this|] eqn:Hthis; [|done].
  unfold getProperty at 1.
  destruct (assoc_get _ (_autoSubscriptions this)) as [callbacks|];
    [| destruct (bool_decide (_ ∈ prototypeNames)); [done |]].
  - intros [= <-]. simpl. split_and!; [| done | trace_grows].
    intros (Hreg & Hpend & Hcount).
    split_and!; [registry_kept Hthis | done | done]; [done |].
    apply noEmptyLists_set; [done | apply app_not_nil].
  - destruct (bool_decide _ && _); intros [= <-]; simpl;
      (split_and!; [| done | trace_grows]);
      intros (Hreg & Hpend & Hcount);
      (split_and!; [registry_kept Hthis | done | done]); [done | | done |];
      by apply noEmptyLists_set.
Qed.

Lemma removeAutoSubscription_prepared store subscription w w' :
  removeAutoSubscription store subscription w = Ok w' →
  (worldInv w → worldInv w')
  ∧ _isTriggering w' = _isTriggering w
  ∧ ∃ evs, trace w' = trace w ++ evs ∧ filter resolverEvent evs = [].
Proof.
  unfold removeAutoSubscription, getStore, bind.
  destruct (stores w !! store) as [this|] eqn:Hthis; [|done].
  unfold getProperty at 1.
  destruct (assoc_get _ (_autoSubscriptions this)) as [subs|];
    [| by destruct (bool_decide (_ ∈ prototypeNames))].
  simpl. destruct (_ =? _)%Z; [|done].
  set (subs' := pull sameObject subs subscription).
  destruct (Nat.eqb_spec (length subs') 0) as [Hlen|Hlen].
  - destruct (bool_decide _ && _); intros [= <-]; simpl;
      (split_and!; [| done | trace_grows]);
      intros (Hreg & Hpend & Hcount);
      (split_and!;
         [registry_kept Hthis | by apply assoc_delete_NoDup | done]);
      [done | | done |]; by apply noEmptyLists_delete_set.
  - intros [= <-]; simpl. split_and!; [| done | trace_grows].
    intros (Hreg & Hpend & Hcount).
    split_and!; [registry_kept Hthis | by apply assoc_delete_NoDup | done];
      [done |].
    apply noEmptyLists_set; [done |]. by destruct subs'.
Qed.

Lemma triggerThrottle_frame store this w :
  let r := triggerThrottle store this w in
  _subscriptions r.1.1 = _subscriptions this
  ∧ _autoSubscriptions r.1.1 = _autoSubscriptions this
  ∧ _bypassTriggerBlocks r.1.1 = _bypassTriggerBlocks this
  ∧ stores r.1.2 = stores w
  ∧ _pendingCallbacks r.1.2 = _pendingCallbacks w
  ∧ _triggerBlockCount r.1.2 = _triggerBlockCount w
  ∧ _isTriggering r.1.2 = _isTriggering w
  ∧ ∃ evs, trace r.1.2 = trace w ++ evs ∧ filter resolverEvent evs = [].
Proof.
  unfold triggerThrottle.
  destruct (match _throttleMs this with Some ms => Some ms | None => _ end)
    as [ms|]; simpl.
  - destruct (negb (ms =? 0)%Z); simpl.
    + destruct (_throttleData this) as [[timerId callbackTime]|]; simpl.
      * split_and!; try done. trace_grows.
      * split_and!; try done. trace_grows.
    + split_and!; try done. trace_grows.
  - split_and!; try done. trace_grows.
Qed.

Lemma prepare_spec op w p :
  prepare op w = Ok p →
  (worldInv w → worldInv p.1)
  ∧ _isTriggering p.1 = _isTriggering w
  ∧ ∃ evs, trace p.1 = trace w ++ evs ∧ filter resolverEvent evs = [].
Proof.
  destruct op; simpl.
  - intros [= <-]. simpl. split_and!; [| done | trace_grows].
    intros (Hreg & Hpend & Hcount). split_and!; [| done | done].
    intros s t. simpl. intros Hst.
    apply lookup_app_Some in Hst as [Hst|[_ Hst]]; [by eapply Hreg |].
    apply list_lookup_singleton_Some in Hst as [_ <-]. by split.
  - destruct (subscribe store callback rawKey w) as [r| |] eqn:Hs; [|done..].
    intros [= <-]. by apply subscribe_prepared in Hs.
  - destruct (unsubscribe store subToken w) as [r| |] eqn:Hs; [|done..].
    intros [= <-]. by apply unsubscribe_prepared in Hs.
  - destruct (trackAutoSubscription store subscription w) as [r| |] eqn:Hs;
      [|done..].
    intros [= <-]. by apply trackAutoSubscription_prepared in Hs.
  - destruct (removeAutoSubscription store subscription w) as [r| |] eqn:Hs;
      [|done..].
    intros [= <-]. by apply removeAutoSubscription_prepared in Hs.
  - unfold getStore.
    destruct (stores w !! store) as [this|] eqn:Hthis; [|done]. simpl.
    destruct (triggerThrottle_frame store this w)
      as (Hs & Ha & _ & Hst & Hp & Hc & Ht & evs & Htr & Hq).
    intros [= <-]. simpl. split_and!; [| done | by exists evs].
    intros (Hreg & Hpend & Hcount). split_and!.
    + destruct (Hreg _ _ Hthis) as [Hs' Ha'].
      eapply registryInv_putStore; [done | done | simpl; by rewrite Hst | |];
        by rewrite ?Hs, ?Ha.
    + apply triggerRegister_keys. simpl. by rewrite Hp.
    + simpl. by rewrite Hc.
  - intros [= <-]. unfold pushTriggerBlock, this_triggerBlockCount.
    destruct receiver; simpl; (split_and!; [| done | trace_grows]);
      intros (Hreg & Hpend & Hcount); (split_and!; [done | done |]); simpl;
      lia.
  - destruct (Z.leb_spec 0 (this_triggerBlockCount receiver w - 1)); [|done].
    intros [= <-]. unfold this_triggerBlockCount in *.
    destruct receiver; simpl in *; (split_and!; [| done | trace_grows]);
      intros (Hreg & Hpend & Hcount); by split_and!.
  - intros [= <-].
    destruct receiver; simpl; (split_and!; [| done | trace_grows]);
      intros (Hreg & Hpend & Hcount); by split_and!.
  - unfold getStore.
    destruct (stores w !! store) as [this|] eqn:Hthis; [|done]. simpl.
    intros [= <-]. simpl. split_and!; [| done | trace_grows].
    intros (Hreg & Hpend & Hcount). split_and!; [| done | done].
    destruct (Hreg _ _ Hthis) as [Hs' Ha'].
    by eapply registryInv_putStore.
  - intros [= <-]. simpl. split_and!; [| done | trace_grows].
    intros (Hreg & Hpend & Hcount). by split_and!.
Qed.

Lemma prepare_follows op w p : prepare op w = Ok p → follows w p.1.
Proof.
  intros Hp. apply prepare_spec in Hp as (Hinv & Htr & evs & Hev & Hq).
  split; [done | done |]. exists evs. split_and!; [done | done |].
  intros _. exists 0. by rewrite filter_passMark_resolverEvent, Hq.
Qed.

Lemma step_follows resolve op w w' :
  resolverFollows resolve → step resolve op w = Ok w' → follows w w'.
Proof.
  intros Hres. rewrite step_prepare.
  destruct (prepare op w) as [[w1 r]| |] eqn:Hp; [|done..]. simpl.
  apply prepare_follows in Hp. simpl in Hp. destruct r.
  - intros Hr. eapply follows_trans; [done | by apply Hres].
  - by intros [= <-].
Qed.

Lemma run_follows resolve ops w w' :
  resolverFollows resolve → run resolve ops w = Ok w' → follows w w'.
Proof.
  intros Hres. revert w. induction ops as [|op ops IH]; intros w; simpl.
  - intros [= <-]. apply follows_refl.
  - destruct (step resolve op w) as [w1| |] eqn:Hs; [|done..]. simpl.
    intros Hr. eapply follows_trans; [by eapply step_follows | by apply IH].
Qed.

(** ** One pass, and the resolver *)

Lemma filter_keys_NoDup {V} (P : nat * V → Prop) `{∀ x, Decision (P x)}
    (m : list (nat * V)) :
  NoDup (map fst m) → NoDup (map fst (filter P m)).
Proof.
  intros Hnd. eapply sublist_NoDup; [exact Hnd |].
  apply fmap_sublist, sublist_filter.
Qed.

Lemma invokeCallbacks_spec behaviour resolve callbacks w w' :
  resolverFollows resolve →
  _isTriggering w = true →
  invokeCallbacks behaviour resolve callbacks w = Ok w' →
  (worldInv w → worldInv w')
  ∧ _isTriggering w' = true
  ∧ ∃ evs, trace w' = trace w ++ evs
      ∧ filter resolverEvent evs = map invocation callbacks.
Proof.
  intros Hres. revert w.
  induction callbacks as [|[callback keys] callbacks IH]; intros w Htr; simpl.
  - intros [= <-]. split_and!; [done | done |]. exists []. by rewrite app_nil_r.
  - set (w1 := emit (CallbackInvoked callback keys) w).
    destruct (run resolve (behaviour callback keys w1) w1) as [w2| |] eqn:Hrun;
      [|done..]. simpl.
    intros Hinv. apply run_follows in Hrun as [Hi Ht (e1 & He1 & Hq1 & _)];
      [|done].
    assert (_isTriggering w1 = true) as Htr1 by exact Htr.
    destruct (IH w2) as (Hi2 & Ht2 & e2 & He2 & Hq2); [congruence | done |].
    split_and!; [| done |].
    + intros Hw. apply Hi2, Hi. exact Hw.
    + exists (CallbackInvoked callback keys :: e1 ++ e2).
      rewrite He2, He1. subst w1. simpl. rewrite <- !app_assoc. simpl.
      split; [done |]. rewrite filter_cons. simpl.
      rewrite filter_app, Hq1, Hq2; by auto.
Qed.

Lemma resolverPass_spec behaviour resolve w w' :
  resolverFollows resolve →
  resolverPass behaviour resolve w = Ok w' →
  (worldInv w → worldInv w')
  ∧ _isTriggering w' = false
  ∧ ∃ evs, trace w' = trace w ++ evs
      ∧ filter resolverEvent evs
        = BeginInvokeStoreCallbacks
            :: map invocation (capturedBy w).1 ++ [EndInvokeStoreCallbacks 0].
Proof.
  intros Hres. unfold resolverPass, capturedBy. simpl.
  destruct (captureCallbacks _ _ _ _) as [callbacks pending] eqn:Hcap.
  match goal with
  | |- context [invokeCallbacks _ _ _ ?v] => set (w1 := v)
  end.
  destruct (invokeCallbacks behaviour resolve callbacks w1) as [w2| |] eqn:Hinv;
    [|done..]. simpl.
  intros [= <-]. simpl.
  apply invokeCallbacks_spec in Hinv as (Hi & Ht & evs & Hev & Hq);
    [| done | done].
  split_and!; [| done |].
  - intros (Hreg & Hpend & Hcount).
    destruct Hi as (Hreg' & Hpend' & Hcount'); [|done].
    split_and!; [done | | done]. subst w1. unfold pendingInv. simpl.
    unfold pendingInv in Hpend.
    rewrite captureCallbacks_spec in Hcap by done.
    injection Hcap as _ <-. by apply filter_keys_NoDup.
  - exists (BeginInvokeStoreCallbacks :: evs ++ [EndInvokeStoreCallbacks 0]).
    rewrite Hev. subst w1. simpl. rewrite <- !app_assoc. simpl.
    split; [done |]. rewrite filter_cons. simpl.
    rewrite filter_app, Hq. done.
Qed.

Lemma _resolveCallbacks_follows behaviour fuel :
  resolverFollows (_resolveCallbacks behaviour fuel).
Proof.
  induction fuel as [|fuel IH]; intros w w'; simpl.
  - destruct (_isTriggering w) eqn:Htr; [|done].
    intros [= <-]. split; [by intros (? & ? & ?) | done |].
    exists []. rewrite app_nil_r. simpl. split_and!; [done | done | congruence].
  - destruct (_isTriggering w) eqn:Htr.
    { intros [= <-]. split; [by intros (? & ? & ?) | done |].
      exists []. rewrite app_nil_r. simpl.
      split_and!; [done | done | congruence]. }
    destruct (resolverPass behaviour _ w) as [w1| |] eqn:Hpass; [|done..].
    simpl. apply resolverPass_spec in Hpass as (Hi & Ht & evs & Hev & Hq);
      [|done].
    assert (follows w w1) as Hfirst.
    { split; [done | congruence |]. exists evs. split_and!; [done | congruence |].
      intros _. exists 1.
      rewrite filter_passMark_resolverEvent, Hq.
      rewrite filter_cons. simpl. rewrite filter_app.
      by rewrite filter_passMark_invocations. }
    destruct (_triggerPending w1).
    + intros Hnext. eapply follows_trans; [exact Hfirst | by apply IH].
    + by intros [= <-].
Qed.

Lemma exec_follows behaviour fuel ops w w' :
  exec behaviour fuel ops w = Ok w' → follows w w'.
Proof. apply run_follows, _resolveCallbacks_follows. Qed.

(** ** The resolver pass delivers what passes both gates *)

Lemma invocations_of_deliveries (l : CallbackMap) callback :
  NoDup (map fst l) →
  length (filter (invocationOf callback) (map invocation (map delivery l)))
  = if decide (callback ∈ map fst l) then 1 else 0.
Proof.
  induction l as [|[c meta] l IH]; [done |].
  simpl. intros Hnd. apply NoDup_cons in Hnd as [Hc Hnd].
  rewrite filter_cons. simpl.
  destruct (decide (c = callback)) as [->|Hne].
  - rewrite bool_decide_eq_true_2 by done. simpl. rewrite IH by done.
    rewrite decide_False by done. rewrite decide_True; [done | left].
  - rewrite bool_decide_eq_false_2 by done. simpl. rewrite IH by done.
    destruct (decide (callback ∈ map fst l)) as [Hin|Hin].
    + rewrite decide_True; [done | by right].
    + rewrite decide_False; [done |].
      intros Hc'. apply elem_of_cons in Hc' as [->|Hc']; done.
Qed.

Lemma filter_isInvocation_pass
    (l : list (SubscriptionCallbackFunction * option (list string))) :
  filter isInvocation
    (BeginInvokeStoreCallbacks :: map invocation l ++ [EndInvokeStoreCallbacks 0])
  = map invocation l.
Proof.
  rewrite filter_cons. simpl. rewrite filter_app.
  rewrite filter_cons. simpl. rewrite filter_nil, app_nil_r.
  induction l as [|c l IH]; [done |].
  simpl. rewrite filter_cons. simpl. by rewrite IH.
Qed.

Lemma filter_invocationOf_pass callback
    (l : list (SubscriptionCallbackFunction * option (list string))) :
  filter (invocationOf callback)
    (BeginInvokeStoreCallbacks :: map invocation l ++ [EndInvokeStoreCallbacks 0])
  = filter (invocationOf callback) (map invocation l).
Proof.
  rewrite filter_cons. simpl. rewrite filter_app.
  rewrite filter_cons. simpl. by rewrite filter_nil, app_nil_r.
Qed.

Lemma capturedBy_gates w :
  NoDup (map fst (_pendingCallbacks w)) →
  (0 ≤ dateNow w)%Z →
  capturedBy w
  = (map delivery
       (filter (λ e, passesGates (_triggerBlockCount w) (_bypassThrottle w)
                       (dateNow w) e) (_pendingCallbacks w)),
     filter (λ e, ¬ passesGates (_triggerBlockCount w) (_bypassThrottle w)
                      (dateNow w) e) (_pendingCallbacks w)).
Proof.
  intros Hnd Hnow. unfold capturedBy. rewrite captureCallbacks_spec by done.
  f_equal; [f_equal |]; apply list_filter_iff; intros e;
    by rewrite capturedNow_passesGates.
Qed.

Lemma uniquedKeys_spec meta :
  match meta_keys meta with
  | None => uniquedKeys meta = None
  | Some keys =>
      ∃ ks, uniquedKeys meta = Some ks ∧ NoDup ks ∧ ∀ k, k ∈ ks ↔ k ∈ keys
  end.
Proof.
  unfold uniquedKeys. destruct (meta_keys meta) as [keys|]; [|done].
  exists (uniq keys). split_and!; [done | apply uniq_NoDup |].
  intros k. apply uniq_elem_of.
Qed.

Lemma invokeCallbacks_silent behaviour resolve callbacks w w' :
  (∀ c keys v, behaviour c keys v = []) →
  invokeCallbacks behaviour resolve callbacks w = Ok w' →
  _pendingCallbacks w' = _pendingCallbacks w.
Proof.
  intros Hsilent. revert w.
  induction callbacks as [|[c keys] callbacks IH]; intros w; simpl.
  - by intros [= <-].
  - rewrite Hsilent. simpl. intros Hinv. by rewrite (IH _ Hinv).
Qed.

Lemma resolverPass_silent behaviour resolve w w' :
  (∀ c keys v, behaviour c keys v = []) →
  resolverPass behaviour resolve w = Ok w' →
  _pendingCallbacks w' = (capturedBy w).2.
Proof.
  intros Hsilent. unfold resolverPass, capturedBy. simpl.
  destruct (captureCallbacks _ _ _ _) as [callbacks pending].
  match goal with
  | |- context [invokeCallbacks _ _ _ ?v] => set (w1 := v)
  end.
  destruct (invokeCallbacks behaviour resolve callbacks w1) as [w2| |] eqn:Hinv;
    [|done..]. simpl.
  intros [= <-]. simpl. by rewrite (invokeCallbacks_silent _ _ _ _ _ Hsilent Hinv).
Qed.

(** C1.  A resolver pass over any pending table (its keys distinct, as in
    any [Map]; the clock not before the epoch) that runs to its end
    captures exactly the entries that pass both gates and leaves the
    others in the table; the callbacks it invokes are those of the
    captured entries, in table order, each with its deduplicated key list
    or with no argument for the all-keys list; a captured callback is
    invoked exactly once and a skipped one not at all.  When the
    callbacks make no calls of their own, the table after the pass is the
    table of the skipped entries. *)
Theorem C1_pass_delivers_entries_passing_both_gates behaviour fuel w w' :
  NoDup (map fst (_pendingCallbacks w)) →
  (0 ≤ dateNow w)%Z →
  resolverPass behaviour (_resolveCallbacks behaviour fuel) w = Ok w' →
  capturedBy w
  = (map delivery
       (filter (λ e, passesGates (_triggerBlockCount w) (_bypassThrottle w)
                       (dateNow w) e) (_pendingCallbacks w)),
     filter (λ e, ¬ passesGates (_triggerBlockCount w) (_bypassThrottle w)
                      (dateNow w) e) (_pendingCallbacks w))
  ∧ filter isInvocation (events_since w w')
    = map (λ e, CallbackInvoked e.1 (uniquedKeys e.2))
        (filter (λ e, passesGates (_triggerBlockCount w) (_bypassThrottle w)
                        (dateNow w) e) (_pendingCallbacks w))
  ∧ (∀ entry, entry ∈ _pendingCallbacks w →
       length (filter (invocationOf entry.1) (events_since w w'))
       = if passesGates (_triggerBlockCount w) (_bypassThrottle w)
              (dateNow w) entry then 1 else 0)
  ∧ (∀ entry, entry ∈ _pendingCallbacks w →
       match meta_keys entry.2 with
       | None => uniquedKeys entry.2 = None
       | Some keys =>
           ∃ ks, uniquedKeys entry.2 = Some ks ∧ NoDup ks
                 ∧ ∀ k, k ∈ ks ↔ k ∈ keys
       end)
  ∧ ((∀ c keys v, behaviour c keys v = []) →
     _pendingCallbacks w'
     = filter (λ e, ¬ passesGates (_triggerBlockCount w) (_bypassThrottle w)
                      (dateNow w) e) (_pendingCallbacks w)).
Proof.
  intros Hnd Hnow Hpass.
  pose proof (capturedBy_gates w Hnd Hnow) as Hcap.
  assert ((∀ c keys v, behaviour c keys v = []) →
          _pendingCallbacks w' = (capturedBy w).2) as Hsilent
    by (intros Hs; by apply (resolverPass_silent _ _ _ _ Hs Hpass)).
  apply resolverPass_spec in Hpass as (_ & _ & evs & Hev & Hq);
    [|apply _resolveCallbacks_follows].
  rewrite (events_since_app _ _ _ Hev). rewrite Hcap in Hq, Hsilent.
  simpl in Hq, Hsilent.
  split_and!; [done | | | | done].
  - rewrite filter_isInvocation_resolverEvent, Hq, filter_isInvocation_pass.
    by rewrite <- list_fmap_compose.
  - intros entry Hin.
    rewrite filter_invocationOf_resolverEvent, Hq, filter_invocationOf_pass.
    rewrite invocations_of_deliveries by (by apply filter_keys_NoDup).
    destruct (passesGates _ _ _ entry) eqn:Hgate.
    + rewrite decide_True; [done |].
      apply list_elem_of_fmap. exists entry. split; [done |].
      apply list_elem_of_filter. by rewrite Hgate.
    + rewrite decide_False; [done |].
      intros Hc. apply list_elem_of_fmap in Hc as (e' & Hfst & He').
      apply list_elem_of_filter in He' as [Hg' Hin'].
      assert (e' = entry) as ->; [|by rewrite Hgate in Hg'].
      destruct e' as [c m'], entry as [c' m]. simpl in Hfst. subst c'.
      apply (assoc_get_elem_NoDup _ _ _ Hnd) in Hin, Hin'. congruence.
  - intros entry _. apply uniquedKeys_spec.
Qed.

(** In [blockedWorld] the pass invokes callback 1 with ["a"; "b"] and
    callback 4 with no argument; callbacks 2 and 3 stay in the table. *)
Lemma C1_witness :
  capturedBy blockedWorld
  = ([(1, Some ["a"; "b"]); (4, None)],
     [(2, {| meta_keys := Some ["a"];
             meta_throttledUntil := None; meta_bypassBlock := false |});
      (3, {| meta_keys := Some ["c"];
             meta_throttledUntil := Some 2000%Z; meta_bypassBlock := true |})])
  ∧ filter isInvocation
      (events_since blockedWorld
         (worldOf (resolverPass quiet (_resolveCallbacks quiet 0) blockedWorld)
            blockedWorld))
    = [CallbackInvoked 1 (Some ["a"; "b"]); CallbackInvoked 4 None].
Proof.
  destruct (C1_pass_delivers_entries_passing_both_gates quiet 0 blockedWorld
              (worldOf (resolverPass quiet (_resolveCallbacks quiet 0) blockedWorld)
                 blockedWorld)) as (H1 & H2 & _).
  - apply (bool_decide_unpack _). vm_compute. exact I.
  - vm_compute. discriminate.
  - vm_compute. reflexivity.
  - split; [exact H1 | exact H2].
Defined.

(** ** Merging into an existing entry *)

(** The specific-key merge: the earlier of two due-times, immediate as soon
    as either side is, and the bypass flags OR-ed; the key list grows
    unless it is the all-keys list. *)
Lemma _setupSpecificKeySubscription_merge keys callback throttledUntil
    bypassBlock (pending : CallbackMap) existing :
  assoc_get callback pending = Some existing →
  ∃ merged,
    assoc_get callback
      (_setupSpecificKeySubscription keys callback throttledUntil bypassBlock
         pending) = Some merged
    ∧ meta_keys merged
      = match meta_keys existing with
        | None => None
        | Some ks => Some (ks ++ keys)
        end
    ∧ meta_bypassBlock merged = meta_bypassBlock existing || bypassBlock
    ∧ (∀ t et, throttledUntil = Some t → meta_throttledUntil existing = Some et →
         t ≠ 0%Z → et ≠ 0%Z → meta_throttledUntil merged = Some (Z.min et t))
    ∧ (truthy throttledUntil = false ∨ immediate existing → immediate merged).
Proof.
  intros Hex. unfold _setupSpecificKeySubscription. rewrite Hex.
  unfold _updateExistingMeta, immediate.
  destruct existing as [ks et b]. simpl.
  destruct throttledUntil as [t|], et as [et|], bypassBlock, ks as [ks|];
    simpl;
    repeat match goal with
           | |- context [(?x =? 0)%Z] => destruct (Z.eqb_spec x 0); simpl
           end;
    rewrite assoc_get_set_eq; eexists; (split; [reflexivity |]); simpl;
    rewrite ?orb_true_r, ?orb_false_r;
    (split_and!; [done | done | intros; simplify_eq; done
                 | intros [?|?]; simplify_eq; simpl;
                   rewrite ?Z.eqb_refl; try done]).
Qed.

(** The all-keys merge: the key list becomes the all-keys list, the
    earlier of two due-times is kept, an immediate new trigger makes the
    entry immediate, and the bypass flags are OR-ed. *)
Lemma _setupAllKeySubscription_merge callback throttledUntil bypassBlock
    (pending : CallbackMap) existing :
  assoc_get callback pending = Some existing →
  ∃ merged,
    assoc_get callback
      (_setupAllKeySubscription callback throttledUntil bypassBlock pending)
    = Some merged
    ∧ meta_keys merged = None
    ∧ meta_bypassBlock merged = meta_bypassBlock existing || bypassBlock
    ∧ (∀ t et, throttledUntil = Some t → meta_throttledUntil existing = Some et →
         t ≠ 0%Z → et ≠ 0%Z → meta_throttledUntil merged = Some (Z.min t et))
    ∧ (truthy throttledUntil = false → immediate merged)
    ∧ (immediate existing → meta_throttledUntil merged = throttledUntil).
Proof.
  intros Hex. unfold _setupAllKeySubscription. rewrite Hex, assoc_get_set_eq.
  unfold immediate. destruct existing as [ks et b]. simpl.
  eexists; split; [reflexivity |].
  destruct throttledUntil as [t|], et as [et|], bypassBlock, b; simpl;
    repeat match goal with
           | |- context [(?x =? 0)%Z] => destruct (Z.eqb_spec x 0); simpl
           end;
    (split_and!; [done | done | intros; simplify_eq; done
                 | intros; simplify_eq; simpl; rewrite ?Z.eqb_refl; done
                 | intros; simplify_eq; done]).
Qed.

(** C2 (the code departs from the claim).  An immediate entry for
    callback 7 merged with an all-keys trigger that carries the due-time
    2000 comes out with that due-time instead of staying immediate.  The
    second part reaches the same table through the API: store 0 queues an
    immediate trigger for callback 7 while delivery is blocked, then the
    throttled store 1 triggers all keys at time 1000. *)
Theorem C2_all_keys_merge_loses_immediacy :
  let existing :=
    {| meta_keys := Some ["a"]; meta_throttledUntil := None;
       meta_bypassBlock := false |} in
  let merged :=
    {| meta_keys := None; meta_throttledUntil := Some 2000%Z;
       meta_bypassBlock := false |} in
  immediate existing
  ∧ _setupAllKeySubscription 7 (Some 2000%Z) false [(7, existing)]
    = [(7, merged)]
  ∧ ¬ immediate merged
  ∧ _pendingCallbacks
      (worldOf (exec quiet 1 sharedCallbackBlocked (initialWorld None 1000))
         (initialWorld None 1000))
    = [(7, existing)]
  ∧ _pendingCallbacks
      (worldOf (exec quiet 1 (sharedCallbackBlocked ++ [Trigger 1 Undefined])
                  (initialWorld None 1000))
         (initialWorld None 1000))
    = [(7, merged)].
Proof. vm_compute. split_and!; try reflexivity. discriminate. Qed.

(** ** The throttle timer *)

(** With a throttle override on the store and no timer running, the timer
    is started with the effective delay and the due-time is its fire time. *)
Lemma triggerThrottle_override store this w ms :
  _throttleMs this = Some ms → ms ≠ 0%Z → _throttleData this = None →
  let r := triggerThrottle store this w in
  events_since w r.1.2 = [SetTimeout store (Some ms) (nextTimerId w)]
  ∧ r.2 = Some (dateNow w + ms)%Z
  ∧ _throttleData r.1.1 = Some (nextTimerId w, (dateNow w + ms)%Z).
Proof.
  intros Hms Hnz Hnone. unfold triggerThrottle. rewrite Hms, Hnone. simpl.
  destruct (Z.eqb_spec ms 0) as [|_]; [done |]. simpl.
  split_and!; [| done | done].
  apply events_since_app. reflexivity.
Qed.

(** While a timer is running its recorded fire time is reused and no new
    timer is started. *)
Lemma triggerThrottle_running store this w ms timerId callbackTime :
  (match _throttleMs this with
   | Some t => Some t
   | None => defaultThrottleMs w
   end) = Some ms →
  ms ≠ 0%Z → _throttleData this = Some (timerId, callbackTime) →
  triggerThrottle store this w = (this, w, Some callbackTime).
Proof.
  intros Hms Hnz Hrun. unfold triggerThrottle. rewrite Hms, Hrun. simpl.
  by destruct (Z.eqb_spec ms 0).
Qed.

(** C3 (the code departs from the claim).  A store without an override,
    under a configured default throttle of 100 ms and with no timer
    running, is triggered at time 1000: the due-time recorded for the
    affected callback is 1100, the fire time of a timer of the effective
    delay, but the timer is started with the store's own [_throttleMs],
    which is [undefined], not with the effective delay of 100. *)
Theorem C3_default_throttle_timer_has_no_duration :
  let w := initialWorld (Some 100%Z) 1000 in
  let r := triggerThrottle 0 (new_StoreBase None None) w in
  r.2 = Some 1100%Z
  ∧ events_since w r.1.2 = [SetTimeout 0 None 1]
  ∧ trace (worldOf (exec quiet 1 defaultThrottled w) w)
    = [StartedTrackingKey 0 "a"; SetTimeout 0 None 1]
  ∧ _pendingCallbacks (worldOf (exec quiet 1 defaultThrottled w) w)
    = [(1, {| meta_keys := Some ["a"]; meta_throttledUntil := Some 1100%Z;
              meta_bypassBlock := false |})].
Proof. vm_compute. by split_and!. Qed.

(** ** Which branch a trigger takes *)

(** C4 (counterexample).  The empty string is an explicitly supplied key
    value, yet the test sends it down the all-keys branch: the subscriber
    of key "a" is invoked with no argument. *)
Lemma C4_counterexample :
  ¬ (∀ keyOrKeys, allKeysBranch keyOrKeys = true ↔ keyOrKeys = Undefined)
  ∧ trace (worldOf (exec quiet 1 emptyStringTrigger (initialWorld None 1000))
             (initialWorld None 1000))
    = [StartedTrackingKey 0 "a"; BeginInvokeStoreCallbacks;
       CallbackInvoked 1 None; EndInvokeStoreCallbacks 0].
Proof.
  split; [|vm_compute; reflexivity].
  intros H. by destruct (H (Single (KStr ""))) as [H1 _]; specialize (H1 eq_refl).
Qed.

(** C4 (amended).  The all-keys branch is taken exactly when the argument
    is falsy and not a number, that is when no argument was supplied or
    the argument is the empty string; every number (0 included), every
    non-empty string and every array (the empty one included) is
    registered as a specific-keys trigger on its normalized key list. *)
Theorem C4_all_keys_branch_iff_absent_or_empty_string
    this keyOrKeys throttledUntil bypassBlock (pending : CallbackMap) :
  (allKeysBranch keyOrKeys = true
   ↔ keyOrKeys = Undefined ∨ keyOrKeys = Single (KStr ""))
  ∧ triggerRegister this keyOrKeys throttledUntil bypassBlock pending
    = (if decide (keyOrKeys = Undefined ∨ keyOrKeys = Single (KStr ""))
       then triggerAllKeys this throttledUntil bypassBlock pending
       else triggerSpecificKeys this (normalizedKeys keyOrKeys)
              throttledUntil bypassBlock pending)
  ∧ allKeysBranch (Single (KNum (safe 0 I))) = false
  ∧ normalizedKeys (Single (KNum (safe 0 I))) = ["0"].
Proof.
  assert (allKeysBranch keyOrKeys = true
          ↔ keyOrKeys = Undefined ∨ keyOrKeys = Single (KStr "")) as Hiff.
  { destruct keyOrKeys as [|[s|n]|ks]; unfold allKeysBranch; simpl.
    - split; [by left | done].
    - destruct (decide (s = "")) as [->|Hs].
      + split; [by right | done].
      + rewrite bool_decide_eq_false_2 by done. simpl.
        split; [done | intros [?|[= ?]]; done].
    - rewrite andb_false_r. split; [done | intros [?|?]; done].
    - split; [done | intros [?|?]; done]. }
  split_and!; [done | | done | done].
  unfold triggerRegister.
  destruct (decide (keyOrKeys = Undefined ∨ keyOrKeys = Single (KStr "")))
    as [Hd|Hd].
  - apply Hiff in Hd. by rewrite Hd.
  - destruct (allKeysBranch keyOrKeys) eqn:Hb; [|done].
    exfalso. apply Hd, Hiff. done.
Qed.

(** ** The all-keys list is sticky *)

Lemma _setupSpecificKeySubscription_sticky keys c throttledUntil bypassBlock
    callback (pending : CallbackMap) :
  allKeysEntry callback pending →
  allKeysEntry callback
    (_setupSpecificKeySubscription keys c throttledUntil bypassBlock pending).
Proof.
  intros (meta & Hget & Hkeys). destruct (decide (c = callback)) as [->|Hne].
  - destruct (_setupSpecificKeySubscription_merge keys callback throttledUntil
                bypassBlock pending meta Hget) as (merged & Hm & Hk & _).
    exists merged. split; [done |]. by rewrite Hk, Hkeys.
  - exists meta. split; [|done]. unfold _setupSpecificKeySubscription.
    destruct (_updateExistingMeta _ _ _) as [m|];
      [destruct (meta_keys m) |]; by rewrite assoc_get_set_ne.
Qed.

Lemma _setupAllKeySubscription_sticky c throttledUntil bypassBlock
    callback (pending : CallbackMap) :
  allKeysEntry callback pending →
  allKeysEntry callback
    (_setupAllKeySubscription c throttledUntil bypassBlock pending).
Proof.
  intros (meta & Hget & Hkeys). destruct (decide (c = callback)) as [->|Hne].
  - destruct (_setupAllKeySubscription_merge callback throttledUntil
                bypassBlock pending meta Hget) as (merged & Hm & Hk & _).
    by exists merged.
  - exists meta. split; [|done]. unfold _setupAllKeySubscription.
    by rewrite assoc_get_set_ne.
Qed.

Lemma triggerRegister_sticky this keyOrKeys throttledUntil bypassBlock
    callback (pending : CallbackMap) :
  allKeysEntry callback pending →
  allKeysEntry callback
    (triggerRegister this keyOrKeys throttledUntil bypassBlock pending).
Proof.
  intros Hall. unfold triggerRegister, triggerAllKeys, triggerSpecificKeys.
  destruct (allKeysBranch keyOrKeys).
  - repeat (apply (forEach_preserves (allKeysEntry callback));
            [intros; by apply _setupAllKeySubscription_sticky |]).
    done.
  - do 2 (apply (forEach_preserves (allKeysEntry callback));
          [intros; by apply _setupSpecificKeySubscription_sticky |]).
    apply (forEach_preserves (allKeysEntry callback)); [|done].
    intros key p Hp.
    do 2 (apply (forEach_preserves (allKeysEntry callback));
          [intros; by apply _setupSpecificKeySubscription_sticky |]).
    done.
Qed.

Lemma captured_allKeysEntry bc bt now callback keys (pending : CallbackMap) :
  NoDup (map fst pending) →
  allKeysEntry callback pending →
  (callback, keys) ∈ (captureCallbacks bc bt now pending).1 →
  keys = None.
Proof.
  intros Hnd (meta & Hget & Hkeys). rewrite captureCallbacks_spec by done.
  simpl. intros Hin. apply list_elem_of_fmap in Hin as ([c m] & [= -> ->] & Hin).
  apply list_elem_of_filter in Hin as [_ Hin].
  apply (assoc_get_elem_NoDup _ _ _ Hnd) in Hin. simpl in *.
  assert (m = meta) as -> by congruence.
  unfold uniquedKeys. by rewrite Hkeys.
Qed.

(** ** The trigger-block stack *)

Lemma capturedBy_unblocked w :
  NoDup (map fst (_pendingCallbacks w)) →
  (0 ≤ dateNow w)%Z →
  _triggerBlockCount w = 0%Z →
  (capturedBy w).1
  = map delivery
      (filter (λ e, ¬ heldByThrottle (_bypassThrottle w) (dateNow w) e.2)
         (_pendingCallbacks w)).
Proof.
  intros Hnd Hnow Hzero. rewrite capturedBy_gates by done. simpl.
  f_equal. apply list_filter_iff. intros e.
  unfold passesGates, heldByBlock. rewrite Hzero. simpl.
  destruct (heldByThrottle _ _ _); simpl; tauto.
Qed.

(** ** Unsubscribing and the pending table *)

Lemma unsubscribe_pending store subToken w w' this key callback :
  stores w !! store = Some this →
  _subsByNum this !! subToken = Some (key, callback) →
  unsubscribe store subToken w = Ok w' →
  _pendingCallbacks w' = assoc_delete callback (_pendingCallbacks w).
Proof.
  intros Hthis Htok. unfold unsubscribe, getStore, bind. rewrite Hthis, Htok.
  simpl. destruct (getProperty (_subscriptions this) key); [|done..].
  destruct (negb _); [|done].
  destruct (_ =? _)%nat; [destruct (_ && _) |]; by intros [= <-].
Qed.

Lemma removeAutoSubscription_pending store subscription w w' :
  removeAutoSubscription store subscription w = Ok w' →
  _pendingCallbacks w'
  = assoc_delete (sub_callback subscription) (_pendingCallbacks w).
Proof.
  unfold removeAutoSubscription, getStore, bind.
  destruct (stores w !! store) as [this|]; [|done].
  destruct (getProperty (_autoSubscriptions this) _); [|done..].
  simpl. destruct (_ =? _)%Z; [|done].
  destruct (_ =? _)%nat; [destruct (_ && _) |]; by intros [= <-].
Qed.

Lemma capture_fold_keys bc bt now (rest : CallbackMap) acc c :
  c ∈ map fst (fold_left (captureCallback bc bt now) rest acc).1 →
  c ∈ map fst acc.1 ∨ c ∈ map fst rest.
Proof.
  revert acc. induction rest as [|e rest IH]; intros acc; simpl.
  - by left.
  - intros Hin. apply IH in Hin as [Hin|Hin]; [|right; by right].
    rewrite captureCallback_unfold in Hin.
    destruct (capturedNow bc bt now e); [|by left]. simpl in Hin.
    rewrite fmap_app in Hin. apply elem_of_app in Hin as [Hin|Hin]; [by left |].
    apply list_elem_of_singleton in Hin as ->. right. left.
Qed.

Lemma capturedBy_keys w c :
  c ∈ map fst (capturedBy w).1 → c ∈ map fst (_pendingCallbacks w).
Proof.
  intros Hin. apply capture_fold_keys in Hin as [Hin|Hin]; [|done].
  by apply elem_of_nil in Hin.
Qed.

Lemma filter_invocationOf_absent callback
    (l : list (SubscriptionCallbackFunction * option (list string))) :
  callback ∉ map fst l → filter (invocationOf callback) (map invocation l) = [].
Proof.
  induction l as [|[c k] l IH]; [done |].
  simpl. intros Hnot. apply not_elem_of_cons in Hnot as [Hne Hnot].
  rewrite filter_cons. simpl.
  rewrite (bool_decide_eq_false_2 (c = callback)) by done.
  rewrite decide_False by (intros []). by apply IH.
Qed.

Lemma pass_without_entry behaviour fuel callback w w' :
  assoc_get callback (_pendingCallbacks w) = None →
  resolverPass behaviour (_resolveCallbacks behaviour fuel) w = Ok w' →
  filter (invocationOf callback) (events_since w w') = [].
Proof.
  intros Hnone Hpass.
  apply resolverPass_spec in Hpass as (_ & _ & evs & Hev & Hq);
    [|apply _resolveCallbacks_follows].
  rewrite (events_since_app _ _ _ Hev).
  rewrite filter_invocationOf_resolverEvent, Hq, filter_invocationOf_pass.
  apply assoc_get_None in Hnone.
  assert (callback ∉ map fst (capturedBy w).1) as Hnot.
  { intros Hc. by apply Hnone, capturedBy_keys. }
  by apply filter_invocationOf_absent.
Qed.

(** C7 (counterexample).  Callbacks 1 and 2 are both captured by the pass
    that the trigger starts.  Callback 1 runs first and unsubscribes
    callback 2, whose key "b" stops being tracked; callback 2 is invoked
    all the same, after its removal, for a trigger queued before it. *)
Lemma C7_counterexample :
  trace (worldOf (exec unsubscribesOther 1 bothTriggered (initialWorld None 1000))
           (initialWorld None 1000))
  = [StartedTrackingKey 0 "a"; StartedTrackingKey 0 "b";
     BeginInvokeStoreCallbacks;
     CallbackInvoked 1 (Some ["a"]);
     StoppedTrackingKey 0 "b";
     CallbackInvoked 2 (Some ["b"]);
     EndInvokeStoreCallbacks 0].
Proof. vm_compute. reflexivity. Qed.

(** C7 (amended).  Unsubscribing a callback, by token or by removing its
    auto-subscription record, leaves no pending entry for it in the shared
    table; and a resolver pass that starts while the table has no entry
    for a callback does not invoke that callback.  So a trigger queued
    before the unsubscribe causes no invocation in any pass that starts
    after it.  A pass that is running has captured its callbacks
    beforehand, and it invokes every one of them whatever the callbacks
    that run before do, unsubscribing included. *)
Theorem C7_unsubscribe_purges_pending_entry behaviour fuel :
  (∀ store subToken w w' this key callback,
     stores w !! store = Some this →
     _subsByNum this !! subToken = Some (key, callback) →
     unsubscribe store subToken w = Ok w' →
     assoc_get callback (_pendingCallbacks w') = None)
  ∧ (∀ store subscription w w',
       removeAutoSubscription store subscription w = Ok w' →
       assoc_get (sub_callback subscription) (_pendingCallbacks w') = None)
  ∧ (∀ callback w w',
       assoc_get callback (_pendingCallbacks w) = None →
       resolverPass behaviour (_resolveCallbacks behaviour fuel) w = Ok w' →
       filter (invocationOf callback) (events_since w w') = [])
  ∧ (∀ w w',
       resolverPass behaviour (_resolveCallbacks behaviour fuel) w = Ok w' →
       filter isInvocation (events_since w w')
       = map invocation (capturedBy w).1).
Proof.
  split_and!.
  - intros store subToken w w' this key callback Hthis Htok Hun.
    rewrite (unsubscribe_pending _ _ _ _ _ _ _ Hthis Htok Hun).
    apply assoc_get_delete_eq.
  - intros store subscription w w' Hrm.
    rewrite (removeAutoSubscription_pending _ _ _ _ Hrm).
    apply assoc_get_delete_eq.
  - intros callback w w'. apply pass_without_entry.
  - intros w w' Hpass.
    apply resolverPass_spec in Hpass as (_ & _ & evs & Hev & Hq);
      [|apply _resolveCallbacks_follows].
    rewrite (events_since_app _ _ _ Hev).
    by rewrite filter_isInvocation_resolverEvent, Hq, filter_isInvocation_pass.
Qed.

(** Callback 7 has a pending entry for "a" and "b" when its subscription
    to "a" is removed: the entry is gone, and the pass run with the block
    lifted does not invoke it. *)
Lemma C7_witness :
  assoc_get 7 (_pendingCallbacks afterUnsubscribe) = None
  ∧ filter (invocationOf 7)
      (events_since (set_triggerBlockCount 0%Z afterUnsubscribe)
         (worldOf
            (resolverPass quiet (_resolveCallbacks quiet 0)
               (set_triggerBlockCount 0%Z afterUnsubscribe))
            afterUnsubscribe))
    = [].
Proof.
  destruct (C7_unsubscribe_purges_pending_entry quiet 0) as (H1 & _ & H3 & _).
  split.
  - eapply (H1 0 1%Z twoKeysBlockedWorld afterUnsubscribe _ "a" 7);
      vm_compute; reflexivity.
  - apply H3; vm_compute; reflexivity.
Defined.

(** C10.  [unsubscribe] deletes the pending entry of the token's callback,
    whatever the entry holds and whatever other subscriptions of the same
    callback remain: afterwards the table has no entry for that callback,
    and the entries of all other callbacks are as before.  The purge goes
    by the callback, not by the subscription that is removed. *)
Theorem C10_unsubscribe_discards_shared_entry
    store subToken w w' this key callback :
  stores w !! store = Some this →
  _subsByNum this !! subToken = Some (key, callback) →
  unsubscribe store subToken w = Ok w' →
  _pendingCallbacks w' = assoc_delete callback (_pendingCallbacks w)
  ∧ assoc_get callback (_pendingCallbacks w') = None
  ∧ ∀ other, other ≠ callback →
      assoc_get other (_pendingCallbacks w')
      = assoc_get other (_pendingCallbacks w).
Proof.
  intros Hthis Htok Hun.
  rewrite (unsubscribe_pending _ _ _ _ _ _ _ Hthis Htok Hun).
  split_and!; [done | apply assoc_get_delete_eq |].
  intros other Hne. by apply assoc_get_delete_ne.
Qed.

(** Callback 7 is subscribed to "a" and to "b"; both were triggered while
    blocked, so its one entry holds both keys.  Removing the subscription
    to "a" deletes the whole entry although the subscription to "b" is
    still there, and lifting the block then delivers nothing. *)
Lemma C10_witness :
  assoc_get 7 (_pendingCallbacks twoKeysBlockedWorld)
  = Some {| meta_keys := Some ["a"; "b"]; meta_throttledUntil := None;
            meta_bypassBlock := false |}
  ∧ (_subscriptions <$> stores afterUnsubscribe !! 0) = Some [("b", [7])]
  ∧ _pendingCallbacks afterUnsubscribe
    = assoc_delete 7 (_pendingCallbacks twoKeysBlockedWorld)
  ∧ assoc_get 7 (_pendingCallbacks afterUnsubscribe) = None
  ∧ trace (worldOf
             (exec quiet 1 (twoKeysBlocked ++ [Unsubscribe 0 1; PopTriggerBlock []])
                (initialWorld None 1000))
             (initialWorld None 1000))
    = [StartedTrackingKey 0 "a"; StartedTrackingKey 0 "b";
       BeginInvokeStoreCallbacks; EndInvokeStoreCallbacks 0;
       BeginInvokeStoreCallbacks; EndInvokeStoreCallbacks 0;
       StoppedTrackingKey 0 "a";
       BeginInvokeStoreCallbacks; EndInvokeStoreCallbacks 0].
Proof.
  destruct (C10_unsubscribe_discards_shared_entry 0 1%Z twoKeysBlockedWorld
              afterUnsubscribe
              (default (new_StoreBase None None) (stores twoKeysBlockedWorld !! 0))
              "a" 7) as (H1 & H2 & _).
  - vm_compute. reflexivity.
  - vm_compute. reflexivity.
  - vm_compute. reflexivity.
  - split_and!; [vm_compute; reflexivity | vm_compute; reflexivity
                 | exact H1 | exact H2 | vm_compute; reflexivity].
Defined.

(** ** Reentrancy *)

Lemma prepare_triggerPending op w p :
  prepare op w = Ok p → _triggerPending p.1 = _triggerPending w.
Proof.
  destruct op; simpl;
    unfold subscribe, unsubscribe, trackAutoSubscription,
      removeAutoSubscription, getStore, bind, triggerThrottle,
      Options_setTimeout, pushTriggerBlock, set_this_triggerBlockCount,
      set_this_bypassThrottle;
    intros; repeat case_match; simplify_eq; done.
Qed.

Lemma nested_step behaviour fuel op w w' :
  _isTriggering w = true →
  step (_resolveCallbacks behaviour fuel) op w = Ok w' →
  ∃ p, prepare op w = Ok p
       ∧ w' = (if p.2 then set_triggerPending true p.1 else p.1)
       ∧ _triggerPending p.1 = _triggerPending w.
Proof.
  intros Htr. rewrite step_prepare.
  destruct (prepare op w) as [p| |] eqn:Hp; [|done..]. simpl.
  pose proof (prepare_spec _ _ _ Hp) as (_ & Ht & _).
  pose proof (prepare_triggerPending _ _ _ Hp) as Hpend.
  intros Hstep. exists p. split_and!; [done | | done].
  destruct p.2; [|congruence].
  assert (_resolveCallbacks behaviour fuel p.1
          = Ok (set_triggerPending true p.1)) as Hres
    by (destruct fuel; simpl; by rewrite Ht, Htr).
  congruence.
Qed.

(** ** Key tracking hooks *)

Lemma at_key_set {T} (d : Dictionary (list T)) key k l :
  at_key k (assoc_set key l d) = if decide (key = k) then l else at_key k d.
Proof.
  unfold at_key. destruct (decide (key = k)) as [->|Hne].
  - by rewrite assoc_get_set_eq.
  - by rewrite assoc_get_set_ne.
Qed.

Lemma at_key_delete_set {T} (d : Dictionary (list T)) key k l :
  at_key k (assoc_delete key (assoc_set key l d))
  = if decide (key = k) then [] else at_key k d.
Proof.
  unfold at_key. destruct (decide (key = k)) as [->|Hne].
  - by rewrite assoc_get_delete_eq.
  - by rewrite assoc_get_delete_ne, assoc_get_set_ne.
Qed.

Lemma at_key_absent {T} (d : Dictionary (list T)) k :
  noEmptyLists d → assoc_get k d = None ↔ length (at_key k d) = 0.
Proof.
  intros Hd. unfold at_key. destruct (assoc_get k d) as [l|] eqn:Hl; simpl.
  - split; [done |]. intros Hlen. apply Hd in Hl. by destruct l.
  - done.
Qed.

Lemma subscriberCount_putStore w w1 store this this' s k :
  stores w !! store = Some this →
  stores w1 = stores w →
  subscriberCount (putStore store this' w1) s k
  = if decide (s = store)
    then length (at_key k (_subscriptions this'))
         + length (at_key k (_autoSubscriptions this'))
    else subscriberCount w s k.
Proof.
  intros Hthis Hst. unfold subscriberCount, putStore. simpl. rewrite Hst.
  destruct (decide (s = store)) as [->|Hne].
  - by rewrite list_lookup_insert_eq by (by eapply lookup_lt_Some).
  - by rewrite list_lookup_insert_ne.
Qed.

Lemma indexOf_from_range {A} `{EqDecision A} (l : list A) x i :
  (0 ≤ i)%Z → indexOf_from i l x ≠ (-1)%Z →
  (i ≤ indexOf_from i l x < i + Z.of_nat (length l))%Z.
Proof.
  revert i. induction l as [|y l IH]; intros i Hi; simpl; [done |].
  destruct (decide (y = x)); [lia |].
  intros Hne. specialize (IH (i + 1)%Z). lia.
Qed.

Lemma length_splice1 {A} `{EqDecision A} (l : list A) x :
  indexOf l x ≠ (-1)%Z →
  length l = S (length (splice1 (indexOf l x) l)).
Proof.
  intros Hne. pose proof (indexOf_from_range l x 0 (Z.le_refl 0) Hne) as Hr.
  unfold splice1, indexOf in *.
  destruct (lookup_lt_is_Some_2 l (Z.to_nat (indexOf_from 0 l x))) as [y Hy];
    [lia |].
  rewrite length_delete by eauto.
  apply lookup_lt_Some in Hy. lia.
Qed.

(** What [subscribe] does to the subscriber counts and to the trace. *)
Lemma subscribe_effect store callback rawKey w r :
  registryInv w →
  subscribe store callback rawKey w = Ok r →
  let key := keyToString (default (KStr Key_All) rawKey) in
  (∀ s k, subscriberCount r.2 s k
          = subscriberCount w s k
            + (if decide (s = store ∧ k = key) then 1 else 0))
  ∧ trace r.2
    = trace w
      ++ (if bool_decide (key ≠ Key_All) && (subscriberCount w store key =? 0)
          then [StartedTrackingKey store key] else []).
Proof.
  intros Hreg. unfold subscribe, getStore, bind.
  destruct (stores w !! store) as [this|] eqn:Hthis; [|done].
  destruct (decide (_ = "")) as [|Hkey]; [done |].
  set (key := keyToString (default (KStr Key_All) rawKey)) in *.
  destruct (Hreg _ _ Hthis) as [Hs Ha].
  assert (subscriberCount w store key
          = length (at_key key (_subscriptions this))
            + length (at_key key (_autoSubscriptions this))) as Hcount
    by (unfold subscriberCount; by rewrite Hthis).
  destruct (getProperty (_subscriptions this) key) as [callbacks| |] eqn:Hcbs;
    [apply getProperty_Own in Hcbs | done
     | apply getProperty_Absent in Hcbs as [Hcbs Hplain];
       rewrite notDefined_plain by done].
  - intros [= <-]. simpl. split.
    + intros s k.
      rewrite (subscriberCount_putStore w w store this _ s k Hthis eq_refl).
      simpl. rewrite at_key_set.
      destruct (decide (s = store)) as [->|Hne].
      * unfold subscriberCount. rewrite Hthis.
        destruct (decide (key = k)) as [<-|Hk].
        -- rewrite decide_True by done. unfold at_key at 2. rewrite Hcbs.
           simpl. rewrite length_app. simpl. lia.
        -- rewrite decide_False by (intros [_ ?]; congruence). lia.
      * rewrite decide_False by (intros [? _]; done). lia.
    + assert (length (at_key key (_subscriptions this)) ≠ 0) as Hpos.
      { unfold at_key. rewrite Hcbs. simpl. apply Hs in Hcbs.
        by destruct callbacks. }
      rewrite Hcount.
      destruct (Nat.eqb_spec
                  (length (at_key key (_subscriptions this))
                   + length (at_key key (_autoSubscriptions this))) 0);
        [lia |].
      by rewrite andb_false_r, app_nil_r.
  - assert (length (at_key key (_subscriptions this)) = 0) as Hzero
      by (unfold at_key; by rewrite Hcbs).
    assert (bool_decide (assoc_get key (_autoSubscriptions this) = None)
            = (subscriberCount w store key =? 0)) as Hauto.
    { rewrite Hcount, Hzero. simpl.
      destruct (Nat.eqb_spec (length (at_key key (_autoSubscriptions this))) 0)
        as [Hl|Hl].
      - apply bool_decide_eq_true_2. by apply at_key_absent.
      - apply bool_decide_eq_false_2. intros Hc. by apply at_key_absent in Hc. }
    simpl. rewrite Hauto.
    assert (∀ w1, stores w1 = stores w →
              ∀ s k,
                subscriberCount
                  (putStore store
                     (set_subsByNum
                        (<[_subTokenNum this := (key, callback)]> (_subsByNum this))
                        (set_subTokenNum (_subTokenNum this + 1)%Z
                           (set_subscriptions
                              (assoc_set key [callback] (_subscriptions this))
                              this))) w1) s k
                = subscriberCount w s k
                  + (if decide (s = store ∧ k = key) then 1 else 0)) as Hcnt.
    { intros w1 Hw1 s k.
      rewrite (subscriberCount_putStore w w1 store this _ s k Hthis Hw1).
      simpl. rewrite at_key_set.
      destruct (decide (s = store)) as [->|Hne].
      * unfold subscriberCount. rewrite Hthis.
        destruct (decide (key = k)) as [<-|Hk].
        -- rewrite decide_True by done. rewrite Hzero. simpl. lia.
        -- rewrite decide_False by (intros [_ ?]; congruence). lia.
      * rewrite decide_False by (intros [? _]; done). lia. }
    destruct (bool_decide (key ≠ Key_All) && _); intros [= <-]; simpl.
    + split; [by apply Hcnt | done].
    + split; [by apply Hcnt | by rewrite app_nil_r].
Qed.

(** What [unsubscribe] does to the subscriber counts and to the trace. *)
Lemma unsubscribe_effect store subToken w w' :
  registryInv w →
  plainInv w →
  unsubscribe store subToken w = Ok w' →
  ∃ key,
    movedKey (Unsubscribe store subToken) w = Some (key, false)
    ∧ (∀ s k, subscriberCount w s k
            = subscriberCount w' s k
              + (if decide (s = store ∧ k = key) then 1 else 0))
    ∧ trace w'
      = trace w
        ++ (if bool_decide (key ≠ Key_All) && (subscriberCount w' store key =? 0)
            then [StoppedTrackingKey store key] else []).
Proof.
  intros Hreg Hplain. unfold unsubscribe, getStore, bind.
  destruct (stores w !! store) as [this|] eqn:Hthis; [|done].
  destruct (_subsByNum this !! subToken) as [[key callback]|] eqn:Htok;
    [|done].
  simpl.
  destruct (getProperty (_subscriptions this) key) as [callbacks| |] eqn:Hcbs;
    [apply getProperty_Own in Hcbs | done..].
  assert (key ∉ prototypeNames) as Hkey.
  { intros Hin. destruct (Hplain _ _ Hthis _ Hin) as [Hnone _]. congruence. }
  rewrite notDefined_plain by done.
  destruct (Z.eqb_spec (indexOf callbacks callback) (-1)) as [|Hidx]; [done |].
  simpl. pose proof (length_splice1 callbacks callback Hidx) as Hlen.
  set (callbacks' := splice1 (indexOf callbacks callback) callbacks) in *.
  destruct (Hreg _ _ Hthis) as [Hs Ha].
  intros Hun. exists key. split; [by rewrite Hthis, Htok |].
  assert (∀ s k, subscriberCount w s k
                 = (if decide (s = store)
                    then length (if decide (key = k) then callbacks'
                                 else at_key k (_subscriptions this))
                         + length (at_key k (_autoSubscriptions this))
                    else subscriberCount w s k)
                   + (if decide (s = store ∧ k = key) then 1 else 0)) as Hcnt.
  { intros s k. destruct (decide (s = store)) as [->|Hne].
    - unfold subscriberCount. rewrite Hthis.
      destruct (decide (key = k)) as [<-|Hk].
      + rewrite decide_True by done. unfold at_key at 1. rewrite Hcbs. simpl. lia.
      + rewrite decide_False by (intros [_ ?]; congruence). lia.
    - rewrite decide_False by (intros [? _]; done). lia. }
  destruct (Nat.eqb_spec (length callbacks') 0) as [Hzero|Hpos].
  - assert (bool_decide (assoc_get key (_autoSubscriptions this) = None)
            = (length (at_key key (_autoSubscriptions this)) =? 0)) as Hauto.
    { destruct (Nat.eqb_spec (length (at_key key (_autoSubscriptions this))) 0)
        as [Hl|Hl].
      - apply bool_decide_eq_true_2. by apply at_key_absent.
      - apply bool_decide_eq_false_2. intros Hc. by apply at_key_absent in Hc. }
    rewrite Hauto in Hun.
    assert (∀ w1, stores w1 = stores w →
              ∀ s k,
                subscriberCount
                  (putStore store
                     (set_subscriptions
                        (assoc_delete key
                           (assoc_set key callbacks' (_subscriptions this)))
                        (set_subscriptions
                           (assoc_set key callbacks' (_subscriptions this))
                           (set_subsByNum (delete subToken (_subsByNum this))
                              this))) w1) s k
                = (if decide (s = store)
                   then length (if decide (key = k) then callbacks'
                                else at_key k (_subscriptions this))
                        + length (at_key k (_autoSubscriptions this))
                   else subscriberCount w s k)) as Hafter.
    { intros w1 Hw1 s k.
      rewrite (subscriberCount_putStore w w1 store this _ s k Hthis Hw1).
      simpl. rewrite at_key_delete_set.
      destruct (decide (s = store)); [|done].
      destruct (decide (key = k)); [|done].
      by destruct callbacks'. }
    destruct (bool_decide (key ≠ Key_All) && _) eqn:Hhook;
      injection Hun as <-; simpl.
    + split.
      * intros s k. rewrite Hafter by done. apply Hcnt.
      * rewrite Hafter by done. rewrite !decide_True by done.
        rewrite Hzero. simpl. by rewrite Hhook.
    + split.
      * intros s k. rewrite Hafter by done. apply Hcnt.
      * rewrite Hafter by done. rewrite !decide_True by done.
        rewrite Hzero. simpl. by rewrite Hhook, app_nil_r.
  - injection Hun as <-. simpl. split.
    + intros s k.
      rewrite (subscriberCount_putStore w (set_pendingCallbacks _ w) store
                 this _ s k Hthis eq_refl).
      simpl. rewrite at_key_set. apply Hcnt.
    + rewrite (subscriberCount_putStore w (set_pendingCallbacks _ w) store
                 this _ store key Hthis eq_refl).
      simpl. rewrite at_key_set, !decide_True by done.
      destruct (Nat.eqb_spec
                  (length callbacks'
                   + length (at_key key (_autoSubscriptions this))) 0); [lia |].
      by rewrite andb_false_r, app_nil_r.
Qed.

(** What [trackAutoSubscription] does to the counts and to the trace. *)
Lemma trackAutoSubscription_effect store subscription w w' :
  registryInv w →
  trackAutoSubscription store subscription w = Ok w' →
  let key := sub_key subscription in
  (∀ s k, subscriberCount w' s k
          = subscriberCount w s k
            + (if decide (s = store ∧ k = key) then 1 else 0))
  ∧ trace w'
    = trace w
      ++ (if bool_decide (key ≠ Key_All) && (subscriberCount w store key =? 0)
          then [StartedTrackingKey store key] else []).
Proof.
  intros Hreg. unfold trackAutoSubscription, getStore, bind.
  destruct (stores w !! store) as [this|] eqn:Hthis; [|done].
  set (key := sub_key subscription) in *.
  destruct (Hreg _ _ Hthis) as [Hs Ha].
  assert (subscriberCount w store key
          = length (at_key key (_subscriptions this))
            + length (at_key key (_autoSubscriptions this))) as Hcount
    by (unfold subscriberCount; by rewrite Hthis).
  assert (∀ l w1, stores w1 = stores w →
            length l = S (length (at_key key (_autoSubscriptions this))) →
            ∀ s k,
              subscriberCount
                (putStore store
                   (set_autoSubscriptions
                      (assoc_set key l (_autoSubscriptions this)) this) w1) s k
              = subscriberCount w s k
                + (if decide (s = store ∧ k = key) then 1 else 0)) as Hcnt.
  { intros l w1 Hw1 Hl s k.
    rewrite (subscriberCount_putStore w w1 store this _ s k Hthis Hw1).
    simpl. rewrite at_key_set.
    destruct (decide (s = store)) as [->|Hne].
    - unfold subscriberCount. rewrite Hthis.
      destruct (decide (key = k)) as [<-|Hk].
      + rewrite decide_True by done. lia.
      + rewrite decide_False by (intros [_ ?]; congruence). lia.
    - rewrite decide_False by (intros [? _]; done). lia. }
  destruct (getProperty (_autoSubscriptions this) key) as [callbacks| |] eqn:Hcbs;
    [apply getProperty_Own in Hcbs | done
     | apply getProperty_Absent in Hcbs as [Hcbs Hplain];
       rewrite notDefined_plain by done].
  - intros [= <-]. simpl. split.
    + apply Hcnt; [done |]. unfold at_key. rewrite Hcbs. simpl.
      rewrite length_app. simpl. lia.
    + assert (length (at_key key (_autoSubscriptions this)) ≠ 0) as Hpos.
      { unfold at_key. rewrite Hcbs. simpl. apply Ha in Hcbs.
        by destruct callbacks. }
      rewrite Hcount.
      destruct (Nat.eqb_spec
                  (length (at_key key (_subscriptions this))
                   + length (at_key key (_autoSubscriptions this))) 0);
        [lia |].
      by rewrite andb_false_r, app_nil_r.
  - assert (length (at_key key (_autoSubscriptions this)) = 0) as Hzero
      by (unfold at_key; by rewrite Hcbs).
    assert (bool_decide (assoc_get key (_subscriptions this) = None)
            = (subscriberCount w store key =? 0)) as Hsub.
    { rewrite Hcount, Hzero, Nat.add_0_r.
      destruct (Nat.eqb_spec (length (at_key key (_subscriptions this))) 0)
        as [Hl|Hl].
      - apply bool_decide_eq_true_2. by apply at_key_absent.
      - apply bool_decide_eq_false_2. intros Hc. by apply at_key_absent in Hc. }
    simpl. rewrite Hsub.
    destruct (bool_decide (key ≠ Key_All) && _); intros [= <-]; simpl.
    + split; [apply Hcnt; [done | by rewrite Hzero] | done].
    + split; [apply Hcnt; [done | by rewrite Hzero] | by rewrite app_nil_r].
Qed.

(** What [removeAutoSubscription] does to the counts and to the trace. *)
Lemma removeAutoSubscription_effect store subscription w w' :
  registryInv w →
  plainInv w →
  removeAutoSubscription store subscription w = Ok w' →
  let key := sub_key subscription in
  (∀ s k, subscriberCount w s k
          = subscriberCount w' s k
            + (if decide (s = store ∧ k = key) then 1 else 0))
  ∧ trace w'
    = trace w
      ++ (if bool_decide (key ≠ Key_All) && (subscriberCount w' store key =? 0)
          then [StoppedTrackingKey store key] else []).
Proof.
  intros Hreg Hplain. unfold removeAutoSubscription, getStore, bind.
  destruct (stores w !! store) as [this|] eqn:Hthis; [|done].
  set (key := sub_key subscription) in *.
  destruct (getProperty (_autoSubscriptions this) key) as [subs| |] eqn:Hsubs;
    [apply getProperty_Own in Hsubs | done..].
  assert (key ∉ prototypeNames) as Hkey.
  { intros Hin. destruct (Hplain _ _ Hthis _ Hin) as [_ Hnone]. congruence. }
  rewrite notDefined_plain by done.
  simpl. set (subs' := pull sameObject subs subscription) in *.
  destruct (Z.eqb_spec (Z.of_nat (length subs')) (Z.of_nat (length subs) - 1))
    as [Hlen|]; [|done].
  destruct (Hreg _ _ Hthis) as [Hs Ha].
  intros Hrm.
  assert (∀ s k, subscriberCount w s k
                 = (if decide (s = store)
                    then length (at_key k (_subscriptions this))
                         + length (if decide (key = k) then subs'
                                   else at_key k (_autoSubscriptions this))
                    else subscriberCount w s k)
                   + (if decide (s = store ∧ k = key) then 1 else 0)) as Hcnt.
  { intros s k. destruct (decide (s = store)) as [->|Hne].
    - unfold subscriberCount. rewrite Hthis.
      destruct (decide (key = k)) as [<-|Hk].
      + rewrite decide_True by done. unfold at_key at 2. rewrite Hsubs. simpl.
        lia.
      + rewrite decide_False by (intros [_ ?]; congruence). lia.
    - rewrite decide_False by (intros [? _]; done). lia. }
  destruct (Nat.eqb_spec (length subs') 0) as [Hzero|Hpos].
  - assert (bool_decide (assoc_get key (_subscriptions this) = None)
            = (length (at_key key (_subscriptions this)) =? 0)) as Hsub.
    { destruct (Nat.eqb_spec (length (at_key key (_subscriptions this))) 0)
        as [Hl|Hl].
      - apply bool_decide_eq_true_2. by apply at_key_absent.
      - apply bool_decide_eq_false_2. intros Hc. by apply at_key_absent in Hc. }
    rewrite Hsub in Hrm.
    assert (∀ w1, stores w1 = stores w →
              ∀ s k,
                subscriberCount
                  (putStore store
                     (set_autoSubscriptions
                        (assoc_delete key
                           (assoc_set key subs' (_autoSubscriptions this)))
                        (set_autoSubscriptions
                           (assoc_set key subs' (_autoSubscriptions this))
                           this)) w1) s k
                = (if decide (s = store)
                   then length (at_key k (_subscriptions this))
                        + length (if decide (key = k) then subs'
                                  else at_key k (_autoSubscriptions this))
                   else subscriberCount w s k)) as Hafter.
    { intros w1 Hw1 s k.
      rewrite (subscriberCount_putStore w w1 store this _ s k Hthis Hw1).
      simpl. rewrite at_key_delete_set.
      destruct (decide (s = store)); [|done].
      destruct (decide (key = k)); [|done].
      by destruct subs'. }
    destruct (bool_decide (key ≠ Key_All) && _) eqn:Hhook;
      injection Hrm as <-; simpl.
    + split.
      * intros s k. rewrite Hafter by done. apply Hcnt.
      * rewrite Hafter by done. rewrite !decide_True by done.
        rewrite Hzero, Nat.add_0_r. by rewrite Hhook.
    + split.
      * intros s k. rewrite Hafter by done. apply Hcnt.
      * rewrite Hafter by done. rewrite !decide_True by done.
        rewrite Hzero, Nat.add_0_r. by rewrite Hhook, app_nil_r.
  - injection Hrm as <-. simpl. split.
    + intros s k.
      rewrite (subscriberCount_putStore w (set_pendingCallbacks _ w) store
                 this _ s k Hthis eq_refl).
      simpl. rewrite at_key_set. apply Hcnt.
    + rewrite (subscriberCount_putStore w (set_pendingCallbacks _ w) store
                 this _ store key Hthis eq_refl).
      simpl. rewrite at_key_set, !decide_True by done.
      destruct (Nat.eqb_spec
                  (length (at_key key (_subscriptions this))
                   + length subs') 0); [lia |].
      by rewrite andb_false_r, app_nil_r.
Qed.

Lemma hooks_of_increase store key (c c' : nat → string → nat) evs s k :
  (∀ s k, c' s k = c s k + (if decide (s = store ∧ k = key) then 1 else 0)) →
  evs = (if bool_decide (key ≠ Key_All) && (c store key =? 0)
         then [StartedTrackingKey store key] else []) →
  k ≠ Key_All →
  length (filter (λ e, e = StartedTrackingKey s k) evs)
  = (if (c s k =? 0) && (c' s k =? 1) then 1 else 0)
  ∧ length (filter (λ e, e = StoppedTrackingKey s k) evs)
    = (if (c s k =? 1) && (c' s k =? 0) then 1 else 0).
Proof.
  intros Hc -> Hk. rewrite (Hc s k).
  destruct (decide (s = store ∧ k = key)) as [[-> ->]|Hne].
  - rewrite bool_decide_eq_true_2 by done. simpl.
    destruct (Nat.eqb_spec (c store key) 0) as [Hz|Hz].
    + rewrite Hz. simpl. rewrite !filter_cons, ?decide_True by done.
      by rewrite ?decide_False by done.
    + simpl. split; [done |].
      destruct (Nat.eqb_spec (c store key) 1); [|done].
      destruct (Nat.eqb_spec (c store key + 1) 0); [lia | done].
  - rewrite Nat.add_0_r.
    assert (∀ n, (n =? 0) && (n =? 1) = false) as H01
      by (intros [|[|n]]; done).
    assert (∀ n, (n =? 1) && (n =? 0) = false) as H10
      by (intros [|[|n]]; done).
    rewrite H01, H10.
    destruct (bool_decide (key ≠ Key_All) && _); [|done].
    rewrite !filter_cons, filter_nil.
    rewrite decide_False by (intros [= ? ?]; apply Hne; by split).
    by rewrite decide_False by done.
Qed.

Lemma hooks_of_decrease store key (c c' : nat → string → nat) evs s k :
  (∀ s k, c s k = c' s k + (if decide (s = store ∧ k = key) then 1 else 0)) →
  evs = (if bool_decide (key ≠ Key_All) && (c' store key =? 0)
         then [StoppedTrackingKey store key] else []) →
  k ≠ Key_All →
  length (filter (λ e, e = StartedTrackingKey s k) evs)
  = (if (c s k =? 0) && (c' s k =? 1) then 1 else 0)
  ∧ length (filter (λ e, e = StoppedTrackingKey s k) evs)
    = (if (c s k =? 1) && (c' s k =? 0) then 1 else 0).
Proof.
  intros Hc -> Hk. rewrite (Hc s k).
  destruct (decide (s = store ∧ k = key)) as [[-> ->]|Hne].
  - rewrite bool_decide_eq_true_2 by done. simpl.
    destruct (Nat.eqb_spec (c' store key) 0) as [Hz|Hz].
    + rewrite Hz. simpl. rewrite !filter_cons, ?decide_True by done.
      by rewrite ?decide_False by done.
    + simpl. rewrite andb_false_r. split; [|done].
      destruct (Nat.eqb_spec (c' store key + 1) 0); [lia | done].
  - rewrite Nat.add_0_r.
    assert (∀ n, (n =? 0) && (n =? 1) = false) as H01
      by (intros [|[|n]]; done).
    assert (∀ n, (n =? 1) && (n =? 0) = false) as H10
      by (intros [|[|n]]; done).
    rewrite H01, H10.
    destruct (bool_decide (key ≠ Key_All) && _); [|done].
    rewrite !filter_cons, filter_nil.
    rewrite decide_False by done.
    by rewrite decide_False by (intros [= ? ?]; apply Hne; by split).
Qed.

Lemma initialWorld_inv defaultThrottle now :
  worldInv (initialWorld defaultThrottle now).
Proof.
  split_and!; [| apply NoDup_nil_2 | done].
  intros s t Hst. simpl in Hst. by rewrite lookup_nil in Hst.
Qed.

Lemma exec_inv behaviour fuel ops w w' :
  worldInv w → exec behaviour fuel ops w = Ok w' → worldInv w'.
Proof. intros Hinv Hrun. by apply exec_follows in Hrun as [Hi _ _]; apply Hi. Qed.

(** ** A pass always comes to an end *)

Lemma prepare_returns op w : prepare op w ≠ OutOfFuel.
Proof.
  destruct op; simpl;
    unfold subscribe, unsubscribe, trackAutoSubscription,
      removeAutoSubscription, getStore, bind;
    repeat case_match; done.
Qed.

Lemma nested_run_returns behaviour fuel ops w :
  _isTriggering w = true →
  run (_resolveCallbacks behaviour fuel) ops w ≠ OutOfFuel.
Proof.
  revert w. induction ops as [|op ops IH]; intros w Htr; simpl; [done |].
  rewrite step_prepare.
  destruct (prepare op w) as [[w1 r]| |] eqn:Hp; simpl; [| done |].
  - pose proof (prepare_spec _ _ _ Hp) as (_ & Ht & _). simpl in Ht.
    destruct r.
    + assert (_resolveCallbacks behaviour fuel w1
              = Ok (set_triggerPending true w1)) as ->
        by (destruct fuel; simpl; by rewrite Ht, Htr).
      simpl. apply IH. simpl. congruence.
    + simpl. apply IH. congruence.
  - by apply prepare_returns in Hp.
Qed.

Lemma invokeCallbacks_returns behaviour fuel callbacks w :
  _isTriggering w = true →
  invokeCallbacks behaviour (_resolveCallbacks behaviour fuel) callbacks w
  ≠ OutOfFuel.
Proof.
  revert w. induction callbacks as [|[callback keys] callbacks IH];
    intros w Htr; simpl; [done |].
  set (w1 := emit (CallbackInvoked callback keys) w).
  assert (_isTriggering w1 = true) as Htr1 by exact Htr.
  destruct (run _ (behaviour callback keys w1) w1) as [w2| |] eqn:Hrun;
    simpl; [| done |].
  - apply IH.
    apply run_follows in Hrun as [_ Ht _]; [congruence |].
    apply _resolveCallbacks_follows.
  - by apply nested_run_returns in Hrun.
Qed.

(** Whatever the fuel, a pass returns or fails on an assertion: the
    requests made by its callbacks return at once. *)
Lemma resolverPass_returns behaviour fuel w :
  resolverPass behaviour (_resolveCallbacks behaviour fuel) w ≠ OutOfFuel.
Proof.
  unfold resolverPass.
  destruct (captureCallbacks _ _ _ _) as [callbacks pending].
  match goal with
  | |- context [invokeCallbacks _ _ _ ?v] => set (w1 := v)
  end.
  destruct (invokeCallbacks _ _ callbacks w1) as [w2| |] eqn:Hinv;
    simpl; [done | done |].
  by apply invokeCallbacks_returns in Hinv.
Qed.

Lemma invokeCallbacks_silent_returns behaviour resolve callbacks w :
  (∀ c keys v, behaviour c keys v = []) →
  ∃ w', invokeCallbacks behaviour resolve callbacks w = Ok w'
        ∧ _triggerPending w' = _triggerPending w.
Proof.
  intros Hsilent. revert w.
  induction callbacks as [|[c keys] callbacks IH]; intros w; simpl.
  - by exists w.
  - rewrite Hsilent. simpl.
    destruct (IH (emit (CallbackInvoked c keys) w)) as (w' & Hinv & Hp).
    by exists w'.
Qed.

(** When no callback makes calls of its own, one unit of fuel is enough:
    the resolver returns after a single pass. *)
Lemma _resolveCallbacks_silent_returns behaviour w :
  (∀ c keys v, behaviour c keys v = []) →
  ∃ w', _resolveCallbacks behaviour 1 w = Ok w'.
Proof.
  intros Hsilent. simpl. destruct (_isTriggering w); [by eexists |].
  unfold resolverPass.
  destruct (captureCallbacks _ _ _ _) as [callbacks pending].
  match goal with
  | |- context [invokeCallbacks _ ?r _ ?v] =>
      destruct (invokeCallbacks_silent_returns behaviour r callbacks v Hsilent)
        as (w2 & -> & Hp)
  end.
  simpl in *. rewrite Hp. by eexists.
Qed.

(** * Further properties *)

(** ** What every call preserves *)

(** A relation between the world before and the world after that holds
    across the preparation of every call and across the resolver's own
    updates holds across every run, re-entrant calls included. *)
Section every_call.
Variable R : World → World → Prop.
Hypothesis R_refl : ∀ w, R w w.
Hypothesis R_trans : ∀ w1 w2 w3, R w1 w2 → R w2 w3 → R w1 w3.
Hypothesis R_prepare : ∀ op w p, prepare op w = Ok p → R w p.1.
Hypothesis R_resolver : ∀ w w', resolverOwn w w' → R w w'.

Lemma every_step resolve op w w' :
  (∀ v v', resolve v = Ok v' → R v v') →
  step resolve op w = Ok w' → R w w'.
Proof.
  intros Hres. rewrite step_prepare.
  destruct (prepare op w) as [[w1 r]| |] eqn:Hp; [|done..]. simpl.
  apply R_prepare in Hp. simpl in Hp. destruct r.
  - intros Hr. eapply R_trans; [done | by apply Hres].
  - by intros [= <-].
Qed.

Lemma every_run resolve ops w w' :
  (∀ v v', resolve v = Ok v' → R v v') →
  run resolve ops w = Ok w' → R w w'.
Proof.
  intros Hres. revert w. induction ops as [|op ops IH]; intros w; simpl.
  - by intros [= <-].
  - destruct (step resolve op w) as [w1| |] eqn:Hs; [|done..]. simpl.
    intros Hr. eapply R_trans; [by eapply every_step | by apply IH].
Qed.

Lemma every_invokeCallbacks behaviour resolve callbacks w w' :
  (∀ v v', resolve v = Ok v' → R v v') →
  invokeCallbacks behaviour resolve callbacks w = Ok w' → R w w'.
Proof.
  intros Hres. revert w.
  induction callbacks as [|[callback keys] callbacks IH]; intros w; simpl.
  - by intros [= <-].
  - set (w1 := emit (CallbackInvoked callback keys) w).
    destruct (run resolve (behaviour callback keys w1) w1) as [w2| |] eqn:Hrun;
      [|done..]. simpl.
    intros Hinv. apply (R_trans _ w1); [by apply R_resolver |].
    eapply R_trans; [by eapply every_run | by apply IH].
Qed.

Lemma every_resolverPass behaviour resolve w w' :
  (∀ v v', resolve v = Ok v' → R v v') →
  resolverPass behaviour resolve w = Ok w' → R w w'.
Proof.
  intros Hres. unfold resolverPass.
  destruct (captureCallbacks _ _ _ _) as [callbacks pending].
  match goal with
  | |- context [invokeCallbacks _ _ _ ?v] => set (w1 := v)
  end.
  destruct (invokeCallbacks behaviour resolve callbacks w1) as [w2| |] eqn:Hinv;
    [|done..]. simpl.
  intros [= <-]. apply (R_trans _ w1); [by apply R_resolver |].
  apply (R_trans _ w2); [by eapply every_invokeCallbacks |].
  by apply R_resolver.
Qed.

Lemma every_resolveCallbacks behaviour fuel w w' :
  _resolveCallbacks behaviour fuel w = Ok w' → R w w'.
Proof.
  revert w w'. induction fuel as [|fuel IH]; intros w w'; simpl.
  - destruct (_isTriggering w); [|done].
    intros [= <-]. by apply R_resolver.
  - destruct (_isTriggering w).
    { intros [= <-]. by apply R_resolver. }
    destruct (resolverPass behaviour _ w) as [w1| |] eqn:Hpass; [|done..].
    simpl. apply every_resolverPass in Hpass; [|exact IH].
    destruct (_triggerPending w1).
    + intros Hnext. eapply R_trans; [exact Hpass | by apply IH].
    + by intros [= <-].
Qed.

Lemma every_exec behaviour fuel ops w w' :
  exec behaviour fuel ops w = Ok w' → R w w'.
Proof. apply every_run. intros v v'. apply every_resolveCallbacks. Qed.
End every_call.

(** ** [indexOf] and [splice]: the first occurrence goes *)

Lemma indexOf_from_first {A} `{EqDecision A} (l : list A) x i :
  (0 ≤ i)%Z → indexOf_from i l x ≠ (-1)%Z →
  ∃ l1 l2, l = l1 ++ (x :: l2) ∧ (x ∉ l1)
           ∧ indexOf_from i l x = (i + Z.of_nat (length l1))%Z.
Proof.
  revert i. induction l as [|y l IH]; intros i Hi; simpl; [done |].
  destruct (decide (y = x)) as [->|Hne].
  - intros _. exists [], l. split_and!; [done | apply not_elem_of_nil |].
    simpl. lia.
  - intros Hidx. destruct (IH (i + 1)%Z) as (l1 & l2 & -> & Hnot & Heq);
      [lia | done |].
    exists (y :: l1), l2. split_and!; [done | |].
    + apply not_elem_of_cons. split; [congruence | done].
    + rewrite Heq. simpl. lia.
Qed.

Lemma indexOf_from_absent {A} `{EqDecision A} (l : list A) x i :
  x ∉ l → indexOf_from i l x = (-1)%Z.
Proof.
  revert i. induction l as [|y l IH]; intros i Hnot; simpl; [done |].
  apply not_elem_of_cons in Hnot as [Hne Hnot].
  rewrite decide_False by congruence. by apply IH.
Qed.

Lemma indexOf_from_elem {A} `{EqDecision A} (l : list A) x i :
  (0 ≤ i)%Z → x ∈ l → indexOf_from i l x ≠ (-1)%Z.
Proof.
  revert i. induction l as [|y l IH]; intros i Hi Hin; simpl;
    [by apply elem_of_nil in Hin |].
  destruct (decide (y = x)) as [->|Hne]; [lia |].
  apply elem_of_cons in Hin as [->|Hin]; [done |].
  apply IH; [lia | done].
Qed.

Lemma indexOf_found {A} `{EqDecision A} (l : list A) x :
  x ∈ l ↔ indexOf l x ≠ (-1)%Z.
Proof.
  split.
  - apply indexOf_from_elem. lia.
  - intros Hidx. destruct (decide (x ∈ l)) as [|Hnot]; [done |].
    unfold indexOf in Hidx. by rewrite (indexOf_from_absent l x 0 Hnot) in Hidx.
Qed.

(** [callbacks.splice(indexOf(callbacks, callback), 1)] takes out the
    first occurrence of the callback and nothing else. *)
Lemma splice1_first {A} `{EqDecision A} (l : list A) x :
  indexOf l x ≠ (-1)%Z →
  ∃ l1 l2, l = l1 ++ (x :: l2) ∧ (x ∉ l1)
           ∧ splice1 (indexOf l x) l = l1 ++ l2.
Proof.
  intros Hidx.
  destruct (indexOf_from_first l x 0 (Z.le_refl 0) Hidx)
    as (l1 & l2 & -> & Hnot & Heq).
  exists l1, l2. split_and!; [done | done |].
  unfold splice1, indexOf. rewrite Heq.
  replace (Z.to_nat (0 + Z.of_nat (length l1))) with (length l1) by lia.
  apply delete_middle.
Qed.

Lemma occurrences_app {A} `{EqDecision A} (x : A) l1 l2 :
  occurrences x (l1 ++ l2) = occurrences x l1 + occurrences x l2.
Proof. unfold occurrences. by rewrite filter_app, length_app. Qed.

Lemma occurrences_cons {A} `{EqDecision A} (x y : A) l :
  occurrences x (y :: l)
  = (if decide (y = x) then 1 else 0) + occurrences x l.
Proof.
  unfold occurrences. rewrite filter_cons. by destruct (decide (y = x)).
Qed.

Lemma occurrences_elem {A} `{EqDecision A} (x : A) l :
  x ∈ l ↔ 0 < occurrences x l.
Proof.
  induction l as [|y l IH].
  - split; [by intros ?%elem_of_nil | unfold occurrences; simpl; lia].
  - rewrite occurrences_cons, elem_of_cons.
    destruct (decide (y = x)) as [->|Hne].
    + split; [lia | by left].
    + rewrite IH. simpl. split; [intros [?|?]; [congruence | done] | by right].
Qed.

(** ** What a call does to the stores *)

Lemma set_throttleData_same this :
  this = set_throttleData (_throttleData this) this.
Proof. by destruct this. Qed.

(** A call changes at most the store it addresses, as [storeAfter] says;
    the constructor adds a store at the end. *)
Lemma prepare_stores op w p :
  prepare op w = Ok p →
  match op with
  | NewStore throttleMs bypassTriggerBlocks =>
      stores p.1 = stores w ++ [new_StoreBase throttleMs bypassTriggerBlocks]
  | _ =>
      match addressed op with
      | Some store =>
          ∃ this this',
            stores w !! store = Some this
            ∧ stores p.1 = <[store := this']> (stores w)
            ∧ storeAfter op this this'
      | None => stores p.1 = stores w
      end
  end.
Proof.
  destruct op; simpl.
  - by intros [= <-].
  - unfold subscribe, getStore, bind.
    destruct (stores w !! store) as [this|] eqn:Hthis; [|done].
    destruct (decide (_ = "")) as [|Hkey]; [done |].
    set (key := keyToString (default (KStr Key_All) rawKey)) in *.
    destruct (getProperty (_subscriptions this) key) as [callbacks| |] eqn:Hcbs;
      [| done | destruct (_ && _)]; intros [= <-]; exists this; eexists;
      (split_and!; [reflexivity | reflexivity | done | by rewrite Hcbs |]);
      unfold at_key;
      [apply getProperty_Own in Hcbs
      | apply getProperty_Absent in Hcbs as [Hcbs _] ..];
      rewrite Hcbs; reflexivity.
  - unfold unsubscribe, getStore, bind.
    destruct (stores w !! store) as [this|] eqn:Hthis; [|done].
    destruct (_subsByNum this !! subToken) as [[key callback]|] eqn:Htok;
      [|done].
    simpl.
    destruct (getProperty (_subscriptions this) key) as [l| |] eqn:Hl;
      [apply getProperty_Own in Hl | done..].
    destruct (Z.eqb_spec (indexOf l callback) (-1)) as [|Hidx]; [done |].
    simpl.
    destruct (length (splice1 (indexOf l callback) l) =? 0)%nat eqn:Hlen;
      [destruct (_ && _) |]; intros [= <-]; exists this; eexists;
      (split_and!; [reflexivity | reflexivity |]);
      exists key, callback, l; rewrite Hlen; by split_and!.
  - unfold trackAutoSubscription, getStore, bind.
    destruct (stores w !! store) as [this|] eqn:Hthis; [|done].
    destruct (getProperty (_autoSubscriptions this) _) as [callbacks| |]
      eqn:Hcbs;
      [| done | destruct (_ && _)]; intros [= <-]; exists this; eexists;
      (split_and!; [reflexivity | reflexivity | by rewrite Hcbs |]);
      unfold at_key;
      [apply getProperty_Own in Hcbs
      | apply getProperty_Absent in Hcbs as [Hcbs _] ..];
      rewrite Hcbs; reflexivity.
  - unfold removeAutoSubscription, getStore, bind.
    destruct (stores w !! store) as [this|] eqn:Hthis; [|done].
    destruct (getProperty (_autoSubscriptions this) _) as [subs| |] eqn:Hsubs;
      [apply getProperty_Own in Hsubs | done..].
    simpl.
    destruct (Z.eqb_spec (Z.of_nat (length (pull sameObject subs subscription)))
                (Z.of_nat (length subs) - 1)) as [Hlen|]; [|done].
    destruct (length (pull sameObject subs subscription) =? 0)%nat eqn:Hzero;
      [destruct (_ && _) |]; intros [= <-]; exists this; eexists;
      (split_and!; [reflexivity | reflexivity |]);
      exists subs; rewrite Hzero; (split_and!; [done | lia | done]).
  - unfold getStore.
    destruct (stores w !! store) as [this|] eqn:Hthis; [|done]. simpl.
    intros [= <-]. simpl. exists this. eexists.
    destruct (triggerThrottle_frame store this w) as (_ & _ & _ & -> & _).
    split_and!; [reflexivity | reflexivity |].
    unfold triggerThrottle.
    destruct (match _throttleMs this with Some ms => Some ms | None => _ end)
      as [ms|]; simpl; [|eexists; apply set_throttleData_same].
    destruct (negb (ms =? 0)%Z); simpl; [|eexists; apply set_throttleData_same].
    destruct (_throttleData this) as [[timerId callbackTime]|]; simpl;
      [eexists; apply set_throttleData_same | by eexists].
  - intros [= <-]. by destruct receiver.
  - destruct (0 <=? _)%Z; [|done]. intros [= <-]. by destruct receiver.
  - intros [= <-]. by destruct receiver.
  - unfold getStore.
    destruct (stores w !! store) as [this|] eqn:Hthis; [|done]. simpl.
    intros [= <-]. by exists this, (set_throttleData None this).
  - by intros [= <-].
Qed.

(** A property of stores that holds of a new store and is kept by what
    each call does to the store it addresses holds of every store after
    every run. *)
Section every_store.
Variable P : StoreBase → Prop.
Hypothesis P_new : ∀ throttleMs bypass, P (new_StoreBase throttleMs bypass).
Hypothesis P_kept : ∀ op this this', storeAfter op this this' → P this → P this'.

Lemma prepare_every_store op w p :
  prepare op w = Ok p →
  (∀ s t, stores w !! s = Some t → P t) →
  ∀ s t, stores p.1 !! s = Some t → P t.
Proof.
  intros Hp Hall s t. pose proof (prepare_stores _ _ _ Hp) as Hst.
  destruct op; cbn [addressed] in Hst;
    try (rewrite Hst; by apply Hall);
    try (destruct Hst as (this & this' & Hthis & -> & Hafter);
         destruct (decide (store = s)) as [->|Hne];
         [rewrite list_lookup_insert_eq by (by eapply lookup_lt_Some);
          intros [= <-]; eapply P_kept; [exact Hafter | by eapply Hall]
         |rewrite list_lookup_insert_ne by done; by apply Hall]).
  rewrite Hst. intros Hl.
  apply lookup_app_Some in Hl as [Hl|[_ Hl]]; [by eapply Hall |].
  apply list_lookup_singleton_Some in Hl as [_ <-]. apply P_new.
Qed.

Lemma exec_every_store behaviour fuel ops w w' :
  exec behaviour fuel ops w = Ok w' →
  (∀ s t, stores w !! s = Some t → P t) →
  ∀ s t, stores w' !! s = Some t → P t.
Proof.
  apply (every_exec
           (λ w w', (∀ s t, stores w !! s = Some t → P t) →
                    ∀ s t, stores w' !! s = Some t → P t)).
  - auto.
  - intros w1 w2 w3 H12 H23 H1. apply H23, H12, H1.
  - intros op v p. apply prepare_every_store.
  - intros v v' (Hst & _) Hall s t. rewrite Hst. apply Hall.
Qed.
End every_store.

(** A relation between the earlier and the later state of a store that is
    reflexive, transitive and holds across what each call does to the
    store it addresses holds for every store across every run; no store
    ever goes away. *)
Section store_evolves.
Variable Q : StoreBase → StoreBase → Prop.
Hypothesis Q_refl : ∀ t, Q t t.
Hypothesis Q_trans : ∀ t1 t2 t3, Q t1 t2 → Q t2 t3 → Q t1 t3.
Hypothesis Q_call : ∀ op this this', storeAfter op this this' → Q this this'.

Lemma prepare_store_evolves op w p s t :
  prepare op w = Ok p →
  stores w !! s = Some t →
  ∃ t', stores p.1 !! s = Some t' ∧ Q t t'.
Proof.
  intros Hp Hs. pose proof (prepare_stores _ _ _ Hp) as Hst.
  destruct op; cbn [addressed] in Hst;
    try (rewrite Hst; by exists t);
    try (destruct Hst as (this & this' & Hthis & -> & Hafter);
         destruct (decide (store = s)) as [->|Hne];
         [rewrite list_lookup_insert_eq by (by eapply lookup_lt_Some);
          exists this'; split; [done |];
          assert (this = t) as -> by congruence; by eapply Q_call
         |rewrite list_lookup_insert_ne by done; by exists t]).
  rewrite Hst. exists t. split; [|done]. by apply lookup_app_l_Some.
Qed.

Lemma exec_store_evolves behaviour fuel ops w w' s t :
  exec behaviour fuel ops w = Ok w' →
  stores w !! s = Some t →
  ∃ t', stores w' !! s = Some t' ∧ Q t t'.
Proof.
  intros Hexec. revert s t.
  apply (every_exec
           (λ w w', ∀ s t, stores w !! s = Some t →
                           ∃ t', stores w' !! s = Some t' ∧ Q t t'))
    with (5 := Hexec).
  - intros v s t Hs. by exists t.
  - intros w1 w2 w3 H12 H23 s t Hs.
    destruct (H12 _ _ Hs) as (t2 & Hs2 & Hq2).
    destruct (H23 _ _ Hs2) as (t3 & Hs3 & Hq3).
    exists t3. split; [done | by eapply Q_trans].
  - intros op v p Hp s t. by apply (prepare_store_evolves op).
  - intros v v' (Hst & _) s t Hs. rewrite Hst. by exists t.
Qed.
End store_evolves.

(** ** Tokens and the explicit registry agree *)

Lemma at_key_after_removal {T} (d : Dictionary (list T)) key k l' :
  at_key k (if (length l' =? 0)%nat
            then assoc_delete key (assoc_set key l' d)
            else assoc_set key l' d)
  = if decide (key = k) then l' else at_key k d.
Proof.
  destruct (Nat.eqb_spec (length l') 0) as [Hz|Hz].
  - rewrite at_key_delete_set. destruct (decide (key = k)); [|done].
    by destruct l'.
  - apply at_key_set.
Qed.

Lemma tokensOk_new throttleMs bypass : tokensOk (new_StoreBase throttleMs bypass).
Proof.
  split.
  - intros tok [x Hx]. simpl in Hx. by rewrite lookup_empty in Hx.
  - intros key callback. unfold tokensFor. simpl.
    by rewrite map_filter_empty, map_size_empty.
Qed.

Lemma tokensOk_after op this this' :
  storeAfter op this this' → tokensOk this → tokensOk this'.
Proof.
  intros Hafter [Hbelow Hmatch].
  destruct op; simpl in Hafter; try done.
  - destruct Hafter as (Hkey & _ & ->).
    set (key := keyToString (default (KStr Key_All) rawKey)) in *.
    assert (_subsByNum this !! _subTokenNum this = None) as Hfresh.
    { destruct (_subsByNum this !! _subTokenNum this) eqn:Hl; [|done].
      assert (_subTokenNum this < _subTokenNum this)%Z; [|lia].
      apply Hbelow. by eexists. }
    split; simpl.
    + intros tok [x Hx]. apply lookup_insert_Some in Hx as [[<- _]|[_ Hx]];
        [lia |].
      assert (tok < _subTokenNum this)%Z; [|lia]. apply Hbelow. by eexists.
    + intros k c. unfold tokensFor. simpl. rewrite at_key_set.
      destruct (decide ((key, callback) = (k, c))) as [[= <- <-]|Hne].
      * rewrite map_filter_insert_True by done.
        rewrite map_size_insert_None
          by (apply map_lookup_filter_None; by left).
        rewrite decide_True by done. rewrite occurrences_app.
        rewrite <- Hmatch. unfold tokensFor, occurrences. simpl.
        rewrite filter_cons, decide_True by done. simpl. lia.
      * rewrite map_filter_insert_not';
          [| simpl; congruence | intros y; by rewrite Hfresh].
        fold (tokensFor this k c). rewrite Hmatch.
        destruct (decide (key = k)) as [<-|Hk]; [|done].
        rewrite occurrences_app, occurrences_cons.
        rewrite decide_False by congruence. unfold occurrences at 3. simpl. lia.
  - destruct Hafter as (key & callback & l & Htok & Hl & Hidx & ->).
    destruct (splice1_first l callback Hidx) as (l1 & l2 & El & Hnot & Esp).
    split; simpl.
    + intros tok [x Hx]. apply lookup_delete_Some in Hx as [_ Hx].
      apply Hbelow. by eexists.
    + intros k c. unfold tokensFor. simpl.
      rewrite at_key_after_removal, map_filter_delete, Esp.
      assert (at_key key (_subscriptions this) = l) as Hat
        by (unfold at_key; by rewrite Hl).
      destruct (decide ((key, callback) = (k, c))) as [[= <- <-]|Hne].
      * rewrite map_size_delete_Some
          by (exists (key, callback); by apply map_lookup_filter_Some).
        fold (tokensFor this key callback). rewrite Hmatch, Hat, El.
        rewrite decide_True by done.
        rewrite !occurrences_app, occurrences_cons, decide_True by done. lia.
      * rewrite map_size_delete_None.
        2:{ apply map_lookup_filter_None. right. intros x Hx.
            simpl. congruence. }
        fold (tokensFor this k c). rewrite Hmatch.
        destruct (decide (key = k)) as [<-|Hk]; [|done].
        rewrite Hat, El, !occurrences_app, occurrences_cons.
        rewrite decide_False by congruence. lia.
  - destruct Hafter as [_ ->]. by split.
  - destruct Hafter as (subs & _ & _ & ->). by split.
  - destruct Hafter as (td & ->). by split.
  - subst this'. by split.
Qed.

Lemma initialWorld_tokenInv defaultThrottle now :
  tokenInv (initialWorld defaultThrottle now).
Proof. intros s t Hst. simpl in Hst. by rewrite lookup_nil in Hst. Qed.

Lemma exec_tokenInv behaviour fuel ops w w' :
  exec behaviour fuel ops w = Ok w' → tokenInv w → tokenInv w'.
Proof.
  intros Hexec Hinv.
  exact (exec_every_store tokensOk tokensOk_new tokensOk_after
           _ _ _ _ _ Hexec Hinv).
Qed.

Lemma step_as_exec behaviour fuel op w w' :
  step (_resolveCallbacks behaviour fuel) op w = Ok w' →
  exec behaviour fuel [op] w = Ok w'.
Proof. intros Hstep. unfold exec. simpl. by rewrite Hstep. Qed.

Lemma subscribe_as_prepare store callback rawKey w tok w' :
  subscribe store callback rawKey w = Ok (tok, w') →
  prepare (Subscribe store callback rawKey) w = Ok (w', false).
Proof. intros Hs. simpl. by rewrite Hs. Qed.

Lemma subscribe_token store callback rawKey w tok w' this :
  stores w !! store = Some this →
  subscribe store callback rawKey w = Ok (tok, w') →
  tok = _subTokenNum this.
Proof.
  intros Hthis. unfold subscribe, getStore, bind. rewrite Hthis.
  destruct (decide (_ = "")); [done |].
  destruct (getProperty (_subscriptions this) _); [| done | destruct (_ && _)];
    by intros [= <- _].
Qed.

(** X1.  Tokens are fresh.  Every live token of a store lies below the
    store's token counter, and the token table agrees with the explicit
    registry; this holds before any call and is kept by every call, also
    one made by a running callback.  Under it, [subscribe] returns the
    counter as a token that was not live, binds it to the normalized key
    and the callback, leaves every other token as it was and moves the
    counter up by one. *)
Theorem X1_subscribe_returns_a_fresh_token behaviour fuel :
  (∀ defaultThrottle now, tokenInv (initialWorld defaultThrottle now))
  ∧ (∀ op w w',
       tokenInv w →
       step (_resolveCallbacks behaviour fuel) op w = Ok w' →
       tokenInv w')
  ∧ (∀ store callback rawKey w tok w',
       tokenInv w →
       subscribe store callback rawKey w = Ok (tok, w') →
       ∃ this this',
         stores w !! store = Some this
         ∧ stores w' !! store = Some this'
         ∧ tok = _subTokenNum this
         ∧ _subTokenNum this' = (tok + 1)%Z
         ∧ _subsByNum this !! tok = None
         ∧ _subsByNum this' !! tok
           = Some (keyToString (default (KStr Key_All) rawKey), callback)
         ∧ ∀ other, other ≠ tok →
             _subsByNum this' !! other = _subsByNum this !! other).
Proof.
  split_and!.
  - apply initialWorld_tokenInv.
  - intros op w w' Hinv Hstep.
    by apply step_as_exec, exec_tokenInv in Hstep.
  - intros store callback rawKey w tok w' Hinv Hsub.
    pose proof (prepare_stores _ _ _ (subscribe_as_prepare _ _ _ _ _ _ Hsub))
      as (this & this' & Hthis & Hst & Hkey & _ & ->).
    simpl in Hst.
    pose proof (subscribe_token _ _ _ _ _ _ _ Hthis Hsub) as ->.
    exists this. eexists. split; [done |]. split.
    { rewrite Hst. by eapply list_lookup_insert_eq, lookup_lt_Some. }
    split_and!; [done | done | | |].
    + destruct (_subsByNum this !! _subTokenNum this) eqn:Hl; [|done].
      assert (_subTokenNum this < _subTokenNum this)%Z; [|lia].
      apply (Hinv _ _ Hthis). by eexists.
    + simpl. apply lookup_insert_eq.
    + intros other Hne. simpl. by apply lookup_insert_ne.
Qed.

(** In the store with callbacks 1 (key "a", token 1) and 2 (key "b",
    token 2), subscribing callback 5 to "c" returns token 3, which was not
    live before and is bound to ("c", 5) afterwards, and tokens 1 and 2
    keep their bindings. *)
Lemma X1_witness :
  ∃ this this',
    stores subscribedToAandBWorld !! 0 = Some this
    ∧ stores withThirdSubscriber !! 0 = Some this'
    ∧ 3%Z = _subTokenNum this
    ∧ _subTokenNum this' = (3 + 1)%Z
    ∧ _subsByNum this !! 3%Z = None
    ∧ _subsByNum this' !! 3%Z
      = Some (keyToString (default (KStr Key_All) (Some (KStr "c"))), 5)
    ∧ ∀ other, other ≠ 3%Z →
        _subsByNum this' !! other = _subsByNum this !! other.
Proof.
  destruct (X1_subscribe_returns_a_fresh_token quiet 0) as (Hinit & Hstep & H).
  apply (H 0 5 (Some (KStr "c")) subscribedToAandBWorld 3%Z withThirdSubscriber).
  - apply (exec_tokenInv quiet 0 subscribedToAandB (initialWorld None 1000));
      [vm_compute; reflexivity | apply Hinit].
  - vm_compute. reflexivity.
Defined.

Lemma tokensFor_live this tok key callback :
  _subsByNum this !! tok = Some (key, callback) →
  0 < tokensFor this key callback.
Proof.
  intros Htok. unfold tokensFor.
  assert (filter (λ e : Z * (string * SubscriptionCallbackFunction),
                    e.2 = (key, callback)) (_subsByNum this) !! tok
          = Some (key, callback)) as Hf.
  { by apply map_lookup_filter_Some_2. }
  destruct (size _) eqn:Hsize; [|lia].
  apply map_size_empty_iff in Hsize. rewrite Hsize in Hf.
  by rewrite lookup_empty in Hf.
Qed.

Lemma live_token_registered this tok key callback :
  tokensOk this →
  _subsByNum this !! tok = Some (key, callback) →
  ∃ l, assoc_get key (_subscriptions this) = Some l
       ∧ indexOf l callback ≠ (-1)%Z.
Proof.
  intros [_ Hok] Htok. apply tokensFor_live in Htok.
  rewrite Hok in Htok. apply occurrences_elem in Htok.
  unfold at_key in Htok.
  destruct (assoc_get key (_subscriptions this)) as [l|]; simpl in Htok.
  - exists l. split; [done |]. by apply indexOf_found.
  - by apply elem_of_nil in Htok.
Qed.

Lemma unsubscribe_live store subToken w this :
  tokensOk this →
  stores w !! store = Some this →
  is_Some (_subsByNum this !! subToken) →
  ∃ w', unsubscribe store subToken w = Ok w'.
Proof.
  intros Hok Hthis [[key callback] Htok].
  destruct (live_token_registered _ _ _ _ Hok Htok) as (l & Hl & Hidx).
  unfold unsubscribe, getStore, bind. rewrite Hthis, Htok. simpl.
  apply getProperty_Own in Hl. rewrite Hl.
  apply Z.eqb_neq in Hidx. rewrite Hidx. simpl.
  destruct (_ =? _)%nat; [destruct (_ && _) |]; by eexists.
Qed.

(** X2.  [unsubscribe] succeeds exactly for live tokens.  In every world
    that calls can produce (token table consistent with the registry, see
    X1), unsubscribing a token that is live in the store returns normally:
    none of the three assertions of the function can fail.  A token that is
    not live fails the first assertion, "No subscriptions found for
    token". *)
Theorem X2_unsubscribe_succeeds_iff_token_live store subToken w this :
  tokenInv w →
  stores w !! store = Some this →
  (is_Some (_subsByNum this !! subToken) →
   ∃ w', unsubscribe store subToken w = Ok w')
  ∧ (_subsByNum this !! subToken = None →
     unsubscribe store subToken w = Throw NoSubscriptionsForToken).
Proof.
  intros Hinv Hthis. split.
  - apply unsubscribe_live; [by eapply Hinv | done].
  - intros Htok. unfold unsubscribe, getStore, bind. by rewrite Hthis, Htok.
Qed.

(** In the store with tokens 1 and 2, unsubscribing token 1 succeeds and
    unsubscribing token 7, which was never handed out, fails the first
    assertion. *)
Lemma X2_witness :
  (∃ w', unsubscribe 0 1 subscribedToAandBWorld = Ok w')
  ∧ unsubscribe 0 7 subscribedToAandBWorld = Throw NoSubscriptionsForToken.
Proof.
  assert (tokenInv subscribedToAandBWorld) as Hinv.
  { apply (exec_tokenInv quiet 0 subscribedToAandB (initialWorld None 1000));
      [vm_compute; reflexivity | apply initialWorld_tokenInv]. }
  eassert (stores subscribedToAandBWorld !! 0 = Some _) as Hthis
    by (vm_compute; reflexivity).
  split.
  - apply (X2_unsubscribe_succeeds_iff_token_live 0 1 _ _ Hinv Hthis).
    vm_compute. by eexists.
  - apply (X2_unsubscribe_succeeds_iff_token_live 0 7 _ _ Hinv Hthis).
    vm_compute. reflexivity.
Defined.

Lemma unsubscribe_as_prepare store subToken w w' :
  unsubscribe store subToken w = Ok w' →
  prepare (Unsubscribe store subToken) w = Ok (w', false).
Proof. intros Hu. simpl. by rewrite Hu. Qed.

(** Once a token is dead and below the counter, no call revives it. *)
Lemma dead_token_after tok op this this' :
  storeAfter op this this' →
  _subsByNum this !! tok = None ∧ (tok < _subTokenNum this)%Z →
  _subsByNum this' !! tok = None ∧ (tok < _subTokenNum this')%Z.
Proof.
  intros Hafter [Hdead Hlt]. destruct op; simpl in Hafter; try done.
  - destruct Hafter as (_ & _ & ->). simpl. split; [|lia].
    rewrite lookup_insert_ne by lia. done.
  - destruct Hafter as (key & callback & l & _ & _ & _ & ->). simpl.
    split; [|done]. apply lookup_delete_None. by right.
  - by destruct Hafter as [_ ->].
  - destruct Hafter as (subs & _ & _ & ->). done.
  - destruct Hafter as (td & ->). done.
  - by subst this'.
Qed.

(** X3.  Tokens are never handed out twice.  After a token has been
    unsubscribed, whatever calls follow (further subscriptions included,
    also from callbacks), unsubscribing the same token again fails the
    first assertion, "No subscriptions found for token": the counter only
    grows, so the number is never bound again. *)
Theorem X3_unsubscribed_token_stays_dead behaviour fuel ops store subToken
    w w1 w2 :
  tokenInv w →
  unsubscribe store subToken w = Ok w1 →
  exec behaviour fuel ops w1 = Ok w2 →
  unsubscribe store subToken w2 = Throw NoSubscriptionsForToken.
Proof.
  intros Hinv Hun Hexec.
  pose proof (prepare_stores _ _ _ (unsubscribe_as_prepare _ _ _ _ Hun))
    as (this & this' & Hthis & Hst & key & callback & l & Htok & _ & _ & ->).
  simpl in Hst.
  match type of Hst with _ = <[_ := ?t]> _ => set (this1 := t) in * end.
  assert (stores w1 !! store = Some this1) as Hthis1.
  { rewrite Hst. by eapply list_lookup_insert_eq, lookup_lt_Some. }
  destruct (exec_store_evolves
              (λ t t', _subsByNum t !! subToken = None
                       ∧ (subToken < _subTokenNum t)%Z →
                       _subsByNum t' !! subToken = None
                       ∧ (subToken < _subTokenNum t')%Z)
              (λ t H, H) (λ t1 t2 t3 H12 H23 H1, H23 (H12 H1))
              (dead_token_after subToken)
              _ _ _ _ _ _ _ Hexec Hthis1) as (this2 & Hthis2 & Hdead).
  destruct Hdead as [Hdead _].
  { subst this1. simpl. split; [by apply lookup_delete_eq |].
    apply (Hinv _ _ Hthis). by eexists. }
  unfold unsubscribe, getStore, bind. by rewrite Hthis2, Hdead.
Qed.

(** Callback 1 unsubscribes token 1 and subscribes to the same key again:
    the new subscription has another token, and token 1 stays dead. *)
Lemma X3_witness :
  unsubscribe 0 1 resubscribed = Throw NoSubscriptionsForToken.
Proof.
  apply (X3_unsubscribed_token_stays_dead quiet 0
           [Subscribe 0 1 (Some (KStr "a"))] 0 1
           subscribedToAandBWorld tokenOneGone resubscribed).
  - apply (exec_tokenInv quiet 0 subscribedToAandB (initialWorld None 1000));
      [vm_compute; reflexivity | apply initialWorld_tokenInv].
  - vm_compute. reflexivity.
  - vm_compute. reflexivity.
Defined.

(** ** Subscribing and unsubscribing again *)

Section assoc_round_trip.
Context {K V : Type} `{EqDecision K}.
Implicit Types (m : list (K * V)) (k : K) (v : V).

Lemma assoc_set_set m k v v' :
  assoc_set k v (assoc_set k v' m) = assoc_set k v m.
Proof.
  induction m as [|[k0 v0] m IH]; simpl.
  - by rewrite decide_True.
  - destruct (decide (k0 = k)) as [->|Hne]; simpl.
    + by rewrite decide_True.
    + rewrite decide_False by done. by rewrite IH.
Qed.

Lemma assoc_set_id m k v : assoc_get k m = Some v → assoc_set k v m = m.
Proof.
  induction m as [|[k0 v0] m IH]; simpl; [done |].
  destruct (decide (k0 = k)) as [->|Hne].
  - by intros [= ->].
  - intros Hget. by rewrite IH.
Qed.

Lemma assoc_delete_set_absent m k v :
  assoc_get k m = None → assoc_delete k (assoc_set k v m) = m.
Proof.
  unfold assoc_delete. induction m as [|[k0 v0] m IH]; simpl.
  - intros _. rewrite filter_cons. simpl. by rewrite decide_False by auto.
  - destruct (decide (k0 = k)) as [->|Hne]; [done |].
    intros Hget. rewrite filter_cons. simpl.
    rewrite decide_True by done. by rewrite IH.
Qed.
End assoc_round_trip.

Lemma app_snoc_first {A} (l l1 l2 : list A) x :
  l ++ [x] = l1 ++ x :: l2 → x ∉ l → x ∉ l1 → l1 = l ∧ l2 = [].
Proof.
  revert l1. induction l as [|y l IH]; intros l1 Heq Hl Hl1.
  - destruct l1 as [|z l1]; simpl in Heq.
    + by injection Heq as <-.
    + injection Heq as <- Heq. exfalso. apply Hl1. left.
  - apply not_elem_of_cons in Hl as [Hxy Hl].
    destruct l1 as [|z l1]; simpl in Heq.
    + injection Heq as -> _. done.
    + injection Heq as <- Heq. apply not_elem_of_cons in Hl1 as [_ Hl1].
      destruct (IH l1 Heq Hl Hl1) as [-> ->]. done.
Qed.

Lemma subscribe_world store callback rawKey w tok w' :
  subscribe store callback rawKey w = Ok (tok, w') →
  _pendingCallbacks w' = _pendingCallbacks w.
Proof.
  unfold subscribe, getStore, bind.
  destruct (stores w !! store) as [this|]; [|done].
  destruct (decide (_ = "")); [done |].
  destruct (getProperty (_subscriptions this) _); [| done | destruct (_ && _)];
    by intros [= _ <-].
Qed.

(** X4.  Subscribing and then unsubscribing the returned token.  The
    unsubscribe succeeds and leaves the store as it was except for the
    token counter, which stays one higher: the token table, the
    auto-subscription registry and the throttle state are unchanged, and
    every key holds every callback as many times as before.  When the
    callback was not already subscribed under the key, the registry is
    restored exactly (a key that was new is deleted again); otherwise only
    the number of occurrences is guaranteed, because the first occurrence
    of the callback is the one removed.  The pair is not a no-op for the
    shared pending table: an entry queued for the callback is dropped. *)
Theorem X4_subscribe_then_unsubscribe store callback rawKey w tok w1 this :
  registryInv w → tokenInv w →
  stores w !! store = Some this →
  subscribe store callback rawKey w = Ok (tok, w1) →
  let key := keyToString (default (KStr Key_All) rawKey) in
  ∃ w2 this2,
    unsubscribe store tok w1 = Ok w2
    ∧ stores w2 = <[store := this2]> (stores w)
    ∧ this2 = set_subTokenNum (_subTokenNum this + 1)
                (set_subscriptions (_subscriptions this2) this)
    ∧ (∀ k c, occurrences c (at_key k (_subscriptions this2))
              = occurrences c (at_key k (_subscriptions this)))
    ∧ (callback ∉ at_key key (_subscriptions this) →
       _subscriptions this2 = _subscriptions this)
    ∧ _pendingCallbacks w2 = assoc_delete callback (_pendingCallbacks w).
Proof.
  intros Hreg Hinv Hthis Hsub key.
  pose proof (subscribe_as_prepare _ _ _ _ _ _ Hsub) as Hprep.
  pose proof (prepare_stores _ _ _ Hprep)
    as (this0 & this1 & Hthis0 & Hst1 & _ & _ & Hthis1).
  rewrite Hthis in Hthis0. injection Hthis0 as <-. simpl in Hst1.
  fold key in Hthis1.
  pose proof (subscribe_token _ _ _ _ _ _ _ Hthis Hsub) as ->.
  assert (stores w1 !! store = Some this1) as Hl1.
  { rewrite Hst1. by eapply list_lookup_insert_eq, lookup_lt_Some. }
  assert (_subsByNum this1 !! _subTokenNum this = Some (key, callback)) as Htok1.
  { rewrite Hthis1. simpl. apply lookup_insert_eq. }
  assert (tokensOk this1) as Hok1.
  { by apply (prepare_every_store tokensOk tokensOk_new tokensOk_after
                _ _ _ Hprep Hinv store). }
  destruct (unsubscribe_live store (_subTokenNum this) w1 this1 Hok1 Hl1)
    as [w2 Hun]; [by eexists |].
  pose proof (prepare_stores _ _ _ (unsubscribe_as_prepare _ _ _ _ Hun))
    as (this1' & this2 & Hthis1' & Hst2 & key' & cb' & l & Htok' & Hl & Hidx
        & Hthis2).
  rewrite Hl1 in Hthis1'. injection Hthis1' as <-. simpl in Hst2.
  rewrite Htok1 in Htok'. injection Htok' as <- <-.
  assert (_subsByNum this !! _subTokenNum this = None) as Hfresh.
  { destruct (_subsByNum this !! _subTokenNum this) eqn:Hlive; [|done].
    assert (_subTokenNum this < _subTokenNum this)%Z; [|lia].
    apply (Hinv _ _ Hthis). by eexists. }
  assert (l = at_key key (_subscriptions this) ++ [callback]) as ->.
  { rewrite Hthis1 in Hl. simpl in Hl. rewrite assoc_get_set_eq in Hl.
    by injection Hl as <-. }
  destruct (splice1_first _ _ Hidx) as (l1 & l2 & Heq & Hnot & Hsplice).
  rewrite Hsplice in Hthis2.
  assert (_subscriptions this2
          = if (length (l1 ++ l2) =? 0)%nat
            then assoc_delete key
                   (assoc_set key (l1 ++ l2) (_subscriptions this))
            else assoc_set key (l1 ++ l2) (_subscriptions this)) as Hsubs2.
  { rewrite Hthis2, Hthis1. simpl. by rewrite assoc_set_set. }
  exists w2, this2. split_and!.
  - done.
  - rewrite Hst2, Hst1. apply list_insert_insert_eq.
  - rewrite Hsubs2, Hthis2, Hthis1.
    unfold set_subscriptions, set_subsByNum, set_subTokenNum. simpl.
    by rewrite assoc_set_set, delete_insert_id.
  - intros k c. rewrite Hsubs2, at_key_after_removal.
    destruct (decide (key = k)) as [<-|Hne]; [|done].
    assert (occurrences c (at_key key (_subscriptions this) ++ [callback])
            = occurrences c (l1 ++ callback :: l2)) as Hocc by by rewrite Heq.
    rewrite !occurrences_app, !occurrences_cons in Hocc.
    rewrite occurrences_app. unfold occurrences at 2 in Hocc. simpl in Hocc.
    lia.
  - intros Habsent.
    destruct (app_snoc_first _ _ _ _ Heq Habsent Hnot) as [-> ->].
    rewrite Hsubs2, app_nil_r. unfold at_key.
    destruct (assoc_get key (_subscriptions this)) as [l|] eqn:Hget; simpl.
    + destruct (Hreg _ _ Hthis) as [Hne _]. apply Hne in Hget as Hl0.
      destruct l as [|c l]; [done |]. simpl. by apply assoc_set_id.
    + by apply assoc_delete_set_absent.
  - rewrite (unsubscribe_pending _ _ _ _ _ _ _ Hl1 Htok1 Hun).
    by rewrite (subscribe_world _ _ _ _ _ _ Hsub).
Qed.

(** Callback 5 subscribes to the new key "c" of the store that holds "a"
    and "b" and unsubscribes again: the registry is as before. *)
Lemma X4_witness :
  ∃ w2 this2,
    unsubscribe 0 3 withThirdSubscriber = Ok w2
    ∧ stores w2 !! 0 = Some this2
    ∧ _subscriptions this2 = [("a", [1]); ("b", [2])].
Proof.
  assert (worldInv subscribedToAandBWorld) as (Hreg & _ & _).
  { apply (exec_inv quiet 0 subscribedToAandB (initialWorld None 1000));
      [apply initialWorld_inv | vm_compute; reflexivity]. }
  assert (tokenInv subscribedToAandBWorld) as Hinv.
  { apply (exec_tokenInv quiet 0 subscribedToAandB (initialWorld None 1000));
      [vm_compute; reflexivity | apply initialWorld_tokenInv]. }
  eassert (stores subscribedToAandBWorld !! 0 = Some _) as Hthis
    by (vm_compute; reflexivity).
  destruct (X4_subscribe_then_unsubscribe 0 5 (Some (KStr "c"))
              subscribedToAandBWorld 3 withThirdSubscriber _ Hreg Hinv Hthis)
    as (w2 & this2 & Hun & Hst & _ & _ & Hexact & _).
  { vm_compute. reflexivity. }
  exists w2, this2. split_and!; [done | |].
  - rewrite Hst. vm_compute. reflexivity.
  - rewrite Hexact; [reflexivity |]. vm_compute. apply not_elem_of_nil.
Defined.

(** ** Auto-subscription records *)

Lemma pull_sameObject l subscription :
  pull sameObject l subscription
  = filter (λ y, sub_ref y ≠ sub_ref subscription) l.
Proof.
  unfold pull, sameObject. apply list_filter_iff. intros y.
  by rewrite bool_decide_spec.
Qed.

Lemma length_pull l subscription :
  length (pull sameObject l subscription) + timesTracked subscription l
  = length l.
Proof.
  rewrite pull_sameObject. unfold timesTracked.
  induction l as [|y l IH]; [done |].
  rewrite !filter_cons.
  destruct (decide (sub_ref y = sub_ref subscription)) as [Heq|Hne].
  - rewrite decide_False by auto. simpl. lia.
  - rewrite decide_True by done. simpl. lia.
Qed.

Lemma pull_absent l subscription :
  timesTracked subscription l = 0 → pull sameObject l subscription = l.
Proof.
  rewrite pull_sameObject. unfold timesTracked.
  induction l as [|y l IH]; [done |].
  rewrite !filter_cons.
  destruct (decide (sub_ref y = sub_ref subscription)) as [Heq|Hne];
    [done |].
  rewrite decide_True by done. intros Hl. by rewrite IH.
Qed.

Lemma pull_app {A} (same : A → A → bool) (l1 l2 : list A) x :
  pull same (l1 ++ l2) x = pull same l1 x ++ pull same l2 x.
Proof. unfold pull. apply filter_app. Qed.

Lemma timesTracked_same subscription later l :
  sub_ref later = sub_ref subscription →
  timesTracked later l = timesTracked subscription l.
Proof. intros Href. unfold timesTracked. by rewrite Href. Qed.

Lemma trackAutoSubscription_as_prepare store subscription w w' :
  trackAutoSubscription store subscription w = Ok w' →
  prepare (TrackAutoSubscription store subscription) w = Ok (w', false).
Proof. intros Ht. simpl. by rewrite Ht. Qed.

Lemma removeAutoSubscription_as_prepare store subscription w w' :
  removeAutoSubscription store subscription w = Ok w' →
  prepare (RemoveAutoSubscription store subscription) w = Ok (w', false).
Proof. intros Ht. simpl. by rewrite Ht. Qed.

Lemma trackAutoSubscription_world store subscription w w' :
  trackAutoSubscription store subscription w = Ok w' →
  _pendingCallbacks w' = _pendingCallbacks w.
Proof.
  unfold trackAutoSubscription, getStore, bind.
  destruct (stores w !! store) as [this|]; [|done]. simpl.
  destruct (getProperty (_autoSubscriptions this) _);
    [| done | destruct (_ && _)]; by intros [= <-].
Qed.



(** X6.  Tracking a record and removing it again.  The record handed to
    [removeAutoSubscription] is the object that was tracked, as it is at
    that moment: its flag [used] may have changed.  When the object was not
    already tracked under its key, [removeAutoSubscription] after
    [trackAutoSubscription] succeeds and leaves every store exactly as it
    was before the pair; only a pending entry of the record's callback is
    dropped.  When the object was already tracked under the key, whatever
    its flag was then, the second [trackAutoSubscription] makes it
    impossible to remove: [removeAutoSubscription] then fails its
    assertion. *)
Theorem X6_track_then_remove store subscription later w w1 this :
  registryInv w →
  stores w !! store = Some this →
  trackAutoSubscription store subscription w = Ok w1 →
  sub_ref later = sub_ref subscription →
  sub_key later = sub_key subscription →
  let tracked := at_key (sub_key subscription) (_autoSubscriptions this) in
  (timesTracked subscription tracked = 0 →
   ∃ w2, removeAutoSubscription store later w1 = Ok w2
         ∧ stores w2 = stores w
         ∧ _pendingCallbacks w2
           = assoc_delete (sub_callback later) (_pendingCallbacks w))
  ∧ (timesTracked subscription tracked ≠ 0 →
     removeAutoSubscription store later w1 = Throw SubscriptionNotFound).
Proof.
  intros Hreg Hthis Htrack Href Hkey tracked.
  pose proof (prepare_stores _ _ _
                (trackAutoSubscription_as_prepare _ _ _ _ Htrack))
    as (this0 & this1 & Hthis0 & Hst1 & _ & Hthis1).
  rewrite Hthis in Hthis0. injection Hthis0 as <-. simpl in Hst1, Hthis1.
  fold tracked in Hthis1.
  assert (stores w1 !! store = Some this1) as Hl1.
  { rewrite Hst1. by eapply list_lookup_insert_eq, lookup_lt_Some. }
  assert (getProperty (_autoSubscriptions this1) (sub_key later)
          = Own (tracked ++ [subscription])) as Hget1.
  { apply getProperty_Own. rewrite Hkey, Hthis1. simpl.
    apply assoc_get_set_eq. }
  assert (pull sameObject [subscription] later = []) as Hself.
  { rewrite pull_sameObject, filter_cons. by rewrite decide_False by auto. }
  pose proof (length_pull tracked later) as Hlen.
  rewrite (timesTracked_same subscription later) in Hlen by done.
  split.
  - intros Habsent.
    assert (pull sameObject tracked later = tracked) as Hsame
      by (apply pull_absent; by rewrite (timesTracked_same subscription)).
    destruct (removeAutoSubscription store later w1) as [w2| |] eqn:Hrem.
    + exists w2. split; [done |]. split.
      * pose proof (prepare_stores _ _ _
                      (removeAutoSubscription_as_prepare _ _ _ _ Hrem))
          as (this1' & this2 & Hthis1' & Hst2 & subs & Hsubs & _ & Hthis2).
        rewrite Hl1 in Hthis1'. injection Hthis1' as <-. simpl in Hst2.
        apply getProperty_Own in Hsubs. rewrite Hget1 in Hsubs.
        injection Hsubs as <-.
        rewrite pull_app, Hself, app_nil_r, Hsame in Hthis2.
        rewrite Hkey in Hthis2.
        rewrite Hst2, Hst1, list_insert_insert_eq.
        apply list_insert_id. rewrite Hthis. f_equal.
        rewrite Hthis2, Hthis1. unfold set_autoSubscriptions. simpl.
        rewrite assoc_set_set.
        replace (if (length tracked =? 0)%nat then _ else _)
          with (_autoSubscriptions this); [by destruct this |].
        subst tracked. unfold at_key.
        destruct (assoc_get (sub_key subscription) (_autoSubscriptions this))
          as [l|] eqn:Hget; simpl.
        -- destruct (Hreg _ _ Hthis) as [_ Hne]. apply Hne in Hget as Hl0.
           destruct l as [|c l]; [done |]. simpl. symmetry.
           by apply assoc_set_id.
        -- symmetry. by apply assoc_delete_set_absent.
      * rewrite (removeAutoSubscription_pending _ _ _ _ Hrem).
        by rewrite (trackAutoSubscription_world _ _ _ _ Htrack).
    + exfalso. revert Hrem.
      unfold removeAutoSubscription, getStore, bind. rewrite Hl1, Hget1.
      simpl. rewrite pull_app, Hself, app_nil_r, Hsame.
      rewrite length_app. simpl.
      rewrite (proj2 (Z.eqb_eq _ _)) by lia.
      destruct (_ =? _)%nat; [destruct (_ && _) |]; done.
    + exfalso. revert Hrem.
      unfold removeAutoSubscription, getStore, bind. rewrite Hl1, Hget1.
      simpl. destruct (_ =? _)%Z; [|done].
      destruct (_ =? _)%nat; [destruct (_ && _) |]; done.
  - intros Hin.
    unfold removeAutoSubscription, getStore, bind. rewrite Hl1, Hget1.
    simpl. rewrite pull_app, Hself, app_nil_r, length_app. simpl.
    rewrite (proj2 (Z.eqb_neq _ _)) by lia. done.
Qed.

(** The sample record is tracked in a store without auto-subscriptions and
    removed again after its flag was cleared: the stores are as before.
    Tracked a second time with the flag cleared, it cannot be removed. *)
Lemma X6_witness :
  (∃ w2, removeAutoSubscription 0 sampleRecordUnused trackedOnce = Ok w2
         ∧ stores w2 = stores storeOnly
         ∧ _pendingCallbacks w2
           = assoc_delete (sub_callback sampleRecordUnused)
               (_pendingCallbacks storeOnly))
  ∧ removeAutoSubscription 0 sampleRecord trackedAgain
    = Throw SubscriptionNotFound.
Proof.
  assert (worldInv storeOnly) as (Hreg0 & _ & _).
  { apply (exec_inv quiet 0 [NewStore None None] (initialWorld None 1000));
      [apply initialWorld_inv | vm_compute; reflexivity]. }
  assert (worldInv trackedOnce) as (Hreg1 & _ & _).
  { apply (exec_inv quiet 0
             [NewStore None None; TrackAutoSubscription 0 sampleRecord]
             (initialWorld None 1000));
      [apply initialWorld_inv | vm_compute; reflexivity]. }
  eassert (stores storeOnly !! 0 = Some _) as Hnone
    by (vm_compute; reflexivity).
  eassert (stores trackedOnce !! 0 = Some _) as Honce
    by (vm_compute; reflexivity).
  split.
  - apply (X6_track_then_remove 0 sampleRecord sampleRecordUnused storeOnly
             trackedOnce _ Hreg0 Hnone);
      [vm_compute; reflexivity | reflexivity | reflexivity |].
    vm_compute. reflexivity.
  - apply (X6_track_then_remove 0 sampleRecordUnused sampleRecord trackedOnce
             trackedAgain _ Hreg1 Honce);
      [vm_compute; reflexivity | reflexivity | reflexivity |].
    vm_compute. discriminate.
Defined.

(** ** What a trigger registers *)

Lemma noHarder_refl entry : noHarder entry entry.
Proof. intros meta ->. by exists meta. Qed.

Lemma noHarder_trans e1 e2 e3 : noHarder e1 e2 → noHarder e2 e3 → noHarder e1 e3.
Proof.
  intros H12 H23 m1 Hm1. destruct (H12 _ Hm1) as (m2 & Hm2 & Hc12).
  destruct (H23 _ Hm2) as (m3 & Hm3 & Hc23).
  exists m3. split; [done |]. intros bc bt now c Hc. by apply Hc23, Hc12.
Qed.

Lemma grown_refl entry : grown entry entry False (λ _, False).
Proof.
  split_and!; [done | done | apply noHarder_refl | done |].
  intros key. split; [|tauto].
  intros (m & ks & -> & Hks & Hin). split; [|left; by exists m, ks].
  intros (m' & [= <-] & Hnone). congruence.
Qed.

Lemma grown_trans e1 e2 e3 T1 T2 A1 A2 :
  grown e1 e2 T1 A1 → grown e2 e3 T2 A2 →
  grown e1 e3 (T1 ∨ T2) (λ key, A1 key ∨ A2 key).
Proof.
  intros (Hs1 & Ht1 & Hh1 & Ha1 & Hk1) (Hs2 & Ht2 & Hh2 & Ha2 & Hk2).
  split_and!.
  - intros Hno. rewrite Hs2, Hs1; tauto.
  - intros [H1|H2]; [|auto].
    destruct (Ht1 H1) as [m Hm]. destruct (Hh2 _ Hm) as (m' & -> & _).
    by eexists.
  - by eapply noHarder_trans.
  - by rewrite Ha2.
  - intros key. rewrite Hk2, Hk1, Ha1. tauto.
Qed.

Lemma grown_iff e e' T T' (A A' : string → Prop) :
  grown e e' T A → (T ↔ T') → (∀ key, A key ↔ A' key) → grown e e' T' A'.
Proof.
  intros (Hs & Ht & Hh & Ha & Hk) HT HA.
  split_and!; [rewrite <- HT; done | rewrite <- HT; done | done | done |].
  intros key. by rewrite Hk, HA.
Qed.

Lemma forEach_grown {X} callback (f : X → CallbackMap → CallbackMap)
    (T : X → Prop) (A : X → string → Prop) xs :
  (∀ x p, grown (assoc_get callback p) (assoc_get callback (f x p)) (T x) (A x)) →
  ∀ p, grown (assoc_get callback p) (assoc_get callback (forEach xs f p))
         (∃ x, x ∈ xs ∧ T x) (λ key, ∃ x, x ∈ xs ∧ A x key).
Proof.
  intros Hf. unfold forEach.
  induction xs as [|x xs IH]; intros p; simpl.
  - eapply grown_iff; [apply grown_refl | |].
    + split; [done |]. by intros (x & ?%elem_of_nil & _).
    + intros key. split; [done |]. by intros (x & ?%elem_of_nil & _).
  - eapply grown_iff; [exact (grown_trans _ _ _ _ _ _ _ (Hf x p) (IH (f x p))) | |].
    + split.
      * intros [Hx|(y & Hy & HT)]; [exists x | exists y];
          (split; [|done]); [left | by right].
      * intros (y & [->|Hy]%elem_of_cons & HT); [by left |].
        right. by exists y.
    + intros key. split.
      * intros [Hx|(y & Hy & HT)]; [exists x | exists y];
          (split; [|done]); [left | by right].
      * intros (y & [->|Hy]%elem_of_cons & HT); [by left |].
        right. by exists y.
Qed.

Lemma _updateExistingMeta_easier existing throttledUntil bypassBlock :
  ∃ meta,
    _updateExistingMeta (Some existing) throttledUntil bypassBlock = Some meta
    ∧ meta_keys meta = meta_keys existing
    ∧ ∀ blockCount bypassThrottle now (callback : SubscriptionCallbackFunction),
        capturedNow blockCount bypassThrottle now (callback, existing) = true →
        capturedNow blockCount bypassThrottle now (callback, meta) = true.
Proof.
  eexists. split; [reflexivity |].
  destruct existing as [ks et b]. split.
  - destruct throttledUntil as [t|], et as [et|], bypassBlock; simpl;
      repeat match goal with
             | |- context [(?x =? 0)%Z] => destruct (Z.eqb_spec x 0); simpl
             end; done.
  - intros bc bt now c. unfold capturedNow, stillThrottled. simpl.
    destruct throttledUntil as [t|], et as [et|], bypassBlock, b, bt; simpl;
      repeat match goal with
             | |- context [(?x =? ?y)%Z] => destruct (Z.eqb_spec x y); simpl
             | |- context [(?x <? ?y)%Z] => destruct (Z.ltb_spec x y); simpl
             end; try done; lia.
Qed.

Lemma capturedNow_keys blockCount bypassThrottle now
    (callback : SubscriptionCallbackFunction) keys meta :
  capturedNow blockCount bypassThrottle now (callback, set_meta_keys keys meta)
  = capturedNow blockCount bypassThrottle now (callback, meta).
Proof. done. Qed.

Lemma _setupSpecificKeySubscription_grown keys callback' callback
    throttledUntil bypassBlock (pending : CallbackMap) :
  grown (assoc_get callback pending)
    (assoc_get callback
       (_setupSpecificKeySubscription keys callback' throttledUntil bypassBlock
          pending))
    (callback' = callback) (λ key, callback' = callback ∧ key ∈ keys).
Proof.
  destruct (decide (callback' = callback)) as [->|Hne].
  - unfold _setupSpecificKeySubscription.
    destruct (assoc_get callback pending) as [existing|] eqn:Hex.
    + destruct (_updateExistingMeta_easier existing throttledUntil bypassBlock)
        as (meta & -> & Hkeys & Heasier).
      destruct (meta_keys meta) as [ks|] eqn:Hks; rewrite assoc_get_set_eq.
      * split_and!; [done | by eexists | | |].
        -- intros m [= <-]. eexists. split; [done |].
           intros bc bt now c. rewrite capturedNow_keys. apply Heasier.
        -- split; intros (m & [= <-] & Hnone); simpl in *; congruence.
        -- intros key. split.
           ++ intros (m & ks' & [= <-] & [= <-] & Hin).
              split; [intros (m & [= <-] & Hnone); congruence |].
              apply elem_of_app in Hin as [Hin|Hin]; [left | by right].
              exists existing, ks. split_and!; [done | congruence | done].
           ++ intros [_ [(m & ks' & [= <-] & Hks' & Hin)|[_ Hin]]];
                eexists _, _; (split_and!; [done | done |]);
                apply elem_of_app; [left | by right].
              rewrite Hks' in Hkeys. by simplify_eq.
      * split_and!; [done | by eexists | | |].
        -- intros m [= <-]. by exists meta.
        -- split; intros _; eexists; (split; [done |]); congruence.
        -- intros key. split.
           ++ intros (m & ks' & [= <-] & Hks' & _). congruence.
           ++ intros [Hnot _]. exfalso. apply Hnot. exists existing.
              split; [done | congruence].
    + unfold _updateExistingMeta. rewrite assoc_get_set_eq.
      split_and!; [done | by eexists | by intros m | |].
      * split; [intros (m & [= <-] & Hnone); done | by intros (m & ? & _)].
      * intros key. split.
        -- intros (m & ks' & [= <-] & [= <-] & Hin).
           split; [by intros (m & ? & _) | by right].
        -- intros [_ [(m & ks' & ? & _)|[_ Hin]]]; [done |].
           by eexists _, _.
  - assert (assoc_get callback
              (_setupSpecificKeySubscription keys callback' throttledUntil
                 bypassBlock pending)
            = assoc_get callback pending) as ->.
    { unfold _setupSpecificKeySubscription.
      destruct (_updateExistingMeta _ _ _) as [meta|];
        [destruct (meta_keys meta) |]; by rewrite assoc_get_set_ne. }
    eapply grown_iff; [apply grown_refl | tauto | intros key; tauto].
Qed.

Lemma triggerSpecificKeys_grown this keys throttledUntil bypassBlock callback
    (pending : CallbackMap) :
  grown (assoc_get callback pending)
    (assoc_get callback
       (triggerSpecificKeys this keys throttledUntil bypassBlock pending))
    (affectedBy this keys callback)
    (λ key, key ∈ keys
            ∧ (listens this key callback ∨ listens this Key_All callback)).
Proof.
  unfold triggerSpecificKeys.
  set (perKey := λ (key : string) (pending : CallbackMap), forEach _ _ _).
  assert (∀ key p,
            grown (assoc_get callback p) (assoc_get callback (perKey key p))
              (listens this key callback)
              (λ k, k = key ∧ listens this key callback)) as HperKey.
  { intros key p. subst perKey. simpl.
    eapply grown_iff;
      [eapply grown_trans;
       [apply (forEach_grown callback
                 (λ cb, _setupSpecificKeySubscription [key] cb throttledUntil
                          bypassBlock)
                 (λ cb, cb = callback) (λ cb k, cb = callback ∧ k ∈ [key]))
       |apply (forEach_grown callback
                 (λ sub, _setupSpecificKeySubscription [key] (sub_callback sub)
                           throttledUntil bypassBlock)
                 (λ sub, sub_callback sub = callback)
                 (λ sub k, sub_callback sub = callback ∧ k ∈ [key]))] | |].
    - intros cb q. apply _setupSpecificKeySubscription_grown.
    - intros sub q. apply _setupSpecificKeySubscription_grown.
    - unfold listens. split.
      + intros [(cb & Hin & ->)|(sub & Hin & Hcb)]; [by left | right; eauto].
      + intros [Hin|(sub & Hin & Hcb)]; [left; eauto | right; eauto].
    - intros k. unfold listens. split.
      + intros [(cb & Hin & -> & ->%list_elem_of_singleton)
               |(sub & Hin & Hcb & ->%list_elem_of_singleton)];
          (split; [done |]); [by left | right; eauto].
      + intros [-> [Hin|(sub & Hin & Hcb)]]; [left | right].
        * exists callback. split_and!; [done | done |].
          by apply list_elem_of_singleton.
        * exists sub. split_and!; [done | done |].
          by apply list_elem_of_singleton. }
  eapply grown_iff;
    [eapply grown_trans;
     [eapply grown_trans;
      [apply (forEach_grown callback perKey (λ key, listens this key callback)
                (λ key k, k = key ∧ listens this key callback) keys HperKey)
      |apply (forEach_grown callback
                (λ cb, _setupSpecificKeySubscription keys cb throttledUntil
                         bypassBlock)
                (λ cb, cb = callback) (λ cb k, cb = callback ∧ k ∈ keys))]
     |apply (forEach_grown callback
               (λ sub, _setupSpecificKeySubscription keys (sub_callback sub)
                         throttledUntil bypassBlock)
               (λ sub, sub_callback sub = callback)
               (λ sub k, sub_callback sub = callback ∧ k ∈ keys))] | |].
  - intros cb q. apply _setupSpecificKeySubscription_grown.
  - intros sub q. apply _setupSpecificKeySubscription_grown.
  - unfold affectedBy. unfold listens at 3. split.
    + intros [[(key & Hin & Hl)|(cb & Hin & ->)]|(sub & Hin & Hcb)];
        [left; eauto | right; by left | right; right; eauto].
    + intros [(key & Hin & Hl)|[Hin|(sub & Hin & Hcb)]];
        [left; left; eauto | left; right; eauto | right; eauto].
  - intros k. simpl. unfold listens at 3. split.
    + intros [[(key & Hin & -> & Hl)|(cb & Hin & -> & Hk)]
             |(sub & Hin & Hcb & Hk)];
        (split; [done |]); [by left | right; by left | right; right; eauto].
    + intros [Hk [Hl|[Hin|(sub & Hin & Hcb)]]];
        [left; left; eauto | left; right; eauto | right; eauto].
Qed.

(** ** Enumeration of a registry *)

Lemma insertByIndex_perm {T} (n : N) (v : T) l :
  insertByIndex n v l ≡ₚ (n, v) :: l.
Proof.
  induction l as [|[m u] l IH]; simpl; [done |].
  destruct (n <? m)%N; [done |]. rewrite IH. apply Permutation_swap.
Qed.

Lemma indexedProperties_perm {T} (d : Dictionary T) :
  map snd (indexedProperties d) ≡ₚ filter (λ e, ¬ arrayIndex e.1 = None) d.
Proof.
  unfold indexedProperties.
  assert (∀ acc : list (N * (string * T)),
            map snd
              (fold_left
                 (λ acc e, match arrayIndex e.1 with
                           | Some n => insertByIndex n e acc
                           | None => acc
                           end) d acc)
            ≡ₚ map snd acc ++ filter (λ e, ¬ arrayIndex e.1 = None) d) as H.
  { induction d as [|e d IH]; intros acc; simpl.
    - by rewrite app_nil_r.
    - rewrite IH, filter_cons.
      destruct (arrayIndex e.1) as [n|] eqn:Hidx.
      + rewrite decide_True by done.
        rewrite insertByIndex_perm. simpl.
        by rewrite <- Permutation_middle.
      + by rewrite decide_False by auto. }
  apply (H []).
Qed.

Lemma ownProperties_perm {T} (d : Dictionary T) : ownProperties d ≡ₚ d.
Proof.
  unfold ownProperties. rewrite indexedProperties_perm.
  rewrite (Permutation_app_comm _ _).
  apply (filter_app_complement (λ e : string * T, arrayIndex e.1 = None)).
Qed.

Lemma elem_of_flatten {A} (x : A) (ls : list (list A)) :
  x ∈ flatten ls ↔ ∃ l, l ∈ ls ∧ x ∈ l.
Proof.
  unfold flatten. induction ls as [|l ls IH]; simpl.
  - split; [by intros ?%elem_of_nil | by intros (l & ?%elem_of_nil & _)].
  - rewrite elem_of_app, IH. split.
    + intros [Hx|(l' & Hl' & Hx)]; [exists l | exists l'];
        (split; [|done]); [left | by right].
    + intros (l' & [->|Hl']%elem_of_cons & Hx); [by left | right; eauto].
Qed.

(** The flattened values of a registry are the members of its lists. *)
Lemma elem_of_registry {T} (d : Dictionary (list T)) x :
  NoDup (map fst d) →
  x ∈ flatten (values d) ↔ ∃ key, x ∈ at_key key d.
Proof.
  intros Hnd. rewrite elem_of_flatten. unfold values, at_key. split.
  - intros (l & Hl & Hx).
    apply list_elem_of_fmap in Hl as ([key l'] & -> & Hin).
    rewrite ownProperties_perm in Hin. exists key.
    by rewrite (assoc_get_elem_NoDup _ _ _ Hnd Hin).
  - intros (key & Hx).
    destruct (assoc_get key d) as [l|] eqn:Hget; simpl in Hx;
      [|by apply elem_of_nil in Hx].
    exists l. split; [|done].
    apply list_elem_of_fmap. exists (key, l). split; [done |].
    rewrite ownProperties_perm. by apply assoc_get_Some_elem.
Qed.

Lemma elem_of_Object_keys {T} (d : Dictionary T) key :
  key ∈ Object_keys d ↔ assoc_get key d ≠ None.
Proof.
  unfold Object_keys. rewrite ownProperties_perm.
  rewrite assoc_get_None. split; [tauto |].
  intros Hin. by destruct (decide (key ∈ map fst d)).
Qed.

Lemma keysDistinct_new throttleMs bypass :
  keysDistinct (new_StoreBase throttleMs bypass).
Proof. split; apply NoDup_nil_2. Qed.

Lemma keysDistinct_after op this this' :
  storeAfter op this this' → keysDistinct this → keysDistinct this'.
Proof.
  intros Hafter [Hs Ha]. destruct op; simpl in Hafter; try done.
  - destruct Hafter as (_ & _ & ->). split; [|done]. by apply assoc_set_NoDup.
  - destruct Hafter as (key & callback & l & _ & _ & _ & ->).
    split; [|done]. simpl.
    destruct (_ =? _)%nat;
      [apply assoc_delete_NoDup |]; by apply assoc_set_NoDup.
  - destruct Hafter as [_ ->]. split; [done |]. by apply assoc_set_NoDup.
  - destruct Hafter as (subs & _ & _ & ->). split; [done |]. simpl.
    destruct (_ =? _)%nat;
      [apply assoc_delete_NoDup |]; by apply assoc_set_NoDup.
  - destruct Hafter as (td & ->). done.
  - by subst this'.
Qed.

Lemma exec_keysDistinct behaviour fuel ops w w' :
  exec behaviour fuel ops w = Ok w' →
  (∀ s t, stores w !! s = Some t → keysDistinct t) →
  ∀ s t, stores w' !! s = Some t → keysDistinct t.
Proof.
  apply (exec_every_store keysDistinct keysDistinct_new keysDistinct_after).
Qed.

Lemma _setupAllKeySubscription_other callback callback' throttledUntil
    bypassBlock (pending : CallbackMap) :
  callback' ≠ callback →
  assoc_get callback
    (_setupAllKeySubscription callback' throttledUntil bypassBlock pending)
  = assoc_get callback pending.
Proof. intros Hne. unfold _setupAllKeySubscription. by apply assoc_get_set_ne. Qed.

Lemma _setupAllKeySubscription_congr callback throttledUntil bypassBlock
    (p q : CallbackMap) :
  assoc_get callback q = assoc_get callback p →
  assoc_get callback
    (_setupAllKeySubscription callback throttledUntil bypassBlock q)
  = assoc_get callback
      (_setupAllKeySubscription callback throttledUntil bypassBlock p).
Proof.
  intros Heq. unfold _setupAllKeySubscription.
  by rewrite !assoc_get_set_eq, Heq.
Qed.

(** Registering the same all-keys trigger twice is registering it once. *)
Lemma _setupAllKeySubscription_idem callback throttledUntil bypassBlock
    (p : CallbackMap) :
  assoc_get callback
    (_setupAllKeySubscription callback throttledUntil bypassBlock
       (_setupAllKeySubscription callback throttledUntil bypassBlock p))
  = assoc_get callback
      (_setupAllKeySubscription callback throttledUntil bypassBlock p).
Proof.
  unfold _setupAllKeySubscription at 1. rewrite assoc_get_set_eq.
  unfold _setupAllKeySubscription. rewrite !assoc_get_set_eq. f_equal.
  destruct (assoc_get callback p) as [[ks et b]|]; simpl;
    destruct throttledUntil as [t|]; try destruct et as [et|];
    try destruct bypassBlock; try destruct b; simpl;
    repeat match goal with
           | |- context [(?x =? 0)%Z] => destruct (Z.eqb_spec x 0); simpl
           end;
    rewrite ?Z.min_id; try done;
    repeat match goal with
           | |- context [(?x =? 0)%Z] => destruct (Z.eqb_spec x 0); simpl
           end;
    try done; try (exfalso; lia);
    unfold set_meta_bypassBlock, set_meta_throttledUntil; simpl;
    do 2 f_equal; lia.
Qed.

Lemma forEach_allKeys {X} (g : X → SubscriptionCallbackFunction) xs callback
    throttledUntil bypassBlock (p q : CallbackMap) :
  let once :=
    assoc_get callback
      (_setupAllKeySubscription callback throttledUntil bypassBlock p) in
  let q' :=
    forEach xs (λ x, _setupAllKeySubscription (g x) throttledUntil bypassBlock)
      q in
  assoc_get callback q = assoc_get callback p ∨ assoc_get callback q = once →
  (callback ∈ map g xs → assoc_get callback q' = once)
  ∧ (callback ∉ map g xs → assoc_get callback q' = assoc_get callback q).
Proof.
  intros once q'. subst q'. unfold forEach. revert q.
  induction xs as [|x xs IH]; intros q Hq; simpl in *.
  - split; [by intros ?%elem_of_nil | done].
  - destruct (decide (g x = callback)) as [Hx|Hx].
    + assert (assoc_get callback
                (_setupAllKeySubscription (g x) throttledUntil bypassBlock q)
              = once) as Hone.
      { rewrite Hx. destruct Hq as [Hq|Hq].
        - by apply _setupAllKeySubscription_congr.
        - rewrite (_setupAllKeySubscription_congr _ _ _
                     (_setupAllKeySubscription callback throttledUntil
                        bypassBlock p) q Hq).
          apply _setupAllKeySubscription_idem. }
      destruct (IH _ (or_intror Hone)) as [Hin Hout].
      split; [|intros Hno; exfalso; apply Hno; rewrite <- Hx; left].
      intros _. destruct (decide (callback ∈ map g xs)); [auto |].
      rewrite Hout by done. done.
    + assert (assoc_get callback
                (_setupAllKeySubscription (g x) throttledUntil bypassBlock q)
              = assoc_get callback q) as Hsame
        by by apply _setupAllKeySubscription_other.
      destruct (IH (_setupAllKeySubscription (g x) throttledUntil bypassBlock q))
        as [Hin Hout]; [by rewrite Hsame |].
      split.
      * intros [?|?]%elem_of_cons; [congruence | auto].
      * intros [_ ?]%not_elem_of_cons. by rewrite Hout.
Qed.

Lemma triggerAllKeys_spec this throttledUntil bypassBlock callback
    (pending : CallbackMap) :
  keysDistinct this →
  let pending' := triggerAllKeys this throttledUntil bypassBlock pending in
  ((∃ key, listens this key callback) →
   assoc_get callback pending'
   = assoc_get callback
       (_setupAllKeySubscription callback throttledUntil bypassBlock pending))
  ∧ (¬ (∃ key, listens this key callback) →
     assoc_get callback pending' = assoc_get callback pending).
Proof.
  intros [Hs Ha] pending'. subst pending'. unfold triggerAllKeys.
  set (L1 := flatten (values (_subscriptions this))).
  set (L2 := flatten (values (_autoSubscriptions this))).
  set (q1 := forEach L1 _ pending).
  assert ((callback ∈ L1 →
           assoc_get callback q1
           = assoc_get callback
               (_setupAllKeySubscription callback throttledUntil bypassBlock
                  pending))
          ∧ (callback ∉ L1 →
             assoc_get callback q1 = assoc_get callback pending))
    as [Hin1 Hout1].
  { pose proof (forEach_allKeys id L1 callback throttledUntil bypassBlock
                  pending pending (or_introl eq_refl)) as H.
    rewrite map_id in H. exact H. }
  assert (callback ∈ L1 ↔ ∃ key, callback ∈ at_key key (_subscriptions this))
    as HL1 by by apply elem_of_registry.
  assert (callback ∈ map sub_callback L2
          ↔ ∃ key sub, sub ∈ at_key key (_autoSubscriptions this)
                       ∧ sub_callback sub = callback) as HL2.
  { change (map sub_callback L2) with (sub_callback <$> L2).
    rewrite list_elem_of_fmap. split.
    - intros (sub & -> & Hin). apply elem_of_registry in Hin as [key Hin];
        [|done]. by exists key, sub.
    - intros (key & sub & Hin & <-). exists sub. split; [done |].
      apply elem_of_registry; [done |]. by exists key. }
  assert (assoc_get callback q1 = assoc_get callback pending
          ∨ assoc_get callback q1
            = assoc_get callback
                (_setupAllKeySubscription callback throttledUntil bypassBlock
                   pending)) as Hq1.
  { destruct (decide (callback ∈ L1)); [right | left]; auto. }
  destruct (forEach_allKeys sub_callback L2 callback throttledUntil
              bypassBlock pending q1 Hq1) as [Hin2 Hout2].
  split.
  - intros (key & [Hl|(sub & Hl & Hcb)]).
    + destruct (decide (callback ∈ map sub_callback L2)); [auto |].
      rewrite Hout2 by done. apply Hin1, HL1. by exists key.
    + apply Hin2, HL2. by exists key, sub.
  - intros Hno. rewrite Hout2, Hout1; [done | |].
    + intros Hin. apply HL1 in Hin as [key Hin]. apply Hno. exists key.
      by left.
    + intros Hin. apply HL2 in Hin as (key & sub & Hin & Hcb). apply Hno.
      exists key. right. by exists sub.
Qed.

(** ** Entries that a trigger creates *)

Lemma _setupSpecificKeySubscription_carries keys callback' callback
    throttledUntil bypassBlock (pending : CallbackMap) :
  carries throttledUntil bypassBlock (assoc_get callback pending) →
  carries throttledUntil bypassBlock
    (assoc_get callback
       (_setupSpecificKeySubscription keys callback' throttledUntil bypassBlock
          pending)).
Proof.
  intros Hc. destruct (decide (callback' = callback)) as [->|Hne].
  - unfold _setupSpecificKeySubscription.
    destruct (assoc_get callback pending) as [[ks et b]|] eqn:Hex.
    + destruct (Hc _ eq_refl) as (Hb & Hdue & Himm).
      unfold immediate in Himm. simpl in Hb, Hdue, Himm.
      assert (∃ meta,
                _updateExistingMeta
                  (Some {| meta_keys := ks; meta_throttledUntil := et;
                           meta_bypassBlock := b |}) throttledUntil bypassBlock
                = Some meta
                ∧ meta_keys meta = ks
                ∧ meta_bypassBlock meta = bypassBlock
                ∧ (truthy throttledUntil = true →
                   meta_throttledUntil meta = throttledUntil)
                ∧ (truthy throttledUntil = false →
                   truthy (meta_throttledUntil meta) = false))
        as (meta & -> & Hks & Hb' & Hdue' & Himm').
      { eexists. split; [reflexivity |]. subst b.
        unfold _updateExistingMeta, truthy in *.
        destruct throttledUntil as [t|], et as [et|], bypassBlock;
          simpl in *;
          repeat match goal with
                 | H : context [(?x =? 0)%Z] |- _ =>
                     destruct (Z.eqb_spec x 0); simpl in *
                 | |- context [(?x =? 0)%Z] =>
                     destruct (Z.eqb_spec x 0); simpl in *
                 end;
          try (specialize (Hdue eq_refl)); try (specialize (Himm eq_refl));
          simplify_eq; rewrite ?Z.min_id;
          repeat match goal with
                 | |- context [(?x =? 0)%Z] =>
                     destruct (Z.eqb_spec x 0); simpl in *
                 end;
          by split_and!. }
      destruct (meta_keys meta) as [ks'|]; rewrite assoc_get_set_eq;
        intros m [= <-]; by split_and!.
    + unfold _updateExistingMeta. rewrite assoc_get_set_eq.
      intros m [= <-]. simpl. split_and!; [done | done |].
      intros Himm. exact Himm.
  - assert (assoc_get callback
              (_setupSpecificKeySubscription keys callback' throttledUntil
                 bypassBlock pending)
            = assoc_get callback pending) as ->; [|done].
    unfold _setupSpecificKeySubscription.
    destruct (_updateExistingMeta _ _ _) as [meta|];
      [destruct (meta_keys meta) |]; by rewrite assoc_get_set_ne.
Qed.

Lemma triggerSpecificKeys_carries this keys throttledUntil bypassBlock callback
    (pending : CallbackMap) :
  carries throttledUntil bypassBlock (assoc_get callback pending) →
  carries throttledUntil bypassBlock
    (assoc_get callback
       (triggerSpecificKeys this keys throttledUntil bypassBlock pending)).
Proof.
  intros Hc. unfold triggerSpecificKeys.
  do 2 (apply (forEach_preserves
                 (λ p : CallbackMap,
                    carries throttledUntil bypassBlock (assoc_get callback p)));
        [intros; by apply _setupSpecificKeySubscription_carries |]).
  apply (forEach_preserves
           (λ p : CallbackMap,
              carries throttledUntil bypassBlock (assoc_get callback p)));
    [|done].
  intros key p Hp.
  do 2 (apply (forEach_preserves
                 (λ p : CallbackMap,
                    carries throttledUntil bypassBlock (assoc_get callback p)));
        [intros; by apply _setupSpecificKeySubscription_carries |]).
  done.
Qed.

(** X7.  Whom a specific-keys trigger reaches, and with which keys.  The
    registration phase of [trigger(keys)] gives an entry to every callback
    subscribed (explicitly or by an auto-subscription record) to one of
    the triggered keys or to [Key_All], and leaves the entry, or the
    absence of an entry, of every other callback untouched.  Unless the
    callback already had an all-keys entry, the key list it is handed on
    delivery has no duplicates and consists of the keys that were pending
    for it before together with the triggered keys it is subscribed to
    (all the triggered keys for a [Key_All] subscriber).  An entry created
    by the trigger carries the trigger's bypass flag and its due-time, or
    no due-time when the trigger has none. *)
Theorem X7_specific_trigger_reaches_its_listeners this keyOrKeys throttledUntil
    bypassBlock callback (pending : CallbackMap) :
  allKeysBranch keyOrKeys = false →
  let keys := normalizedKeys keyOrKeys in
  let pending' :=
    triggerRegister this keyOrKeys throttledUntil bypassBlock pending in
  (affectedBy this keys callback → is_Some (assoc_get callback pending'))
  ∧ (¬ affectedBy this keys callback →
     assoc_get callback pending' = assoc_get callback pending)
  ∧ (¬ allKeysEntry callback pending →
     ∀ meta', assoc_get callback pending' = Some meta' →
       ∃ delivered,
         uniquedKeys meta' = Some delivered
         ∧ NoDup delivered
         ∧ ∀ key, key ∈ delivered
                  ↔ holdsKey (assoc_get callback pending) key
                    ∨ (key ∈ keys
                       ∧ (listens this key callback
                          ∨ listens this Key_All callback)))
  ∧ (assoc_get callback pending = None →
     carries throttledUntil bypassBlock (assoc_get callback pending')).
Proof.
  intros Hbranch keys pending'. subst pending'. unfold triggerRegister.
  rewrite Hbranch. fold keys.
  destruct (triggerSpecificKeys_grown this keys throttledUntil bypassBlock
              callback pending) as (Hsame & Htouched & _ & Hall & Hkey).
  split_and!; [done | done | |].
  2: { intros Hnone. apply triggerSpecificKeys_carries. rewrite Hnone.
       by intros m. }
  intros Hnot meta' Hget.
  destruct (meta_keys meta') as [ks|] eqn:Hks.
  - exists (uniq ks). unfold uniquedKeys. rewrite Hks.
    split_and!; [done | apply uniq_NoDup |].
    intros key. rewrite uniq_elem_of.
    assert (key ∈ ks
            ↔ holdsKey (assoc_get callback
                          (triggerSpecificKeys this keys throttledUntil
                             bypassBlock pending)) key) as ->.
    { rewrite Hget. split.
      - intros Hin. by exists meta', ks.
      - intros (m & ks' & [= <-] & Hks' & Hin). congruence. }
    rewrite Hkey. split; [tauto |]. intros H. split; [|done].
    intros Hall'. by apply Hnot.
  - exfalso. apply Hnot, Hall. rewrite Hget. by exists meta'.
Qed.

(** Keys "a" and "b" are triggered on the store where callback 1 listens
    to "a" and callback 2 to every key: callback 2 gets an entry. *)
Lemma X7_witness :
  is_Some (assoc_get 2
             (triggerRegister keyAndAllStore (Many [KStr "a"; KStr "b"])
                None false [])).
Proof.
  apply (X7_specific_trigger_reaches_its_listeners keyAndAllStore
           (Many [KStr "a"; KStr "b"]) None false 2 []); [reflexivity |].
  right. left. vm_compute. apply list_elem_of_here.
Defined.

(** X8.  A specific-keys trigger never makes a pending entry harder to
    deliver.  Whatever due-time and bypass flag the trigger carries, an
    entry that was pending before is still there afterwards, and every
    pass that would have captured the old entry (block counter, throttle
    bypass and clock being equal) captures the merged one: the due-time
    only moves earlier and the bypass flag is only ever gained. *)
Theorem X8_specific_trigger_never_delays_an_entry this keyOrKeys throttledUntil
    bypassBlock callback meta (pending : CallbackMap) :
  allKeysBranch keyOrKeys = false →
  assoc_get callback pending = Some meta →
  ∃ meta',
    assoc_get callback
      (triggerRegister this keyOrKeys throttledUntil bypassBlock pending)
    = Some meta'
    ∧ ∀ blockCount bypassThrottle now,
        capturedNow blockCount bypassThrottle now (callback, meta) = true →
        capturedNow blockCount bypassThrottle now (callback, meta') = true.
Proof.
  intros Hbranch Hget. unfold triggerRegister. rewrite Hbranch.
  destruct (triggerSpecificKeys_grown this (normalizedKeys keyOrKeys)
              throttledUntil bypassBlock callback pending)
    as (_ & _ & Hharder & _).
  destruct (Hharder _ Hget) as (meta' & Hget' & Hcap).
  exists meta'. split; [done |]. intros bc bt now. apply Hcap.
Qed.

(** Callback 1 has an immediate entry for "a"; the store then triggers "a"
    with a due-time of 2000: the entry is still captured at time 1000. *)
Lemma X8_witness :
  ∃ meta',
    assoc_get 1
      (triggerRegister keyAndAllStore (Single (KStr "a")) (Some 2000%Z) false
         [(1, {| meta_keys := Some ["a"]; meta_throttledUntil := None;
                 meta_bypassBlock := false |})])
    = Some meta'
    ∧ capturedNow 0 false 1000 (1, meta') = true.
Proof.
  destruct (X8_specific_trigger_never_delays_an_entry keyAndAllStore
              (Single (KStr "a")) (Some 2000%Z) false 1
              {| meta_keys := Some ["a"]; meta_throttledUntil := None;
                 meta_bypassBlock := false |}
              [(1, {| meta_keys := Some ["a"]; meta_throttledUntil := None;
                      meta_bypassBlock := false |})]
              eq_refl eq_refl) as (meta' & Hget & Hcap).
  exists meta'. split; [done |]. by apply Hcap.
Defined.

(** X9.  Whom an all-keys trigger reaches.  The registration phase of
    [trigger()] gives every callback subscribed to the store under any key
    (explicitly or by an auto-subscription record) an all-keys entry, the
    same entry as one call of [_setupAllKeySubscription] would, however
    many keys the callback is subscribed to; a callback that had no entry
    gets the trigger's due-time and bypass flag.  The entry, or the absence
    of an entry, of every callback not subscribed to the store is
    untouched.  The keys of a registry object are distinct in every store
    ([exec_keysDistinct]). *)
Theorem X9_all_keys_trigger_reaches_every_subscriber this keyOrKeys
    throttledUntil bypassBlock callback (pending : CallbackMap) :
  keysDistinct this →
  allKeysBranch keyOrKeys = true →
  let pending' :=
    triggerRegister this keyOrKeys throttledUntil bypassBlock pending in
  ((∃ key, listens this key callback) →
   allKeysEntry callback pending'
   ∧ assoc_get callback pending'
     = assoc_get callback
         (_setupAllKeySubscription callback throttledUntil bypassBlock pending)
   ∧ (assoc_get callback pending = None →
      assoc_get callback pending'
      = Some {| meta_keys := None; meta_throttledUntil := throttledUntil;
                meta_bypassBlock := bypassBlock |}))
  ∧ (¬ (∃ key, listens this key callback) →
     assoc_get callback pending' = assoc_get callback pending).
Proof.
  intros Hnd Hbranch pending'. subst pending'. unfold triggerRegister.
  rewrite Hbranch.
  destruct (triggerAllKeys_spec this throttledUntil bypassBlock callback
              pending Hnd) as [Hin Hout].
  split; [|done]. intros Hl. specialize (Hin Hl).
  split_and!; [| done |].
  - unfold allKeysEntry. rewrite Hin. unfold _setupAllKeySubscription.
    eexists. split; [apply assoc_get_set_eq |].
    destruct (assoc_get callback pending) as [e|]; [|done].
    destruct throttledUntil as [t|]; [|by destruct (meta_bypassBlock e)].
    destruct (meta_throttledUntil e) as [et|];
      [destruct (_ && _) |]; by destruct (meta_bypassBlock e).
  - intros Hnone. rewrite Hin. unfold _setupAllKeySubscription.
    rewrite Hnone. apply assoc_get_set_eq.
Qed.

(** On the store where callback 1 listens to "a" and callback 2 to every
    key, [trigger()] with a due-time of 2000 gives callback 1 an all-keys
    entry with that due-time. *)
Lemma X9_witness :
  assoc_get 1 (triggerRegister keyAndAllStore Undefined (Some 2000%Z) false [])
  = Some {| meta_keys := None; meta_throttledUntil := Some 2000%Z;
            meta_bypassBlock := false |}.
Proof.
  apply (X9_all_keys_trigger_reaches_every_subscriber keyAndAllStore Undefined
           (Some 2000%Z) false 1 []).
  - split; apply (bool_decide_unpack _); vm_compute; exact I.
  - reflexivity.
  - exists "a". left. vm_compute. apply list_elem_of_here.
  - reflexivity.
Defined.

(** ** Callbacks that make no calls *)

Lemma invokeCallbacks_silent_exact behaviour resolve callbacks w :
  (∀ c keys v, behaviour c keys v = []) →
  invokeCallbacks behaviour resolve callbacks w
  = Ok {| stores := stores w; _triggerPending := _triggerPending w;
          _isTriggering := _isTriggering w;
          _triggerBlockCount := _triggerBlockCount w;
          _bypassThrottle := _bypassThrottle w;
          derived_triggerBlockCount := derived_triggerBlockCount w;
          derived_bypassThrottle := derived_bypassThrottle w;
          _pendingCallbacks := _pendingCallbacks w;
          defaultThrottleMs := defaultThrottleMs w; dateNow := dateNow w;
          nextTimerId := nextTimerId w;
          trace := trace w ++ map invocation callbacks |}.
Proof.
  intros Hsilent. revert w.
  induction callbacks as [|[c keys] callbacks IH]; intros w; simpl.
  - rewrite app_nil_r. by destruct w.
  - rewrite Hsilent. simpl. rewrite IH. simpl.
    by rewrite <- app_assoc.
Qed.

Lemma _resolveCallbacks_silent_exact behaviour fuel w :
  (∀ c keys v, behaviour c keys v = []) →
  _isTriggering w = false →
  _resolveCallbacks behaviour (S fuel) w
  = Ok {| stores := stores w; _triggerPending := false;
          _isTriggering := false;
          _triggerBlockCount := _triggerBlockCount w;
          _bypassThrottle := _bypassThrottle w;
          derived_triggerBlockCount := derived_triggerBlockCount w;
          derived_bypassThrottle := derived_bypassThrottle w;
          _pendingCallbacks := (capturedBy w).2;
          defaultThrottleMs := defaultThrottleMs w; dateNow := dateNow w;
          nextTimerId := nextTimerId w;
          trace := trace w
                   ++ BeginInvokeStoreCallbacks
                      :: map invocation (capturedBy w).1
                      ++ [EndInvokeStoreCallbacks 0] |}.
Proof.
  intros Hsilent Htr. simpl. rewrite Htr.
  unfold resolverPass, capturedBy. simpl.
  destruct (captureCallbacks _ _ _ _) as [callbacks pending].
  rewrite invokeCallbacks_silent_exact by done. simpl.
  unfold set_isTriggering, emit. simpl. by rewrite <- !app_assoc.
Qed.

Lemma captured_once (pending : CallbackMap)
    (P : SubscriptionCallbackFunction * CallbackMetadata → bool) callback :
  NoDup (map fst pending) →
  filter (invocationOf callback)
    (map invocation (map delivery (filter (λ e, P e) pending)))
  = match assoc_get callback pending with
    | Some meta =>
        if P (callback, meta)
        then [CallbackInvoked callback (uniquedKeys meta)] else []
    | None => []
    end.
Proof.
  induction pending as [|[c m] l IH]; [done |].
  simpl. intros [Hc Hnd]%NoDup_cons. specialize (IH Hnd).
  rewrite filter_cons. destruct (decide (c = callback)) as [->|Hne].
  - apply assoc_get_None in Hc. rewrite Hc in IH.
    destruct (P (callback, m)) eqn:HP; simpl.
    + rewrite filter_cons. simpl. rewrite bool_decide_eq_true_2 by done.
      simpl. by rewrite IH.
    + done.
  - destruct (decide (P (c, m))); [|done].
    simpl. rewrite filter_cons. simpl.
    rewrite bool_decide_eq_false_2 by done. done.
Qed.

(** The resolver with callbacks that make no calls: how often a callback
    is invoked, and what stays in the table. *)
Lemma silent_delivery behaviour fuel w callback :
  (∀ c keys v, behaviour c keys v = []) →
  _isTriggering w = false →
  NoDup (map fst (_pendingCallbacks w)) →
  ∃ w',
    _resolveCallbacks behaviour (S fuel) w = Ok w'
    ∧ filter (invocationOf callback) (events_since w w')
      = match assoc_get callback (_pendingCallbacks w) with
        | Some meta =>
            if capturedNow (_triggerBlockCount w) (_bypassThrottle w)
                 (dateNow w) (callback, meta)
            then [CallbackInvoked callback (uniquedKeys meta)] else []
        | None => []
        end
    ∧ _pendingCallbacks w'
      = filter (λ e, ¬ capturedNow (_triggerBlockCount w) (_bypassThrottle w)
                         (dateNow w) e) (_pendingCallbacks w)
    ∧ resolverOwn w w'
    ∧ _isTriggering w' = false
    ∧ ∃ evs, trace w' = trace w ++ evs ∧ events_since w w' = evs.
Proof.
  intros Hsilent Htr Hnd. eexists. split.
  { by apply _resolveCallbacks_silent_exact. }
  unfold capturedBy. rewrite captureCallbacks_spec by done. simpl.
  split_and!; [| done | done | done |].
  - erewrite events_since_app; [|reflexivity].
    rewrite filter_invocationOf_pass. by apply captured_once.
  - eexists. split; [reflexivity |]. by apply events_since_app.
Qed.

(** X10.  With callbacks that make no calls of their own, the resolver
    called from outside a pass runs exactly one pass and returns, whatever
    the (positive) fuel: it never fails and never goes round again.  The
    pass captures what [captureCallbacks] selects at that moment, invokes
    those callbacks in order between the two instrumentation marks, leaves
    the skipped entries in the table, and clears both flags; nothing else
    in the world changes. *)
Theorem X10_silent_callbacks_one_pass behaviour fuel w :
  (∀ c keys v, behaviour c keys v = []) →
  _isTriggering w = false →
  _resolveCallbacks behaviour (S fuel) w
  = Ok {| stores := stores w; _triggerPending := false;
          _isTriggering := false;
          _triggerBlockCount := _triggerBlockCount w;
          _bypassThrottle := _bypassThrottle w;
          derived_triggerBlockCount := derived_triggerBlockCount w;
          derived_bypassThrottle := derived_bypassThrottle w;
          _pendingCallbacks := (capturedBy w).2;
          defaultThrottleMs := defaultThrottleMs w; dateNow := dateNow w;
          nextTimerId := nextTimerId w;
          trace := trace w
                   ++ BeginInvokeStoreCallbacks
                      :: map invocation (capturedBy w).1
                      ++ [EndInvokeStoreCallbacks 0] |}.
Proof. apply _resolveCallbacks_silent_exact. Qed.

(** In the blocked sample world one pass delivers callbacks 1 and 4, which
    bypass the block and are due, and returns. *)
Lemma X10_witness :
  trace (worldOf (_resolveCallbacks quiet 1 blockedWorld) blockedWorld)
  = [BeginInvokeStoreCallbacks; CallbackInvoked 1 (Some ["a"; "b"]);
     CallbackInvoked 4 None; EndInvokeStoreCallbacks 0].
Proof.
  rewrite (X10_silent_callbacks_one_pass quiet 0 blockedWorld
             (λ _ _ _, eq_refl) eq_refl).
  vm_compute. reflexivity.
Defined.

(** ** A throttled trigger, from the call to the delivery *)

(** A callback that the trigger reaches and that had no entry gets one
    that carries the trigger's due-time and bypass flag. *)
Lemma triggerRegister_fresh this keyOrKeys throttledUntil bypassBlock callback
    (pending : CallbackMap) :
  keysDistinct this →
  reached this keyOrKeys callback →
  assoc_get callback pending = None →
  ∃ meta,
    assoc_get callback
      (triggerRegister this keyOrKeys throttledUntil bypassBlock pending)
    = Some meta
    ∧ carries throttledUntil bypassBlock (Some meta).
Proof.
  intros Hnd Hreached Hnone. unfold reached in Hreached.
  unfold triggerRegister. destruct (allKeysBranch keyOrKeys).
  - destruct (triggerAllKeys_spec this throttledUntil bypassBlock callback
                pending Hnd) as [Hin _].
    rewrite (Hin Hreached). unfold _setupAllKeySubscription.
    rewrite Hnone, assoc_get_set_eq. eexists. split; [done |].
    intros m [= <-]. by split_and!.
  - destruct (triggerSpecificKeys_grown this (normalizedKeys keyOrKeys)
                throttledUntil bypassBlock callback pending)
      as (_ & Htouched & _).
    destruct (Htouched Hreached) as [meta Hget]. exists meta.
    split; [done |]. rewrite <- Hget.
    apply triggerSpecificKeys_carries. rewrite Hnone. by intros m.
Qed.

Lemma triggerThrottle_starts store this w ms :
  _throttleMs this = Some ms → ms ≠ 0%Z → _throttleData this = None →
  triggerThrottle store this w
  = (set_throttleData (Some (nextTimerId w, (dateNow w + ms)%Z)) this,
     emit (SetTimeout store (Some ms) (nextTimerId w))
       (set_nextTimerId (nextTimerId w + 1) w),
     Some (dateNow w + ms)%Z).
Proof.
  intros Hms Hnz Hnone. unfold triggerThrottle. rewrite Hms, Hnone. simpl.
  by destruct (Z.eqb_spec ms 0).
Qed.

(** X11.  A throttled trigger, end to end.  A store constructed with a
    throttle of [ms] > 0 (no timer running, no bypass) is triggered while
    nothing blocks delivery; the callbacks make no calls of their own.
    The trigger itself starts one timer of [ms] and delivers nothing: no
    pass is run.  When the timer later fires, a callback that the trigger
    reached and that had no other entry is invoked exactly once, with
    the keys of its entry, if at least [ms] have elapsed on the clock, and
    not at all if the timer fires early; in both cases the store has no
    timer afterwards. *)
Theorem X11_throttled_trigger_waits_for_the_timer behaviour fuel store this
    keyOrKeys callback ms (elapsed : N) w :
  (∀ c keys v, behaviour c keys v = []) →
  stores w !! store = Some this →
  keysDistinct this →
  _throttleMs this = Some ms → (0 < ms)%Z →
  _throttleData this = None →
  _bypassTriggerBlocks this = false →
  _isTriggering w = false →
  _triggerBlockCount w = 0%Z →
  _bypassThrottle w = false →
  (0 ≤ dateNow w)%Z →
  NoDup (map fst (_pendingCallbacks w)) →
  reached this keyOrKeys callback →
  assoc_get callback (_pendingCallbacks w) = None →
  ∃ w1 w2 this2 meta,
    exec behaviour fuel [Trigger store keyOrKeys] w = Ok w1
    ∧ events_since w w1 = [SetTimeout store (Some ms) (nextTimerId w)]
    ∧ assoc_get callback (_pendingCallbacks w1) = Some meta
    ∧ meta_throttledUntil meta = Some (dateNow w + ms)%Z
    ∧ exec behaviour (S fuel) [Elapse elapsed; TimerFires store] w1 = Ok w2
    ∧ filter (invocationOf callback) (events_since w1 w2)
      = (if (ms <=? Z.of_N elapsed)%Z
         then [CallbackInvoked callback (uniquedKeys meta)] else [])
    ∧ stores w2 !! store = Some this2
    ∧ _throttleData this2 = None.
Proof.
  intros Hsilent Hthis Hkd Hms Hpos Hdata Hbypass Htr Hcount Hbt Hnow Hnd
    Hreached Hnone.
  set (due := (dateNow w + ms)%Z).
  set (this1 := set_throttleData (Some (nextTimerId w, due)) this).
  set (pending1 :=
         triggerRegister this keyOrKeys (Some due) false (_pendingCallbacks w)).
  set (w1 := set_pendingCallbacks pending1
               (putStore store this1
                  (emit (SetTimeout store (Some ms) (nextTimerId w))
                     (set_nextTimerId (nextTimerId w + 1) w)))).
  assert (exec behaviour fuel [Trigger store keyOrKeys] w = Ok w1) as Hexec1.
  { unfold exec. simpl. unfold trigger, getStore, bind. rewrite Hthis.
    rewrite (triggerThrottle_starts store this w ms) by (done || lia).
    simpl. rewrite Hbypass. fold due.
    destruct (Z.eqb_spec due 0) as [Hz|_]; [subst due; lia |]. done. }
  set (w3 := putStore store (set_throttleData None this1)
               (set_dateNow (dateNow w1 + Z.of_N elapsed)%Z w1)).
  assert (stores w1 !! store = Some this1) as Hthis1.
  { subst w1. simpl. by eapply list_lookup_insert_eq, lookup_lt_Some. }
  assert (NoDup (map fst (_pendingCallbacks w3))) as Hnd3.
  { subst w3 w1 pending1. simpl. by apply triggerRegister_keys. }
  destruct (silent_delivery behaviour fuel w3 callback Hsilent Htr Hnd3)
    as (w2 & Hres & Hinv & _ & (Hst & _) & _).
  destruct (triggerRegister_fresh this keyOrKeys (Some due) false callback
              (_pendingCallbacks w) Hkd Hreached Hnone)
    as (meta & Hget & Hcar).
  destruct (Hcar _ eq_refl) as (Hb & Hdue & _).
  assert (truthy (Some due) = true) as Htruthy.
  { simpl. destruct (Z.eqb_spec due 0) as [Hz|_]; [subst due; lia | done]. }
  specialize (Hdue Htruthy).
  exists w1, w2, (set_throttleData None this1), meta. split_and!.
  - done.
  - apply events_since_app. subst w1. simpl. done.
  - exact Hget.
  - exact Hdue.
  - unfold exec. cbn [run step bind].
    unfold _handleThrottledCallbacks, getStore.
    change (stores (set_dateNow _ w1)) with (stores w1). rewrite Hthis1.
    cbn [bind]. fold w3. by rewrite Hres.
  - replace (events_since w1 w2) with (events_since w3 w2)
      by (unfold events_since; done).
    rewrite Hinv. subst w3 w1. simpl. fold pending1. unfold pending1.
    rewrite Hget. unfold capturedNow, stillThrottled. simpl.
    rewrite Hcount, Hbt, Hb, Hdue. simpl.
    destruct (Z.eqb_spec due 0) as [Hz|_]; [subst due; lia |]. simpl.
    subst due.
    destruct (Z.ltb_spec (dateNow w + Z.of_N elapsed) (dateNow w + ms));
      destruct (Z.leb_spec ms (Z.of_N elapsed)); simpl; (done || lia).
  - rewrite Hst. subst w3. simpl.
    by eapply list_lookup_insert_eq, lookup_lt_Some.
  - done.
Qed.

(** Store 0 is throttled by 500 ms and triggers "a" at time 1000: a timer
    of 500 is started and callback 1 is not invoked; the timer fires 600
    ms later and callback 1 is invoked once. *)
Lemma X11_witness :
  ∃ w1 w2 this2 meta,
    exec quiet 0 [Trigger 0 (Single (KStr "a"))] throttledStoreWorld = Ok w1
    ∧ events_since throttledStoreWorld w1
      = [SetTimeout 0 (Some 500%Z) (nextTimerId throttledStoreWorld)]
    ∧ assoc_get 1 (_pendingCallbacks w1) = Some meta
    ∧ meta_throttledUntil meta = Some (dateNow throttledStoreWorld + 500)%Z
    ∧ exec quiet 1 [Elapse 600; TimerFires 0] w1 = Ok w2
    ∧ filter (invocationOf 1) (events_since w1 w2)
      = (if (500 <=? Z.of_N 600)%Z
         then [CallbackInvoked 1 (uniquedKeys meta)] else [])
    ∧ stores w2 !! 0 = Some this2
    ∧ _throttleData this2 = None.
Proof.
  eassert (stores throttledStoreWorld !! 0 = Some _) as Hthis
    by (vm_compute; reflexivity).
  apply (X11_throttled_trigger_waits_for_the_timer quiet 0 0 _
           (Single (KStr "a")) 1 500 600 throttledStoreWorld
           (λ _ _ _, eq_refl) Hthis);
    try (vm_compute; reflexivity).
  - split; apply (bool_decide_unpack _); vm_compute; exact I.
  - vm_compute. discriminate.
  - apply (bool_decide_unpack _). vm_compute. exact I.
  - left. exists "a". split; [apply list_elem_of_here |].
    left. vm_compute. apply list_elem_of_here.
Defined.

(** ** Triggers inside a trigger block *)

Lemma _setupAllKeySubscription_carries callback' callback throttledUntil
    bypassBlock (pending : CallbackMap) :
  carries throttledUntil bypassBlock (assoc_get callback pending) →
  carries throttledUntil bypassBlock
    (assoc_get callback
       (_setupAllKeySubscription callback' throttledUntil bypassBlock pending)).
Proof.
  intros Hc. destruct (decide (callback' = callback)) as [->|Hne].
  - unfold _setupAllKeySubscription. rewrite assoc_get_set_eq.
    intros m [= <-].
    destruct (assoc_get callback pending) as [[ks et b]|];
      [|by split_and!].
    destruct (Hc _ eq_refl) as (Hb & Hdue & Himm).
    unfold immediate, truthy in *. simpl in Hb, Hdue, Himm. subst b.
    destruct throttledUntil as [t|], et as [et|], bypassBlock; simpl in *;
      repeat match goal with
             | H : context [(?x =? 0)%Z] |- _ =>
                 destruct (Z.eqb_spec x 0); simpl in *
             | |- context [(?x =? 0)%Z] =>
                 destruct (Z.eqb_spec x 0); simpl in *
             end;
      try (specialize (Hdue eq_refl)); try (specialize (Himm eq_refl));
      simplify_eq; rewrite ?Z.min_id;
      repeat match goal with
             | |- context [(?x =? 0)%Z] =>
                 destruct (Z.eqb_spec x 0); simpl in *
             end;
      by split_and!.
  - by rewrite _setupAllKeySubscription_other.
Qed.

Lemma triggerRegister_carries this keyOrKeys throttledUntil bypassBlock callback
    (pending : CallbackMap) :
  carries throttledUntil bypassBlock (assoc_get callback pending) →
  carries throttledUntil bypassBlock
    (assoc_get callback
       (triggerRegister this keyOrKeys throttledUntil bypassBlock pending)).
Proof.
  intros Hc. unfold triggerRegister. destruct (allKeysBranch keyOrKeys).
  - unfold triggerAllKeys.
    do 2 (apply (forEach_preserves
                   (λ p : CallbackMap,
                      carries throttledUntil bypassBlock
                        (assoc_get callback p)));
          [intros; by apply _setupAllKeySubscription_carries |]).
    done.
  - by apply triggerSpecificKeys_carries.
Qed.

(** An entry, once in the table, stays through any registration. *)
Lemma triggerRegister_keeps this keyOrKeys throttledUntil bypassBlock callback
    (pending : CallbackMap) :
  is_Some (assoc_get callback pending) →
  is_Some (assoc_get callback
             (triggerRegister this keyOrKeys throttledUntil bypassBlock
                pending)).
Proof.
  assert (∀ c' (p : CallbackMap),
            is_Some (assoc_get callback p) →
            is_Some (assoc_get callback
                       (_setupAllKeySubscription c' throttledUntil bypassBlock
                          p))) as Hall.
  { intros c' p Hp. destruct (decide (c' = callback)) as [->|Hne].
    - unfold _setupAllKeySubscription. rewrite assoc_get_set_eq. by eexists.
    - by rewrite _setupAllKeySubscription_other. }
  intros Hs. unfold triggerRegister. destruct (allKeysBranch keyOrKeys).
  - unfold triggerAllKeys.
    do 2 (apply (forEach_preserves
                   (λ p : CallbackMap, is_Some (assoc_get callback p)));
          [intros; by apply Hall |]).
    done.
  - destruct Hs as [m Hm].
    destruct (triggerSpecificKeys_grown this (normalizedKeys keyOrKeys)
                throttledUntil bypassBlock callback pending)
      as (_ & _ & Hh & _).
    destruct (Hh _ Hm) as (m' & -> & _). by eexists.
Qed.

Lemma assoc_get_filter {K V} `{EqDecision K} (P : K * V → Prop)
    `{∀ e, Decision (P e)} (m : list (K * V)) k v :
  assoc_get k m = Some v → P (k, v) → assoc_get k (filter P m) = Some v.
Proof.
  induction m as [|[k0 v0] m IH]; simpl; [done |].
  destruct (decide (k0 = k)) as [->|Hne].
  - intros [= ->] HP. rewrite filter_cons. rewrite decide_True by done.
    simpl. by rewrite decide_True.
  - intros Hget HP. rewrite filter_cons.
    destruct (decide (P (k0, v0))); [|by apply IH].
    simpl. rewrite decide_False by done. by apply IH.
Qed.

Lemma assoc_get_filter_Some {K V} `{EqDecision K} (P : K * V → Prop)
    `{∀ e, Decision (P e)} (m : list (K * V)) k v :
  NoDup (map fst m) →
  assoc_get k (filter P m) = Some v → assoc_get k m = Some v.
Proof.
  intros Hnd Hget. apply assoc_get_Some_elem in Hget.
  apply list_elem_of_filter in Hget as [_ Hin].
  by apply assoc_get_elem_NoDup.
Qed.

Lemma NoDup_fst_filter {K V} (P : K * V → Prop) `{∀ e, Decision (P e)}
    (m : list (K * V)) :
  NoDup (map fst m) → NoDup (map fst (filter P m)).
Proof.
  induction m as [|[k v] m IH]; [done |]. simpl.
  intros [Hk Hnd]%NoDup_cons. rewrite filter_cons.
  destruct (decide (P (k, v))); [|by apply IH].
  simpl. apply NoDup_cons. split; [|by apply IH].
  intros Hin. apply Hk.
  change (k ∈ fst <$> filter P m) in Hin.
  apply list_elem_of_fmap in Hin as ([k' v'] & -> & Hin).
  apply list_elem_of_filter in Hin as [_ Hin].
  change (k' ∈ fst <$> m). apply list_elem_of_fmap. by exists (k', v').
Qed.

Lemma triggerThrottle_off store this w :
  truthy (match _throttleMs this with
          | Some ms => Some ms
          | None => defaultThrottleMs w
          end) = false →
  triggerThrottle store this w = (this, w, None).
Proof.
  unfold triggerThrottle.
  destruct (match _throttleMs this with Some ms => _ | None => _ end)
    as [ms|]; [|done].
  by intros ->.
Qed.

(** With nothing pending before, the keys handed over on delivery are the
    keys that were added. *)
Lemma fresh_keys meta (touched : Prop) (added : string → Prop) :
  grown None (Some meta) touched added →
  ∃ delivered,
    uniquedKeys meta = Some delivered
    ∧ NoDup delivered
    ∧ ∀ key, key ∈ delivered ↔ added key.
Proof.
  intros (_ & _ & _ & Hall & Hkey). unfold uniquedKeys.
  destruct (meta_keys meta) as [ks|] eqn:Hks.
  - exists (uniq ks). split_and!; [done | apply uniq_NoDup |].
    intros key. rewrite uniq_elem_of.
    assert (key ∈ ks ↔ holdsKey (Some meta) key) as ->.
    { split.
      - intros Hin. by exists meta, ks.
      - intros (m & ks' & [= <-] & Hks' & Hin). congruence. }
    rewrite Hkey. split.
    + intros [_ [(m & ks' & ? & _)|Ha]]; done.
    + intros Ha. split; [by intros (m & ? & _) | by right].
  - exfalso. assert (holdsAll None) as (m & ? & _); [|done].
    apply Hall. by exists meta.
Qed.

Lemma blocked_trigger behaviour fuel store this keyOrKeys callback w v :
  (∀ c keys u, behaviour c keys u = []) →
  keysDistinct this →
  truthy (match _throttleMs this with
          | Some ms => Some ms
          | None => defaultThrottleMs w
          end) = false →
  _bypassTriggerBlocks this = false →
  heldInBlock store this callback w v →
  ∃ v',
    step (_resolveCallbacks behaviour (S fuel)) (Trigger store keyOrKeys) v
    = Ok v'
    ∧ heldInBlock store this callback w v'
    ∧ assoc_get callback (_pendingCallbacks v')
      = assoc_get callback
          (triggerRegister this keyOrKeys None false (_pendingCallbacks v)).
Proof.
  intros Hsilent Hkd Hoff Hbypass
    (Hthis & Hdef & Htr & Hcount & Hnd & Hcar & evs & Hevs & Hquiet).
  set (pending1 :=
         triggerRegister this keyOrKeys None false (_pendingCallbacks v)).
  set (v1 := set_pendingCallbacks pending1 v).
  assert (NoDup (map fst (_pendingCallbacks v1))) as Hnd1
    by by apply triggerRegister_keys.
  assert (carries None false (assoc_get callback pending1)) as Hcar1
    by by apply triggerRegister_carries.
  destruct (silent_delivery behaviour fuel v1 callback Hsilent Htr Hnd1)
    as (v' & Hres & Hinv & Hpend & (Hst & Hbc & _ & Hd & _) & Htr'
        & evs' & Hevs' & Hsince).
  assert (∀ meta, assoc_get callback pending1 = Some meta →
            capturedNow (_triggerBlockCount v1) (_bypassThrottle v1)
              (dateNow v1) (callback, meta) = false) as Hheld.
  { intros meta Hget. destruct (Hcar1 _ Hget) as (Hb & _).
    unfold capturedNow. simpl. by rewrite Hcount, Hb. }
  assert (assoc_get callback (_pendingCallbacks v')
          = assoc_get callback pending1) as Hsame.
  { rewrite Hpend.
    destruct (assoc_get callback pending1) as [meta|] eqn:Hget.
    - apply assoc_get_filter; [done |].
      rewrite (Hheld _ eq_refl). by intros [].
    - destruct (assoc_get callback (filter _ _)) as [m|] eqn:Hf; [|done].
      apply assoc_get_filter_Some in Hf; [|done].
      change (_pendingCallbacks v1) with pending1 in Hf. congruence. }
  exists v'. split_and!; [| | done].
  - simpl. unfold trigger, getStore, bind. rewrite Hthis.
    rewrite triggerThrottle_off by (by rewrite Hdef).
    simpl. rewrite Hbypass. simpl.
    replace (putStore store this v) with v; [exact Hres |].
    unfold putStore. rewrite list_insert_id by done. by destruct v.
  - split_and!.
    + by rewrite Hst.
    + by rewrite Hd.
    + done.
    + by rewrite Hbc.
    + rewrite Hpend. by apply NoDup_fst_filter.
    + by rewrite Hsame.
    + exists (evs ++ evs'). split.
      * rewrite Hevs'. simpl. by rewrite Hevs, app_assoc.
      * rewrite filter_app, Hquiet. simpl.
        rewrite <- Hsince, Hinv. simpl. fold pending1.
        destruct (assoc_get callback pending1) as [meta|]; [|done].
        pose proof (Hheld _ eq_refl) as Hh. simpl in Hh. by rewrite Hh.
Qed.

Lemma blocked_triggers behaviour fuel store this triggers callback w v :
  (∀ c keys u, behaviour c keys u = []) →
  keysDistinct this →
  truthy (match _throttleMs this with
          | Some ms => Some ms
          | None => defaultThrottleMs w
          end) = false →
  _bypassTriggerBlocks this = false →
  heldInBlock store this callback w v →
  ∃ v',
    run (_resolveCallbacks behaviour (S fuel)) (map (Trigger store) triggers) v
    = Ok v'
    ∧ heldInBlock store this callback w v'
    ∧ (is_Some (assoc_get callback (_pendingCallbacks v))
       ∨ (∃ keyOrKeys, keyOrKeys ∈ triggers ∧ reached this keyOrKeys callback) →
       is_Some (assoc_get callback (_pendingCallbacks v')))
    ∧ ((∀ keyOrKeys, keyOrKeys ∈ triggers → allKeysBranch keyOrKeys = false) →
       grown (assoc_get callback (_pendingCallbacks v))
         (assoc_get callback (_pendingCallbacks v'))
         (∃ keyOrKeys, keyOrKeys ∈ triggers
                       ∧ affectedBy this (normalizedKeys keyOrKeys) callback)
         (λ key, ∃ keyOrKeys,
                   keyOrKeys ∈ triggers
                   ∧ key ∈ normalizedKeys keyOrKeys
                   ∧ (listens this key callback
                      ∨ listens this Key_All callback))).
Proof.
  intros Hsilent Hkd Hoff Hbypass. revert v.
  induction triggers as [|keyOrKeys triggers IH]; intros v Hheld.
  - exists v. split_and!; [done | done | |].
    + intros [Hs|(k & ?%elem_of_nil & _)]; done.
    + intros _. eapply grown_iff; [apply grown_refl | |].
      * split; [done |]. by intros (k & ?%elem_of_nil & _).
      * intros key. split; [done |]. by intros (k & ?%elem_of_nil & _).
  - destruct (blocked_trigger behaviour fuel store this keyOrKeys callback w v
                Hsilent Hkd Hoff Hbypass Hheld) as (v1 & Hstep & Hheld1 & Hs1).
    destruct (IH v1 Hheld1) as (v' & Hrun & Hheld' & Hs' & Hg').
    exists v'. split_and!; [| done | |].
    + cbn [map run]. rewrite Hstep. exact Hrun.
    + intros Hor. apply Hs'.
      destruct Hor as [Hs|(k & [->|Hin]%elem_of_cons & Hreached)].
      * left. rewrite Hs1. by apply triggerRegister_keeps.
      * left. rewrite Hs1.
        destruct (assoc_get callback (_pendingCallbacks v)) as [m|] eqn:Hv.
        -- apply triggerRegister_keeps. rewrite Hv. by eexists.
        -- destruct (triggerRegister_fresh this keyOrKeys None false callback
                       (_pendingCallbacks v) Hkd Hreached Hv) as (m & -> & _).
           by eexists.
      * right. by exists k.
    + intros Hspecific.
      assert (allKeysBranch keyOrKeys = false) as Hb
        by (apply Hspecific; left).
      pose proof (triggerSpecificKeys_grown this (normalizedKeys keyOrKeys)
                    None false callback (_pendingCallbacks v)) as Hg1.
      assert (triggerRegister this keyOrKeys None false (_pendingCallbacks v)
              = triggerSpecificKeys this (normalizedKeys keyOrKeys) None false
                  (_pendingCallbacks v)) as Hreg
        by (unfold triggerRegister; by rewrite Hb).
      rewrite <- Hreg, <- Hs1 in Hg1.
      eapply grown_iff;
        [exact (grown_trans _ _ _ _ _ _ _ Hg1
                  (Hg' (λ k Hk, Hspecific k (list_elem_of_further _ _ _ Hk))))
        | |].
      * split.
        -- intros [Ha|(k & Hin & Ha)]; [exists keyOrKeys | exists k];
             (split; [|done]); [left | by right].
        -- intros (k & [->|Hin]%elem_of_cons & Ha); [by left |].
           right. by exists k.
      * intros key. simpl. split.
        -- intros [[Hk Hl]|(k & Hin & Hk & Hl)]; [exists keyOrKeys | exists k];
             (split_and!; [| done | done]); [left | by right].
        -- intros (k & [->|Hin]%elem_of_cons & Hk & Hl); [by left |].
           right. by exists k.
Qed.


(** ** Switching throttling off *)

(** X13.  [setThrottleStatus(false)] delivers what throttling held back.
    Called on [StoreBase] from outside a pass, with callbacks that make no
    calls of their own, it sets the throttle bypass and runs one pass in
    which due-times do not count: every pending callback is invoked exactly
    once, with the keys of its entry and whatever its due-time, unless the
    block gate holds it (positive block counter and no bypass flag), and
    exactly the entries held by the block gate stay in the table.  With no
    block open the table is empty afterwards.  Called on a class derived
    from [StoreBase], the assignment [this._bypassThrottle = !enabled]
    creates a static field of that class and the flag that the resolver
    reads is left as it was: the pass that follows is an ordinary one, in
    which an entry whose due-time lies ahead stays throttled. *)
Theorem X13_setThrottleStatus_false_flushes behaviour fuel w callback :
  (∀ c keys v, behaviour c keys v = []) →
  _isTriggering w = false →
  NoDup (map fst (_pendingCallbacks w)) →
  (∃ w',
     setThrottleStatus (_resolveCallbacks behaviour (S fuel)) [] false w
     = Ok w'
     ∧ _bypassThrottle w' = true
     ∧ filter (invocationOf callback) (events_since w w')
       = match assoc_get callback (_pendingCallbacks w) with
         | Some meta =>
             if heldByBlock (_triggerBlockCount w) meta then []
             else [CallbackInvoked callback (uniquedKeys meta)]
         | None => []
         end
     ∧ _pendingCallbacks w'
       = filter (λ e, heldByBlock (_triggerBlockCount w) e.2)
           (_pendingCallbacks w)
     ∧ (_triggerBlockCount w = 0%Z → _pendingCallbacks w' = []))
  ∧ ∀ class ancestors,
      ∃ w',
        setThrottleStatus (_resolveCallbacks behaviour (S fuel))
          (class :: ancestors) false w
        = Ok w'
        ∧ _bypassThrottle w' = _bypassThrottle w
        ∧ derived_bypassThrottle w' !! class = Some true
        ∧ filter (invocationOf callback) (events_since w w')
          = match assoc_get callback (_pendingCallbacks w) with
            | Some meta =>
                if capturedNow (_triggerBlockCount w) (_bypassThrottle w)
                     (dateNow w) (callback, meta)
                then [CallbackInvoked callback (uniquedKeys meta)]
                else []
            | None => []
            end
        ∧ _pendingCallbacks w'
          = filter (λ e, ¬ capturedNow (_triggerBlockCount w)
                           (_bypassThrottle w) (dateNow w) e)
              (_pendingCallbacks w).
Proof.
  intros Hsilent Htr Hnd. split.
  - set (w1 := set_bypassThrottle true w).
    destruct (silent_delivery behaviour fuel w1 callback Hsilent Htr Hnd)
      as (w' & Hres & Hinv & Hpend & (_ & _ & Hbt & _) & _).
    assert (∀ e, capturedNow (_triggerBlockCount w1) (_bypassThrottle w1)
                   (dateNow w1) e
                 = negb (heldByBlock (_triggerBlockCount w) e.2)) as Hgate.
    { intros e. unfold capturedNow, heldByBlock. simpl.
      by rewrite andb_false_r, andb_true_r. }
    assert (_pendingCallbacks w'
            = filter (λ e, heldByBlock (_triggerBlockCount w) e.2)
                (_pendingCallbacks w)) as Hleft.
    { rewrite Hpend. apply list_filter_iff. intros e. rewrite Hgate.
      destruct (heldByBlock _ _); simpl; intuition. }
    exists w'. split_and!; [exact Hres | by rewrite Hbt | | done |].
    + replace (events_since w w') with (events_since w1 w')
        by (unfold events_since; done).
      rewrite Hinv.
      change (_pendingCallbacks w1) with (_pendingCallbacks w).
      destruct (assoc_get callback (_pendingCallbacks w)) as [meta|]; [|done].
      rewrite (Hgate (callback, meta)). simpl. by destruct (heldByBlock _ _).
    + intros Hzero. rewrite Hleft. unfold heldByBlock. rewrite Hzero. simpl.
      clear. induction (_pendingCallbacks w) as [|e l IH]; [done |].
      rewrite filter_cons. by rewrite decide_False by (intros []).
  - intros class ancestors.
    set (w1 := set_derived_bypassThrottle
                 (<[class := true]> (derived_bypassThrottle w)) w).
    destruct (silent_delivery behaviour fuel w1 callback Hsilent Htr Hnd)
      as (w' & Hres & Hinv & Hpend & (_ & _ & Hbt & _) & _).
    exists w'. split_and!; [exact Hres | by rewrite Hbt | | | done].
    + pose proof (_resolveCallbacks_silent_exact behaviour fuel w1 Hsilent Htr)
        as Hexact.
      rewrite Hres in Hexact. injection Hexact as ->. simpl.
      apply lookup_insert_eq.
    + replace (events_since w w') with (events_since w1 w')
        by (unfold events_since; done).
      by rewrite Hinv.
Qed.

(** In the sample table with the block lifted, callback 3, due only at
    2000, is invoked at time 1000 once throttling is switched off on
    [StoreBase], and the table is empty afterwards; switched off on a
    derived class, callback 3 is not invoked. *)
Lemma X13_witness :
  (∃ w',
     setThrottleStatus (_resolveCallbacks quiet 1) [] false unblockedWorld
     = Ok w'
     ∧ _bypassThrottle w' = true
     ∧ filter (invocationOf 3) (events_since unblockedWorld w')
       = [CallbackInvoked 3 (Some ["c"])]
     ∧ _pendingCallbacks w' = [])
  ∧ ∃ w',
      setThrottleStatus (_resolveCallbacks quiet 1) [0] false unblockedWorld
      = Ok w'
      ∧ _bypassThrottle w' = false
      ∧ filter (invocationOf 3) (events_since unblockedWorld w') = []
      ∧ assoc_get 3 (_pendingCallbacks w')
        = Some {| meta_keys := Some ["c"]; meta_throttledUntil := Some 2000%Z;
                  meta_bypassBlock := true |}.
Proof.
  destruct (X13_setThrottleStatus_false_flushes quiet 0 unblockedWorld 3
              (λ _ _ _, eq_refl) eq_refl)
    as [(w' & Hres & Hbt & Hinv & _ & Hempty) Hderived].
  { apply (bool_decide_unpack _). vm_compute. exact I. }
  split.
  - exists w'. split_and!; [done | done | | by apply Hempty].
    rewrite Hinv. vm_compute. reflexivity.
  - destruct (Hderived 0 []) as (w'' & Hres' & Hbt' & _ & Hinv' & Hpend').
    exists w''. split_and!; [done | by rewrite Hbt' | |].
    + rewrite Hinv'. vm_compute. reflexivity.
    + rewrite Hpend'. vm_compute. reflexivity.
Defined.

(** ** What no call changes *)

(** X14.  What is fixed at construction stays fixed.  Across every run of
    calls, re-entrant ones included, a store is never removed, its
    throttle override and its bypass flag keep the values the constructor
    gave them, and its token counter never goes down; the configured
    default throttle is never written. *)
Theorem X14_construction_settings_are_permanent behaviour fuel ops w w' store
    this :
  exec behaviour fuel ops w = Ok w' →
  stores w !! store = Some this →
  defaultThrottleMs w' = defaultThrottleMs w
  ∧ ∃ this',
      stores w' !! store = Some this'
      ∧ _throttleMs this' = _throttleMs this
      ∧ _bypassTriggerBlocks this' = _bypassTriggerBlocks this
      ∧ (_subTokenNum this ≤ _subTokenNum this')%Z.
Proof.
  intros Hexec Hthis. split.
  - apply (every_exec (λ v v', defaultThrottleMs v' = defaultThrottleMs v))
      with (5 := Hexec).
    + done.
    + intros w1 w2 w3 H12 H23. congruence.
    + intros op v p. destruct op; simpl;
        unfold subscribe, unsubscribe, trackAutoSubscription,
          removeAutoSubscription, getStore, bind, triggerThrottle,
          Options_setTimeout, pushTriggerBlock, set_this_triggerBlockCount,
          set_this_bypassThrottle;
        intros; repeat case_match; simplify_eq; done.
    + intros v v' (_ & _ & _ & Hd & _). done.
  - apply (exec_store_evolves
             (λ t t', _throttleMs t' = _throttleMs t
                      ∧ _bypassTriggerBlocks t' = _bypassTriggerBlocks t
                      ∧ (_subTokenNum t ≤ _subTokenNum t')%Z))
      with (4 := Hexec); [| | | done].
    + intros t. split_and!; [done | done | lia].
    + intros t1 t2 t3 (Hm & Hb & Hn) (Hm' & Hb' & Hn').
      split_and!; [congruence | congruence | lia].
    + intros op t t' Hafter. destruct op; simpl in Hafter; try done.
      * destruct Hafter as (_ & _ & ->). simpl.
        split_and!; [done | done | lia].
      * destruct Hafter as (key & callback & l & _ & _ & _ & ->). simpl.
        split_and!; [done | done | lia].
      * destruct Hafter as [_ ->]. simpl. split_and!; [done | done | lia].
      * destruct Hafter as (subs & _ & _ & ->). simpl.
        split_and!; [done | done | lia].
      * destruct Hafter as (td & ->). simpl. split_and!; [done | done | lia].
      * subst t'. simpl. split_and!; [done | done | lia].
Qed.

(** The throttled store is triggered and gains a subscriber: its throttle
    override is still 500 and the default is still unset. *)
Lemma X14_witness :
  let w' :=
    worldOf (exec quiet 1 [Trigger 0 (Single (KStr "a")); Subscribe 0 2 None]
               throttledStoreWorld) throttledStoreWorld in
  defaultThrottleMs w' = defaultThrottleMs throttledStoreWorld
  ∧ ∃ this',
      stores w' !! 0 = Some this'
      ∧ _throttleMs this' = Some 500%Z
      ∧ _bypassTriggerBlocks this' = false
      ∧ (2 ≤ _subTokenNum this')%Z.
Proof.
  eassert (stores throttledStoreWorld !! 0 = Some _) as Hthis
    by (vm_compute; reflexivity).
  intros w'.
  assert (exec quiet 1 [Trigger 0 (Single (KStr "a")); Subscribe 0 2 None]
            throttledStoreWorld = Ok w') as Hexec
    by (vm_compute; reflexivity).
  destruct (X14_construction_settings_are_permanent quiet 1 _ _ _ 0 _
              Hexec Hthis) as (Hd & this' & Hst & Hm & Hb & Hn).
  split; [exact Hd |]. exists this'.
  split_and!; [exact Hst | exact Hm | exact Hb | exact Hn].
Defined.

(** ** The keys a store tracks *)

Lemma isDefined_getProperty {T} (d : Dictionary T) key :
  isDefined (getProperty d key) = true
  ↔ is_Some (assoc_get key d) ∨ key ∈ prototypeNames.
Proof.
  unfold getProperty. destruct (assoc_get key d) as [value|]; simpl.
  - split; [left; by eexists | done].
  - case_bool_decide; simpl.
    + split; [by right | done].
    + split; [done | by intros [[? ?]|?]].
Qed.

Lemma listens_own this key :
  noEmptyLists (_subscriptions this) →
  noEmptyLists (_autoSubscriptions this) →
  (∃ callback, listens this key callback)
  ↔ is_Some (assoc_get key (_subscriptions this))
    ∨ is_Some (assoc_get key (_autoSubscriptions this)).
Proof.
  intros Hs Ha. unfold listens, at_key. split.
  - intros (c & [Hin|(sub & Hin & _)]).
    + left. destruct (assoc_get key (_subscriptions this)); [by eexists |].
      by apply elem_of_nil in Hin.
    + right. destruct (assoc_get key (_autoSubscriptions this));
        [by eexists |].
      by apply elem_of_nil in Hin.
  - intros [[l Hl]|[l Hl]]; rewrite Hl; simpl.
    + apply Hs in Hl as Hne. destruct l as [|c l]; [done |].
      exists c. left. left.
    + apply Ha in Hl as Hne. destruct l as [|sub l]; [done |].
      exists (sub_callback sub). right. exists sub. split; [left | done].
Qed.

(** X15.  The keys a store reports and the keys it tracks.  In a registry
    where no key maps to an empty list (which every call maintains),
    [_getSubscriptionKeys()] lists exactly the keys to which some callback
    is subscribed, explicitly or by an auto-subscription record, each of
    them once.  [_isTrackingKey(key)] holds for these keys, and for the
    name of every member that the registry objects inherit: for such a
    name the lookup [this._subscriptions[key]] finds the inherited member,
    so that [_isTrackingKey("toString")] holds on a store without any
    subscription. *)
Theorem X15_subscription_keys_are_the_tracked_keys this key :
  noEmptyLists (_subscriptions this) →
  noEmptyLists (_autoSubscriptions this) →
  (_isTrackingKey this key = true
   ↔ (∃ callback, listens this key callback) ∨ key ∈ prototypeNames)
  ∧ (key ∈ _getSubscriptionKeys this ↔ ∃ callback, listens this key callback)
  ∧ NoDup (_getSubscriptionKeys this).
Proof.
  intros Hs Ha. unfold _isTrackingKey, _getSubscriptionKeys.
  rewrite (listens_own this key Hs Ha). split_and!.
  - rewrite orb_true_iff, !isDefined_getProperty. tauto.
  - rewrite uniq_elem_of, elem_of_app, !elem_of_Object_keys.
    by rewrite <- !not_eq_None_Some.
  - apply uniq_NoDup.
Qed.

(** On the store where callback 1 listens to "a" and callback 2 to every
    key, "a" is listed and tracked and "b" is neither; "toString" is
    tracked although nothing listens to it. *)
Lemma X15_witness :
  (_isTrackingKey keyAndAllStore "a" = true
   ↔ (∃ callback, listens keyAndAllStore "a" callback) ∨ "a" ∈ prototypeNames)
  ∧ ("b" ∈ _getSubscriptionKeys keyAndAllStore
     ↔ ∃ callback, listens keyAndAllStore "b" callback)
  ∧ _isTrackingKey keyAndAllStore "toString" = true.
Proof.
  assert (noEmptyLists (_subscriptions keyAndAllStore)) as Hs.
  { intros key l. simpl. repeat case_match; by intros [= <-]. }
  assert (noEmptyLists (_autoSubscriptions keyAndAllStore)) as Ha.
  { by intros key l. }
  split_and!.
  - apply (X15_subscription_keys_are_the_tracked_keys keyAndAllStore "a" Hs Ha).
  - apply (X15_subscription_keys_are_the_tracked_keys keyAndAllStore "b" Hs Ha).
  - apply (X15_subscription_keys_are_the_tracked_keys keyAndAllStore "toString"
             Hs Ha).
    right. apply (bool_decide_unpack _). vm_compute. exact I.
Defined.

(** ** An unthrottled trigger *)

Lemma unthrottled_trigger behaviour fuel store this
    keyOrKeys callback w :
  (∀ c keys u, behaviour c keys u = []) →
  stores w !! store = Some this →
  keysDistinct this →
  truthy (match _throttleMs this with
          | Some ms => Some ms
          | None => defaultThrottleMs w
          end) = false →
  _isTriggering w = false →
  NoDup (map fst (_pendingCallbacks w)) →
  reached this keyOrKeys callback →
  assoc_get callback (_pendingCallbacks w) = None →
  let held := (0 <? _triggerBlockCount w)%Z && negb (_bypassTriggerBlocks this) in
  ∃ w' meta,
    exec behaviour (S fuel) [Trigger store keyOrKeys] w = Ok w'
    ∧ filter (invocationOf callback) (events_since w w')
      = (if held then [] else [CallbackInvoked callback (uniquedKeys meta)])
    ∧ assoc_get callback (_pendingCallbacks w')
      = (if held then Some meta else None)
    ∧ (allKeysBranch keyOrKeys = true → uniquedKeys meta = None)
    ∧ (allKeysBranch keyOrKeys = false →
       ∃ delivered,
         uniquedKeys meta = Some delivered
         ∧ NoDup delivered
         ∧ ∀ key, key ∈ delivered
                  ↔ key ∈ normalizedKeys keyOrKeys
                    ∧ (listens this key callback
                       ∨ listens this Key_All callback)).
Proof.
  intros Hsilent Hthis Hkd Hoff Htr Hnd Hreached Hnone held.
  set (bypass := _bypassTriggerBlocks this) in *.
  set (pending1 :=
         triggerRegister this keyOrKeys None bypass (_pendingCallbacks w)).
  set (v1 := set_pendingCallbacks pending1 w).
  assert (NoDup (map fst (_pendingCallbacks v1))) as Hnd1
    by by apply triggerRegister_keys.
  destruct (silent_delivery behaviour fuel v1 callback Hsilent Htr Hnd1)
    as (w' & Hres & Hinv & Hpend & _).
  destruct (triggerRegister_fresh this keyOrKeys None bypass callback
              (_pendingCallbacks w) Hkd Hreached Hnone)
    as (meta & Hget & Hcar).
  fold pending1 in Hget.
  destruct (Hcar _ eq_refl) as (Hb & _ & Himm).
  specialize (Himm eq_refl). unfold immediate, truthy in Himm.
  assert (capturedNow (_triggerBlockCount v1) (_bypassThrottle v1)
            (dateNow v1) (callback, meta) = negb held) as Hcap.
  { unfold capturedNow, stillThrottled, truthy. simpl. rewrite Hb.
    destruct (meta_throttledUntil meta) as [t|];
      [rewrite Himm |]; simpl; by rewrite andb_true_r. }
  exists w', meta. split_and!.
  - unfold exec. cbn [run step]. unfold trigger, getStore. rewrite Hthis.
    cbn [bind]. rewrite triggerThrottle_off by done.
    replace (putStore store this w) with w
      by (unfold putStore; rewrite list_insert_id by done; by destruct w).
    fold bypass pending1 v1. cbn [truthy negb orb]. by rewrite Hres.
  - replace (events_since w w') with (events_since v1 w')
      by (unfold events_since; done).
    rewrite Hinv. change (_pendingCallbacks v1) with pending1.
    rewrite Hget, Hcap. by destruct held.
  - rewrite Hpend. change (_pendingCallbacks v1) with pending1.
    destruct held eqn:Hheld.
    + apply assoc_get_filter; [done |]. rewrite Hcap. by intros [].
    + destruct (assoc_get callback (filter _ pending1)) as [m|] eqn:Hf; [|done].
      apply assoc_get_Some_elem in Hf as Hin.
      apply list_elem_of_filter in Hin as [Hnot Hin].
      rewrite (assoc_get_elem_NoDup _ _ _ Hnd1 Hin) in Hget.
      injection Hget as ->. exfalso. apply Hnot. by rewrite Hcap.
  - intros Hall. unfold pending1, triggerRegister in Hget.
    rewrite Hall in Hget.
    destruct (triggerAllKeys_spec this None bypass callback
                (_pendingCallbacks w) Hkd) as [Hin _].
    unfold reached in Hreached. rewrite Hall in Hreached.
    rewrite (Hin Hreached) in Hget.
    unfold _setupAllKeySubscription in Hget.
    rewrite Hnone, assoc_get_set_eq in Hget. by injection Hget as <-.
  - intros Hspecific. unfold pending1, triggerRegister in Hget.
    rewrite Hspecific in Hget.
    pose proof (triggerSpecificKeys_grown this (normalizedKeys keyOrKeys)
                  None bypass callback (_pendingCallbacks w)) as Hg.
    rewrite Hnone, Hget in Hg. by apply fresh_keys in Hg.
Qed.

(** X16.  An unthrottled trigger delivers at once.  A store without an
    effective throttle is triggered from outside a pass; the callbacks
    make no calls of their own.  A callback that the trigger reaches, and
    that had nothing pending, is invoked exactly once before [trigger]
    returns, and its entry is gone from the table; only an open trigger
    block holds the delivery back, and not even that when the store was
    constructed to bypass trigger blocks.  The callback is handed no
    argument by an all-keys trigger and otherwise, without duplicates, the
    triggered keys it is subscribed to (every triggered key for a
    [Key_All] subscriber). *)
Theorem X16_unthrottled_trigger_delivers_at_once behaviour fuel store this
    keyOrKeys callback w :
  (∀ c keys u, behaviour c keys u = []) →
  stores w !! store = Some this →
  keysDistinct this →
  truthy (match _throttleMs this with
          | Some ms => Some ms
          | None => defaultThrottleMs w
          end) = false →
  _isTriggering w = false →
  NoDup (map fst (_pendingCallbacks w)) →
  reached this keyOrKeys callback →
  assoc_get callback (_pendingCallbacks w) = None →
  let held := (0 <? _triggerBlockCount w)%Z && negb (_bypassTriggerBlocks this) in
  ∃ w' meta,
    exec behaviour (S fuel) [Trigger store keyOrKeys] w = Ok w'
    ∧ filter (invocationOf callback) (events_since w w')
      = (if held then [] else [CallbackInvoked callback (uniquedKeys meta)])
    ∧ assoc_get callback (_pendingCallbacks w')
      = (if held then Some meta else None)
    ∧ (allKeysBranch keyOrKeys = true → uniquedKeys meta = None)
    ∧ (allKeysBranch keyOrKeys = false →
       ∃ delivered,
         uniquedKeys meta = Some delivered
         ∧ NoDup delivered
         ∧ ∀ key, key ∈ delivered
                  ↔ key ∈ normalizedKeys keyOrKeys
                    ∧ (listens this key callback
                       ∨ listens this Key_All callback)).
Proof. apply unthrottled_trigger. Qed.

(** Callback 1 listens to "a" and "b" on the unthrottled store 0.  With no
    block open, [trigger("a")] invokes it once and leaves nothing
    pending. *)
Lemma X16_witness :
  ∃ w' meta,
    exec quiet 1 [Trigger 0 (Single (KStr "a"))] listensToAandBWorld = Ok w'
    ∧ filter (invocationOf 1) (events_since listensToAandBWorld w')
      = [CallbackInvoked 1 (uniquedKeys meta)]
    ∧ assoc_get 1 (_pendingCallbacks w') = None.
Proof.
  eassert (stores listensToAandBWorld !! 0 = Some _) as Hthis
    by (vm_compute; reflexivity).
  destruct (X16_unthrottled_trigger_delivers_at_once quiet 0 0 _
              (Single (KStr "a")) 1 listensToAandBWorld
              (λ _ _ _, eq_refl) Hthis)
    as (w' & meta & H1 & H2 & H3 & _);
    try (vm_compute; reflexivity).
  - split; apply (bool_decide_unpack _); vm_compute; exact I.
  - apply (bool_decide_unpack _). vm_compute. exact I.
  - left. exists "a". split; [apply list_elem_of_here |].
    left. vm_compute. apply list_elem_of_here.
  - by exists w', meta.
Defined.

(** ** A trigger block around several triggers *)

(** X12.  A trigger block batches.  A block is opened on [StoreBase]
    around any number of triggers of an unthrottled store that does not
    bypass blocks; the callbacks make no calls of their own.  A callback
    that at least one of the triggers reaches, and that had nothing
    pending, is not invoked while the block is open, however many of the
    triggers reach it, and is invoked exactly once when [popTriggerBlock]
    closes the block, with the keys of its entry.  When all the triggers
    name keys, these are, without duplicates, the triggered keys the
    callback is subscribed to (every triggered key for a [Key_All]
    subscriber).  A block opened on a class derived from [StoreBase]
    batches nothing: [this._triggerBlockCount++] then creates a counter of
    that class, the counter that the resolver reads stays at zero, and the
    first trigger that reaches the callback delivers at once. *)
Theorem X12_trigger_block_batches_triggers behaviour fuel store this triggers
    callback w :
  (∀ c keys u, behaviour c keys u = []) →
  stores w !! store = Some this →
  keysDistinct this →
  truthy (match _throttleMs this with
          | Some ms => Some ms
          | None => defaultThrottleMs w
          end) = false →
  _bypassTriggerBlocks this = false →
  _isTriggering w = false →
  _triggerBlockCount w = 0%Z →
  NoDup (map fst (_pendingCallbacks w)) →
  assoc_get callback (_pendingCallbacks w) = None →
  (∃ keyOrKeys, keyOrKeys ∈ triggers ∧ reached this keyOrKeys callback) →
  (∃ w1 w2 meta,
     exec behaviour (S fuel)
       (PushTriggerBlock [] :: map (Trigger store) triggers) w
     = Ok w1
     ∧ filter (invocationOf callback) (events_since w w1) = []
     ∧ assoc_get callback (_pendingCallbacks w1) = Some meta
     ∧ exec behaviour (S fuel) [PopTriggerBlock []] w1 = Ok w2
     ∧ filter (invocationOf callback) (events_since w1 w2)
       = [CallbackInvoked callback (uniquedKeys meta)]
     ∧ ((∀ keyOrKeys, keyOrKeys ∈ triggers → allKeysBranch keyOrKeys = false) →
        ∃ delivered,
          uniquedKeys meta = Some delivered
          ∧ NoDup delivered
          ∧ ∀ key, key ∈ delivered
                   ↔ ∃ keyOrKeys,
                       keyOrKeys ∈ triggers
                       ∧ key ∈ normalizedKeys keyOrKeys
                       ∧ (listens this key callback
                          ∨ listens this Key_All callback)))
  ∧ ∀ class ancestors keyOrKeys,
      reached this keyOrKeys callback →
      ∃ w1 meta,
        exec behaviour (S fuel)
          [PushTriggerBlock (class :: ancestors); Trigger store keyOrKeys] w
        = Ok w1
        ∧ filter (invocationOf callback) (events_since w w1)
          = [CallbackInvoked callback (uniquedKeys meta)]
        ∧ assoc_get callback (_pendingCallbacks w1) = None.
Proof.
  intros Hsilent Hthis Hkd Hoff Hbypass Htr Hcount Hnd Hnone Hreached. split.
  - assert (heldInBlock store this callback w (pushTriggerBlock [] w))
      as Hheld.
    { unfold pushTriggerBlock, this_triggerBlockCount. split_and!; try done.
      - simpl. rewrite Hcount. done.
      - simpl. rewrite Hnone. by intros m.
      - exists []. by rewrite app_nil_r. }
    destruct (blocked_triggers behaviour fuel store this triggers callback w
                (pushTriggerBlock [] w) Hsilent Hkd Hoff Hbypass Hheld)
      as (w1 & Hrun & (Hthis1 & _ & Htr1 & Hcount1 & Hnd1 & Hcar1
                       & evs & Hevs & Hquiet) & Hsome & Hgrown).
    destruct Hsome as [meta Hget]; [by right |].
    set (w1' := set_triggerBlockCount 0%Z w1).
    destruct (silent_delivery behaviour fuel w1' callback Hsilent Htr1 Hnd1)
      as (w2 & Hres & Hinv & _).
    exists w1, w2, meta. split_and!.
    + unfold exec. cbn [run step bind]. exact Hrun.
    + by rewrite (events_since_app _ _ _ Hevs).
    + done.
    + assert (popTriggerBlock (_resolveCallbacks behaviour (S fuel)) [] w1
              = _resolveCallbacks behaviour (S fuel) w1') as Hpop.
      { unfold popTriggerBlock, this_triggerBlockCount.
        cbn [readStatic set_this_triggerBlockCount _triggerBlockCount
               set_triggerBlockCount].
        rewrite Hcount1. reflexivity. }
      unfold exec. cbn [run step]. by rewrite Hpop, Hres.
    + replace (events_since w1 w2) with (events_since w1' w2)
        by (unfold events_since; done).
      rewrite Hinv. simpl. rewrite Hget.
      destruct (Hcar1 _ Hget) as (Hb & _ & Himm).
      specialize (Himm eq_refl). unfold immediate, truthy in Himm.
      unfold capturedNow, stillThrottled, truthy. simpl.
      destruct (meta_throttledUntil meta) as [t|]; [|done].
      by rewrite Himm.
    + intros Hspecific. specialize (Hgrown Hspecific).
      simpl in Hgrown. rewrite Hnone, Hget in Hgrown.
      by apply fresh_keys in Hgrown.
  - intros class ancestors keyOrKeys Hreach.
    set (wd := pushTriggerBlock (class :: ancestors) w).
    destruct (unthrottled_trigger behaviour fuel store this keyOrKeys callback
                wd Hsilent Hthis Hkd Hoff Htr Hnd Hreach Hnone)
      as (w1 & meta & Hexec & Hinv & Hpend & _).
    assert (_triggerBlockCount wd = 0%Z) as Hzero by exact Hcount.
    rewrite Hzero, Hbypass in Hinv, Hpend. simpl in Hinv, Hpend.
    by exists w1, meta.
Qed.

(** Callback 1 listens to "a" and "b"; both keys are triggered inside a
    block opened on [StoreBase]: nothing is delivered before the block
    closes and callback 1 is invoked once when it does.  With the block
    opened on a derived class, the trigger of "a" invokes callback 1 at
    once. *)
Lemma X12_witness :
  (∃ w1 w2 meta,
     exec quiet 1
       (PushTriggerBlock []
        :: map (Trigger 0) [Single (KStr "a"); Single (KStr "b")])
       listensToAandBWorld = Ok w1
     ∧ filter (invocationOf 1) (events_since listensToAandBWorld w1) = []
     ∧ assoc_get 1 (_pendingCallbacks w1) = Some meta
     ∧ exec quiet 1 [PopTriggerBlock []] w1 = Ok w2
     ∧ filter (invocationOf 1) (events_since w1 w2)
       = [CallbackInvoked 1 (uniquedKeys meta)])
  ∧ ∃ w1 meta,
      exec quiet 1 [PushTriggerBlock [0]; Trigger 0 (Single (KStr "a"))]
        listensToAandBWorld = Ok w1
      ∧ filter (invocationOf 1) (events_since listensToAandBWorld w1)
        = [CallbackInvoked 1 (uniquedKeys meta)].
Proof.
  eassert (stores listensToAandBWorld !! 0 = Some _) as Hthis
    by (vm_compute; reflexivity).
  assert (reached (default (new_StoreBase None None)
                     (stores listensToAandBWorld !! 0))
            (Single (KStr "a")) 1) as Hreached.
  { left. exists "a". split; [apply list_elem_of_here |].
    left. vm_compute. apply list_elem_of_here. }
  destruct (X12_trigger_block_batches_triggers quiet 0 0 _
              [Single (KStr "a"); Single (KStr "b")] 1 listensToAandBWorld
              (λ _ _ _, eq_refl) Hthis)
    as [(w1 & w2 & meta & H1 & H2 & H3 & H4 & H5 & _) Hderived];
    try (vm_compute; reflexivity).
  - split; apply (bool_decide_unpack _); vm_compute; exact I.
  - apply (bool_decide_unpack _). vm_compute. exact I.
  - exists (Single (KStr "a")). split; [apply list_elem_of_here | exact Hreached].
  - split; [by exists w1, w2, meta |].
    destruct (Hderived 0 [] (Single (KStr "a")) Hreached)
      as (w1' & meta' & Hexec & Hinv & _).
    by exists w1', meta'.
Defined.

(** ** Numeric keys *)

Lemma pretty_N_go_nonempty (x : N) s : s ≠ "" → pretty_N_go x s ≠ "".
Proof.
  revert s. induction (N.lt_wf_0 x) as [x _ IH]; intros s Hs.
  destruct (decide (x = 0%N)) as [->|Hx].
  - by rewrite pretty_N_go_0.
  - rewrite pretty_N_go_step by lia. apply IH; [|done].
    apply N.div_lt; lia.
Qed.

Lemma pretty_positive_nonempty (p : positive) : pretty p ≠ "".
Proof.
  unfold pretty, pretty_positive, pretty, pretty_N.
  rewrite decide_False by done.
  rewrite pretty_N_go_step by lia. by apply pretty_N_go_nonempty.
Qed.

Lemma pretty_Z_nonempty (n : Z) : pretty n ≠ "".
Proof.
  destruct n as [|p|p]; unfold pretty, pretty_Z; [done | |done].
  apply pretty_positive_nonempty.
Qed.

Lemma pretty_N_char_decimal (x : N) : decimalChar (pretty_N_char x) = true.
Proof.
  destruct x as [|p]; [done |].
  do 4 (destruct p as [p|p|]; try done).
Qed.

Lemma pretty_N_go_decimal (x : N) s :
  allDecimal s = true → allDecimal (pretty_N_go x s) = true.
Proof.
  revert s. induction (N.lt_wf_0 x) as [x _ IH]; intros s Hs.
  destruct (decide (x = 0%N)) as [->|Hx].
  - by rewrite pretty_N_go_0.
  - rewrite pretty_N_go_step by lia. apply IH; [apply N.div_lt; lia |].
    simpl. by rewrite pretty_N_char_decimal.
Qed.

Lemma pretty_positive_decimal (p : positive) : allDecimal (pretty p) = true.
Proof.
  unfold pretty, pretty_positive, pretty, pretty_N.
  rewrite decide_False by done. by apply pretty_N_go_decimal.
Qed.

Lemma pretty_Z_decimal (n : Z) : allDecimal (pretty n) = true.
Proof.
  destruct n as [|p|p]; unfold pretty, pretty_Z; [done | |].
  - apply pretty_positive_decimal.
  - simpl. apply pretty_positive_decimal.
Qed.

(** A decimal numeral is not the name of an inherited member. *)
Lemma pretty_Z_plain (n : Z) : pretty n ∉ prototypeNames.
Proof.
  assert (Forall (λ key, allDecimal key = false) prototypeNames) as Hnames
    by (repeat constructor).
  intros Hin. rewrite Forall_forall in Hnames. apply Hnames in Hin.
  by rewrite pretty_Z_decimal in Hin.
Qed.

Lemma subscribe_frame store callback rawKey w tok w' :
  subscribe store callback rawKey w = Ok (tok, w') →
  _pendingCallbacks w' = _pendingCallbacks w
  ∧ _isTriggering w' = _isTriggering w
  ∧ _triggerBlockCount w' = _triggerBlockCount w
  ∧ defaultThrottleMs w' = defaultThrottleMs w.
Proof.
  unfold subscribe, getStore, bind.
  destruct (stores w !! store) as [this|]; [|done].
  destruct (decide (_ = "")); [done |].
  destruct (getProperty (_subscriptions this) _); [| done | destruct (_ && _)];
    by intros [= _ <-].
Qed.

Lemma singleton_of_NoDup {A} (l : list A) a :
  NoDup l → (∀ x, x ∈ l ↔ x = a) → l = [a].
Proof.
  intros Hnd Hl. destruct l as [|x l].
  - exfalso. by apply (elem_of_nil a), Hl.
  - assert (x = a) as -> by (apply Hl; left).
    apply NoDup_cons in Hnd as [Hnot Hnd].
    destruct l as [|y l]; [done |].
    assert (y = a) as -> by (apply Hl; right; left).
    exfalso. apply Hnot. left.
Qed.

(** X17.  Numbers as keys.  The numbers of the model are the integers that
    [toString()] writes in decimal.  Take such a number, zero included,
    and a callback with nothing pending that subscribes with it to an
    unthrottled store, outside a pass and with no block open; the
    callbacks make no calls of their own.  The subscription succeeds: the
    key is not empty and is not the name of an inherited member.  It is
    the subscription to the decimal string of the number: the same token
    and the same store result.  Afterwards, triggering the number, its
    decimal string, or the one-element array of the number each invoke the
    callback exactly once, with exactly that string as the key list; for
    zero this is the list of "0", not the all-keys delivery. *)
Theorem X17_numbers_are_keys behaviour fuel (n : SafeInteger) store this
    callback w :
  (∀ c keys u, behaviour c keys u = []) →
  stores w !! store = Some this →
  keysDistinct this →
  truthy (match _throttleMs this with
          | Some ms => Some ms
          | None => defaultThrottleMs w
          end) = false →
  _isTriggering w = false →
  _triggerBlockCount w = 0%Z →
  NoDup (map fst (_pendingCallbacks w)) →
  assoc_get callback (_pendingCallbacks w) = None →
  let key := pretty (int_value n) in
  ∃ tok w1,
    subscribe store callback (Some (KNum n)) w = Ok (tok, w1)
    ∧ subscribe store callback (Some (KStr key)) w = Ok (tok, w1)
    ∧ ∀ keyOrKeys,
        keyOrKeys ∈ [Single (KNum n); Single (KStr key); Many [KNum n]] →
        ∃ w2,
          exec behaviour (S fuel) [Trigger store keyOrKeys] w1 = Ok w2
          ∧ filter (invocationOf callback) (events_since w1 w2)
            = [CallbackInvoked callback (Some [key])].
Proof.
  intros Hsilent Hthis Hkd Hoff Htr Hcount Hnd Hnone key.
  pose proof (pretty_Z_nonempty (int_value n)) as Hne.
  pose proof (pretty_Z_plain (int_value n)) as Hplain.
  fold key in Hne, Hplain.
  assert (∃ tok w1, subscribe store callback (Some (KNum n)) w = Ok (tok, w1))
    as (tok & w1 & Hsub).
  { unfold subscribe, getStore, bind. rewrite Hthis. simpl. fold key.
    rewrite decide_False by done.
    destruct (getProperty (_subscriptions this) key) as [l| |] eqn:Hprop.
    - by eexists _, _.
    - apply getProperty_Inherited in Hprop as [_ Hin]. done.
    - destruct (_ && _); by eexists _, _. }
  exists tok, w1. split; [exact Hsub |]. split; [exact Hsub |].
  pose proof (subscribe_as_prepare _ _ _ _ _ _ Hsub) as Hprep.
  pose proof (prepare_stores _ _ _ Hprep)
    as (this0 & this1 & Hthis0 & Hst1 & _ & _ & Hthis1).
  rewrite Hthis in Hthis0. injection Hthis0 as <-. simpl in Hst1, Hthis1.
  fold key in Hthis1.
  destruct (subscribe_frame _ _ _ _ _ _ Hsub) as (Hp1 & Ht1 & Hc1 & Hd1).
  assert (stores w1 !! store = Some this1) as Hl1.
  { rewrite Hst1. by eapply list_lookup_insert_eq, lookup_lt_Some. }
  assert (keysDistinct this1) as Hkd1.
  { apply (keysDistinct_after (Subscribe store callback (Some (KNum n)))
             this this1); [|done].
    simpl. fold key. split_and!; [done | | done].
    intros Hinh. by apply getProperty_Inherited in Hinh as [_ Hin]. }
  assert (listens this1 key callback) as Hlistens.
  { left. rewrite Hthis1. simpl. rewrite at_key_set, decide_True by done.
    apply elem_of_app. right. left. }
  intros keyOrKeys Hin.
  assert (allKeysBranch keyOrKeys = false ∧ normalizedKeys keyOrKeys = [key])
    as [Hbranch Hkeys].
  { repeat (apply elem_of_cons in Hin as [->|Hin]);
      [| | | by apply elem_of_nil in Hin].
    - split; [|done]. unfold allKeysBranch. simpl. by rewrite andb_false_r.
    - split; [|done]. unfold allKeysBranch. simpl.
      by rewrite bool_decide_eq_false_2.
    - by split. }
  assert (reached this1 keyOrKeys callback) as Hreached.
  { unfold reached. rewrite Hbranch, Hkeys. left. exists key.
    split; [left | done]. }
  destruct (unthrottled_trigger behaviour fuel store this1 keyOrKeys callback
              w1 Hsilent Hl1 Hkd1) as (w2 & meta & Hexec & Hinv & _ & _ & Hdel).
  { rewrite Hd1. by rewrite Hthis1. }
  { congruence. }
  { by rewrite Hp1. }
  { done. }
  { by rewrite Hp1. }
  rewrite Hc1, Hcount in Hinv. simpl in Hinv.
  destruct (Hdel Hbranch) as (delivered & Huniq & Hnodup & Hmem).
  exists w2. split; [exact Hexec |]. rewrite Hinv, Huniq.
  do 3 f_equal. apply singleton_of_NoDup; [done |].
  intros k. rewrite Hmem, Hkeys. split.
  - intros [Hk _]. by apply list_elem_of_singleton in Hk.
  - intros ->. split; [left | by left].
Qed.

(** Callback 3 subscribes with the number 0 to a store without
    subscribers: the key is "0", and [trigger(0)] invokes the callback
    with the key list of "0". *)
Lemma X17_witness :
  ∃ tok w1 w2,
    subscribe 0 3 (Some (KNum zero)) storeOnly = Ok (tok, w1)
    ∧ exec quiet 1 [Trigger 0 (Single (KNum zero))] w1 = Ok w2
    ∧ filter (invocationOf 3) (events_since w1 w2)
      = [CallbackInvoked 3 (Some ["0"])].
Proof.
  eassert (stores storeOnly !! 0 = Some _) as Hthis
    by (vm_compute; reflexivity).
  destruct (X17_numbers_are_keys quiet 0 zero 0 _ 3 storeOnly
              (λ _ _ _, eq_refl) Hthis)
    as (tok & w1 & Hsub & _ & Htrigger);
    try (vm_compute; reflexivity).
  - split; apply NoDup_nil_2.
  - apply NoDup_nil_2.
  - destruct (Htrigger (Single (KNum zero))) as (w2 & Hexec & Hinv);
      [apply list_elem_of_here |].
    by exists tok, w1, w2.
Defined.

(** ** The order of the pending table *)

Lemma assoc_set_prefix {K V} `{EqDecision K} (m : list (K * V)) k v :
  map fst m `prefix_of` map fst (assoc_set k v m).
Proof.
  rewrite assoc_set_keys. destruct (decide (k ∈ map fst m)); [done |].
  by apply prefix_app_r.
Qed.

(** X18.  A trigger never reorders the pending table.  Whatever the
    trigger's argument, due-time and bypass flag, the callbacks that were
    pending keep their places and the newly reached callbacks are put
    behind them; the table never holds a callback twice.  As a pass
    invokes the captured callbacks in table order, callbacks are delivered
    in the order in which they were first queued. *)
Theorem X18_trigger_keeps_table_order this keyOrKeys throttledUntil bypassBlock
    (pending : CallbackMap) :
  map fst pending
    `prefix_of` map fst (triggerRegister this keyOrKeys throttledUntil
                           bypassBlock pending)
  ∧ (NoDup (map fst pending) →
     NoDup (map fst (triggerRegister this keyOrKeys throttledUntil
                       bypassBlock pending))).
Proof.
  split; [|apply triggerRegister_keys].
  assert (∀ c (p : CallbackMap),
            map fst pending `prefix_of` map fst p →
            map fst pending
              `prefix_of` map fst (_setupAllKeySubscription c throttledUntil
                                     bypassBlock p)) as Hall.
  { intros c p Hp. etransitivity; [exact Hp |].
    unfold _setupAllKeySubscription. apply assoc_set_prefix. }
  assert (∀ ks c (p : CallbackMap),
            map fst pending `prefix_of` map fst p →
            map fst pending
              `prefix_of` map fst (_setupSpecificKeySubscription ks c
                                     throttledUntil bypassBlock p)) as Hspec.
  { intros ks c p Hp. etransitivity; [exact Hp |].
    unfold _setupSpecificKeySubscription.
    destruct (_updateExistingMeta _ _ _) as [meta|];
      [destruct (meta_keys meta) |]; apply assoc_set_prefix. }
  unfold triggerRegister, triggerAllKeys, triggerSpecificKeys.
  destruct (allKeysBranch keyOrKeys).
  - do 2 (apply (forEach_preserves
                   (λ p : CallbackMap,
                      map fst pending `prefix_of` map fst p));
          [intros; by apply Hall |]).
    done.
  - do 2 (apply (forEach_preserves
                   (λ p : CallbackMap,
                      map fst pending `prefix_of` map fst p));
          [intros; by apply Hspec |]).
    apply (forEach_preserves
             (λ p : CallbackMap, map fst pending `prefix_of` map fst p));
      [|done].
    intros key p Hp.
    do 2 (apply (forEach_preserves
                   (λ p : CallbackMap,
                      map fst pending `prefix_of` map fst p));
          [intros; by apply Hspec |]).
    done.
Qed.

(** Callback 9 is pending; a trigger on the store where callbacks 1 and 2
    listen queues them behind callback 9. *)
Lemma X18_witness :
  NoDup (map fst
           (triggerRegister keyAndAllStore (Single (KStr "a")) None false
              [(9, {| meta_keys := None; meta_throttledUntil := None;
                      meta_bypassBlock := false |})])).
Proof.
  apply (X18_trigger_keeps_table_order keyAndAllStore (Single (KStr "a")) None
           false
           [(9, {| meta_keys := None; meta_throttledUntil := None;
                   meta_bypassBlock := false |})]).
  apply (bool_decide_unpack _). vm_compute. exact I.
Defined.

(** * Calls and their deliveries, end to end *)

(** ** Tracking hooks and the subscriber count *)

Lemma plainKeys_new throttleMs bypass :
  plainKeys (new_StoreBase throttleMs bypass).
Proof. by intros key Hkey. Qed.

Lemma plainKeys_after op this this' :
  storeAfter op this this' → plainKeys this → plainKeys this'.
Proof.
  intros Hafter Hplain. destruct op; simpl in Hafter; try done.
  - destruct Hafter as (_ & Hown & ->). intros k Hk.
    destruct (Hplain k Hk) as [Hs Ha]. split; [|done]. simpl.
    rewrite assoc_get_set_ne; [done |]. intros Heq. apply Hown.
    rewrite Heq. by apply getProperty_Inherited.
  - destruct Hafter as (key & callback & l & _ & Hl & _ & ->). intros k Hk.
    destruct (Hplain k Hk) as [Hs Ha]. split; [|done]. simpl.
    assert (key ≠ k) as Hne by (intros ->; congruence).
    destruct (_ =? _)%nat;
      by rewrite ?assoc_get_delete_ne, assoc_get_set_ne by done.
  - destruct Hafter as [Hown ->]. intros k Hk.
    destruct (Hplain k Hk) as [Hs Ha]. split; [done |]. simpl.
    rewrite assoc_get_set_ne; [done |]. intros Heq. apply Hown.
    rewrite Heq. by apply getProperty_Inherited.
  - destruct Hafter as (subs & Hsubs & _ & ->). intros k Hk.
    destruct (Hplain k Hk) as [Hs Ha]. split; [done |]. simpl.
    assert (sub_key subscription ≠ k) as Hne by (intros Heq; congruence).
    destruct (_ =? _)%nat;
      by rewrite ?assoc_get_delete_ne, assoc_get_set_ne by done.
  - destruct Hafter as (td & ->). done.
  - by subst this'.
Qed.

Lemma initialWorld_plainInv defaultThrottle now :
  plainInv (initialWorld defaultThrottle now).
Proof. intros s t Hst. simpl in Hst. by rewrite lookup_nil in Hst. Qed.

Lemma exec_plainInv behaviour fuel ops w w' :
  exec behaviour fuel ops w = Ok w' → plainInv w → plainInv w'.
Proof.
  intros Hexec Hinv.
  exact (exec_every_store plainKeys plainKeys_new plainKeys_after
           _ _ _ _ _ Hexec Hinv).
Qed.

(** What a registry call does to the subscriber counts and to the trace. *)
Lemma registry_step_effect behaviour fuel store op w w' :
  registryInv w → plainInv w →
  registryOp store op →
  step (_resolveCallbacks behaviour fuel) op w = Ok w' →
  ∃ key adds,
    movedKey op w = Some (key, adds)
    ∧ (∀ s k,
         subscriberCount (if adds then w' else w) s k
         = subscriberCount (if adds then w else w') s k
           + (if decide (s = store ∧ k = key) then 1 else 0))
    ∧ trace w'
      = trace w
        ++ (if bool_decide (key ≠ Key_All)
               && (subscriberCount (if adds then w else w') store key =? 0)
            then [if adds then StartedTrackingKey store key
                  else StoppedTrackingKey store key]
            else []).
Proof.
  intros Hreg Hplain Hop Hstep.
  destruct op; simpl in Hop; try done; subst store0; simpl in Hstep.
  - destruct (subscribe store callback rawKey w) as [r| |] eqn:Hs; [|done..].
    injection Hstep as <-.
    destruct (subscribe_effect _ _ _ _ _ Hreg Hs) as [Hc Ht].
    by eexists _, true.
  - destruct (unsubscribe_effect _ _ _ _ Hreg Hplain Hstep)
      as (key & Hkey & Hc & Ht).
    by exists key, false.
  - destruct (trackAutoSubscription_effect _ _ _ _ Hreg Hstep) as [Hc Ht].
    by eexists _, true.
  - destruct (removeAutoSubscription_effect _ _ _ _ Hreg Hplain Hstep)
      as [Hc Ht].
    by eexists _, false.
Qed.

Lemma registry_step_hooks behaviour fuel store op w w' s k :
  registryInv w → plainInv w →
  registryOp store op →
  step (_resolveCallbacks behaviour fuel) op w = Ok w' →
  k ≠ Key_All →
  length (filter (λ e, e = StartedTrackingKey s k) (events_since w w'))
  = (if (subscriberCount w s k =? 0) && (subscriberCount w' s k =? 1)
     then 1 else 0)
  ∧ length (filter (λ e, e = StoppedTrackingKey s k) (events_since w w'))
    = (if (subscriberCount w s k =? 1) && (subscriberCount w' s k =? 0)
       then 1 else 0)
  ∧ (subscriberCount w' s k ≤ subscriberCount w s k + 1
     ∧ subscriberCount w s k ≤ subscriberCount w' s k + 1).
Proof.
  intros Hreg Hplain Hop Hstep Hk.
  destruct (registry_step_effect _ _ _ _ _ _ Hreg Hplain Hop Hstep)
    as (key & adds & _ & Hc & Ht).
  apply events_since_app in Ht. pose proof (Hc s k) as Hsk.
  destruct adds.
  - destruct (hooks_of_increase store key (subscriberCount w)
                (subscriberCount w') (events_since w w') s k Hc Ht Hk)
      as [H1 H2].
    split_and!; [done | done | |]; destruct (decide _); lia.
  - destruct (hooks_of_decrease store key (subscriberCount w)
                (subscriberCount w') (events_since w w') s k Hc Ht Hk)
      as [H1 H2].
    split_and!; [done | done | |]; destruct (decide _); lia.
Qed.

(** Over a run of registry calls the two hooks of a key are called in
    turn, starting with the one that fits the state of the key. *)
Lemma registry_run_balance behaviour fuel ops w w' s k :
  worldInv w → plainInv w →
  registryRun ops →
  exec behaviour fuel ops w = Ok w' →
  k ≠ Key_All →
  ∃ evs,
    trace w' = trace w ++ evs
    ∧ length (filter (λ e, e = StartedTrackingKey s k) evs)
      + (if subscriberCount w s k =? 0 then 0 else 1)
      = length (filter (λ e, e = StoppedTrackingKey s k) evs)
        + (if subscriberCount w' s k =? 0 then 0 else 1).
Proof.
  intros Hinv Hplain Hops Hexec Hk. revert w Hinv Hplain Hexec.
  induction Hops as [|op ops [store Hop] Hops IH]; intros w Hinv Hplain.
  - intros [= <-]. exists []. by rewrite app_nil_r.
  - unfold exec. cbn [run].
    destruct (step (_resolveCallbacks behaviour fuel) op w) as [w1| |] eqn:Hstep;
      [|done..].
    cbn [bind]. intros Hrun.
    destruct (registry_step_hooks _ _ _ _ _ _ s k (proj1 Hinv) Hplain Hop
                Hstep Hk) as (Hstarted & Hstopped & Hup & Hdown).
    destruct (registry_step_effect _ _ _ _ _ _ (proj1 Hinv) Hplain Hop Hstep)
      as (key & adds & _ & _ & Ht).
    rewrite (events_since_app _ _ _ Ht) in Hstarted, Hstopped.
    destruct (IH w1) as (evs & Hevs & Hbalance).
    { by apply step_follows in Hstep as [Hi _ _];
        [apply Hi | apply _resolveCallbacks_follows]. }
    { by apply step_as_exec, exec_plainInv in Hstep. }
    { exact Hrun. }
    eexists. split; [by rewrite Hevs, Ht, <- app_assoc |].
    rewrite !filter_app, !length_app, Hstarted, Hstopped.
    destruct (Nat.eqb_spec (subscriberCount w s k) 0),
      (Nat.eqb_spec (subscriberCount w1 s k) 0),
      (Nat.eqb_spec (subscriberCount w s k) 1),
      (Nat.eqb_spec (subscriberCount w1 s k) 1),
      (Nat.eqb_spec (subscriberCount w' s k) 0); simpl in *; lia.
Qed.

(** C9.  The invariants of the registry hold before any call and are kept
    by every call, also one made by a running callback: no key maps to an
    empty list, and no key is the name of an inherited member of the
    registry objects.  Under them, take a call of [subscribe],
    [unsubscribe], [trackAutoSubscription] or [removeAutoSubscription] on
    a store that returns normally.  It moves the number of subscribers,
    explicit and automatic together, of exactly one key of that store by
    exactly one: up for [subscribe] and [trackAutoSubscription], down for
    the other two.  What it adds to the trace is the one event
    [_startedTrackingKey(key)] when the key is not the all-keys key and
    the count was zero before a call that adds; the one event
    [_stoppedTrackingKey(key)] when the key is not the all-keys key and
    the count is zero after a call that takes away; and nothing
    otherwise.  So for every store and every key other than the all-keys
    key, [_startedTrackingKey] is called exactly once when the count goes
    from zero to one and never otherwise, and [_stoppedTrackingKey]
    exactly once when it goes from one to zero and never otherwise.  Over
    any sequence of the four calls, on any stores and in any order, the
    two hooks of a key are therefore called in turn: as many starts as
    stops, one more start when the key has gained its first subscriber,
    one more stop when it has lost its last. *)
Theorem C9_tracking_hooks_follow_subscriber_count behaviour fuel :
  (∀ defaultThrottle now,
     worldInv (initialWorld defaultThrottle now)
     ∧ plainInv (initialWorld defaultThrottle now))
  ∧ (∀ op w w',
       worldInv w → plainInv w →
       step (_resolveCallbacks behaviour fuel) op w = Ok w' →
       worldInv w' ∧ plainInv w')
  ∧ (∀ store op w w',
       worldInv w → plainInv w →
       registryOp store op →
       step (_resolveCallbacks behaviour fuel) op w = Ok w' →
       ∃ key adds,
         movedKey op w = Some (key, adds)
         ∧ (∀ s k,
              subscriberCount (if adds then w' else w) s k
              = subscriberCount (if adds then w else w') s k
                + (if decide (s = store ∧ k = key) then 1 else 0))
         ∧ events_since w w'
           = (if bool_decide (key ≠ Key_All)
                 && (subscriberCount (if adds then w else w') store key =? 0)
              then [if adds then StartedTrackingKey store key
                    else StoppedTrackingKey store key]
              else [])
         ∧ ∀ s k,
             k ≠ Key_All →
             length (filter (λ e, e = StartedTrackingKey s k)
                       (events_since w w'))
             = (if (subscriberCount w s k =? 0)
                   && (subscriberCount w' s k =? 1)
                then 1 else 0)
             ∧ length (filter (λ e, e = StoppedTrackingKey s k)
                         (events_since w w'))
               = (if (subscriberCount w s k =? 1)
                     && (subscriberCount w' s k =? 0)
                  then 1 else 0))
  ∧ (∀ ops w w' s k,
       worldInv w → plainInv w →
       registryRun ops →
       exec behaviour fuel ops w = Ok w' →
       k ≠ Key_All →
       length (filter (λ e, e = StartedTrackingKey s k) (events_since w w'))
       + (if subscriberCount w s k =? 0 then 0 else 1)
       = length (filter (λ e, e = StoppedTrackingKey s k) (events_since w w'))
         + (if subscriberCount w' s k =? 0 then 0 else 1)).
Proof.
  split_and!.
  - intros defaultThrottle now.
    split; [apply initialWorld_inv | apply initialWorld_plainInv].
  - intros op w w' Hinv Hplain Hstep. split.
    + by apply step_follows in Hstep as [Hi _ _];
        [apply Hi | apply _resolveCallbacks_follows].
    + by apply step_as_exec, exec_plainInv in Hstep.
  - intros store op w w' (Hreg & _ & _) Hplain Hop Hstep.
    destruct (registry_step_effect _ _ _ _ _ _ Hreg Hplain Hop Hstep)
      as (key & adds & Hkey & Hc & Ht).
    exists key, adds.
    split_and!; [done | done | by apply events_since_app |].
    intros s k Hk.
    by destruct (registry_step_hooks _ _ _ _ _ _ s k Hreg Hplain Hop Hstep Hk)
      as (? & ? & _).
  - intros ops w w' s k Hinv Hplain Hops Hexec Hk.
    destruct (registry_run_balance _ _ _ _ _ s k Hinv Hplain Hops Hexec Hk)
      as (evs & Hevs & Hbalance).
    by rewrite (events_since_app _ _ _ Hevs).
Qed.

(** On a store without subscribers, tracking the sample record for "a"
    takes the key from no subscriber to one and calls
    [_startedTrackingKey("a")]; subscribing callback 5 to "a" as well
    takes it to two and calls nothing; removing the record from the store
    that tracks only it calls [_stoppedTrackingKey("a")]; and in
    [twoKeysBlockedWorld], where callback 7 is the only subscriber of "a"
    and of "b", unsubscribing its token for "a" calls
    [_stoppedTrackingKey("a")]. *)
Lemma C9_witness :
  (events_since storeOnly trackedOnce = [StartedTrackingKey 0 "a"]
   ∧ subscriberCount trackedOnce 0 "a" = subscriberCount storeOnly 0 "a" + 1)
  ∧ (events_since trackedOnce trackedAndSubscribed = []
     ∧ subscriberCount trackedAndSubscribed 0 "a"
       = subscriberCount trackedOnce 0 "a" + 1)
  ∧ (events_since trackedOnce
       (worldOf (removeAutoSubscription 0 sampleRecord trackedOnce) trackedOnce)
     = [StoppedTrackingKey 0 "a"])
  ∧ (events_since twoKeysBlockedWorld afterUnsubscribe
     = [StoppedTrackingKey 0 "a"]
     ∧ subscriberCount twoKeysBlockedWorld 0 "a"
       = subscriberCount afterUnsubscribe 0 "a" + 1).
Proof.
  destruct (C9_tracking_hooks_follow_subscriber_count quiet 0)
    as (Hinit & _ & Hcall & _).
  assert (∀ ops w,
            exec quiet 1 ops (initialWorld None 1000) = Ok w →
            worldInv w ∧ plainInv w) as Hreach.
  { intros ops w Hexec. destruct (Hinit None 1000%Z) as [Hi Hp]. split.
    - by apply (exec_inv quiet 1 ops (initialWorld None 1000)).
    - by apply (exec_plainInv quiet 1 ops (initialWorld None 1000)). }
  destruct (Hreach [NewStore None None] storeOnly) as [Hi0 Hp0];
    [vm_compute; reflexivity |].
  destruct (Hreach [NewStore None None; TrackAutoSubscription 0 sampleRecord]
              trackedOnce) as [Hi1 Hp1]; [vm_compute; reflexivity |].
  destruct (Hreach twoKeysBlocked twoKeysBlockedWorld) as [Hi2 Hp2];
    [vm_compute; reflexivity |].
  split; [| split; [| split]].
  - destruct (Hcall 0 (TrackAutoSubscription 0 sampleRecord) storeOnly
                trackedOnce Hi0 Hp0 eq_refl)
      as (key & adds & [= <- <-] & Hc & Ht & _); [vm_compute; reflexivity |].
    split; [rewrite Ht; vm_compute; reflexivity |].
    rewrite (Hc 0 "a"). vm_compute. reflexivity.
  - destruct (Hcall 0 (Subscribe 0 5 (Some (KStr "a"))) trackedOnce
                trackedAndSubscribed Hi1 Hp1 eq_refl)
      as (key & adds & [= <- <-] & Hc & Ht & _); [vm_compute; reflexivity |].
    split; [rewrite Ht; vm_compute; reflexivity |].
    rewrite (Hc 0 "a"). vm_compute. reflexivity.
  - destruct (Hcall 0 (RemoveAutoSubscription 0 sampleRecord) trackedOnce
                (worldOf (removeAutoSubscription 0 sampleRecord trackedOnce)
                   trackedOnce) Hi1 Hp1 eq_refl)
      as (key & adds & [= <- <-] & Hc & Ht & _); [vm_compute; reflexivity |].
    rewrite Ht. vm_compute. reflexivity.
  - destruct (Hcall 0 (Unsubscribe 0 1) twoKeysBlockedWorld afterUnsubscribe
                Hi2 Hp2 eq_refl)
      as (key & adds & Hkey & Hc & Ht & _); [vm_compute; reflexivity |].
    assert (key = "a" ∧ adds = false) as [-> ->].
    { vm_compute in Hkey. by injection Hkey as <- <-. }
    split; [rewrite Ht; vm_compute; reflexivity |].
    rewrite (Hc 0 "a"). vm_compute. reflexivity.
Defined.

(** ** An all-keys entry, up to its delivery *)

Lemma assoc_get_filter_out {K V} `{EqDecision K} (P : K * V → Prop)
    `{∀ e, Decision (P e)} (m : list (K * V)) k v :
  NoDup (map fst m) →
  assoc_get k m = Some v → ¬ P (k, v) → assoc_get k (filter P m) = None.
Proof.
  intros Hnd Hget Hnot.
  destruct (assoc_get k (filter P m)) as [v'|] eqn:Hf; [|done].
  apply assoc_get_Some_elem in Hf as Hin.
  apply list_elem_of_filter in Hin as [HP Hin].
  rewrite (assoc_get_elem_NoDup _ _ _ Hnd Hin) in Hget.
  injection Hget as ->. done.
Qed.

(** What one pass hands to a callback, whatever the callbacks do. *)
Lemma pass_invocations behaviour fuel v v' callback :
  NoDup (map fst (_pendingCallbacks v)) →
  resolverPass behaviour (_resolveCallbacks behaviour fuel) v = Ok v' →
  filter (invocationOf callback) (events_since v v')
  = match assoc_get callback (_pendingCallbacks v) with
    | Some meta =>
        if capturedNow (_triggerBlockCount v) (_bypassThrottle v) (dateNow v)
             (callback, meta)
        then [CallbackInvoked callback (uniquedKeys meta)] else []
    | None => []
    end.
Proof.
  intros Hnd Hpass.
  apply resolverPass_spec in Hpass as (_ & _ & evs & Hev & Hq);
    [|apply _resolveCallbacks_follows].
  rewrite (events_since_app _ _ _ Hev).
  rewrite filter_invocationOf_resolverEvent, Hq, filter_invocationOf_pass.
  unfold capturedBy. rewrite captureCallbacks_spec by done. simpl.
  by apply captured_once.
Qed.

(** C5.  Once a callback has a pending entry with the all-keys list, a
    later specific-key trigger of any store, for any keys, leaves the
    entry with the all-keys list.  A resolver pass over the resulting
    table, whatever the callbacks do, invokes the callback with no
    argument, exactly once, when the entry passes the two gates of the
    pass, and does not invoke it otherwise.  With callbacks that make no
    calls of their own the resolver, called from outside a pass, returns
    after that delivery, and a delivered entry is gone from the table. *)
Theorem C5_specific_trigger_cannot_narrow_all_keys_entry
    this keyOrKeys throttledUntil bypassBlock callback meta
    (pending : CallbackMap) :
  NoDup (map fst pending) →
  assoc_get callback pending = Some meta →
  meta_keys meta = None →
  allKeysBranch keyOrKeys = false →
  let pending' :=
    triggerRegister this keyOrKeys throttledUntil bypassBlock pending in
  ∃ meta',
    assoc_get callback pending' = Some meta'
    ∧ meta_keys meta' = None
    ∧ (∀ behaviour fuel v v',
         _pendingCallbacks v = pending' →
         resolverPass behaviour (_resolveCallbacks behaviour fuel) v = Ok v' →
         filter (invocationOf callback) (events_since v v')
         = if capturedNow (_triggerBlockCount v) (_bypassThrottle v)
                (dateNow v) (callback, meta')
           then [CallbackInvoked callback None] else [])
    ∧ (∀ behaviour fuel v,
         (∀ c keys u, behaviour c keys u = []) →
         _isTriggering v = false →
         _pendingCallbacks v = pending' →
         ∃ v',
           _resolveCallbacks behaviour (S fuel) v = Ok v'
           ∧ filter (invocationOf callback) (events_since v v')
             = (if capturedNow (_triggerBlockCount v) (_bypassThrottle v)
                     (dateNow v) (callback, meta')
                then [CallbackInvoked callback None] else [])
           ∧ assoc_get callback (_pendingCallbacks v')
             = (if capturedNow (_triggerBlockCount v) (_bypassThrottle v)
                     (dateNow v) (callback, meta')
                then None else Some meta')).
Proof.
  intros Hnd Hget Hkeys _ pending'.
  assert (allKeysEntry callback pending') as (meta' & Hget' & Hkeys')
    by (apply triggerRegister_sticky; by exists meta).
  assert (NoDup (map fst pending')) as Hnd'
    by by apply triggerRegister_keys.
  assert (uniquedKeys meta' = None) as Hnone
    by (unfold uniquedKeys; by rewrite Hkeys').
  exists meta'. split_and!; [done | done | |].
  - intros behaviour fuel v v' Hv Hpass.
    rewrite (pass_invocations behaviour fuel v v' callback)
      by (by rewrite ?Hv).
    by rewrite Hv, Hget', Hnone.
  - intros behaviour fuel v Hsilent Htr Hv.
    destruct (silent_delivery behaviour fuel v callback Hsilent Htr)
      as (v' & Hres & Hinv & Hpend & _); [by rewrite Hv |].
    exists v'. split_and!; [done | by rewrite Hinv, Hv, Hget', Hnone |].
    rewrite Hpend, Hv.
    destruct (capturedNow _ _ _ (callback, meta')) eqn:Hcap.
    + eapply assoc_get_filter_out; [done | done |]. rewrite Hcap.
      by intros [].
    + apply assoc_get_filter; [done |]. rewrite Hcap. by intros [].
Qed.

(** Callback 1 has an all-keys entry; key "a", to which it is subscribed,
    is then triggered on its own.  The entry keeps the all-keys list, and
    the resolver invokes callback 1 once, with no argument, and takes the
    entry out of the table. *)
Lemma C5_witness :
  ∃ meta' v',
    assoc_get 1 (_pendingCallbacks allKeysPendingWorld) = Some meta'
    ∧ meta_keys meta' = None
    ∧ _resolveCallbacks quiet 1 allKeysPendingWorld = Ok v'
    ∧ filter (invocationOf 1) (events_since allKeysPendingWorld v')
      = [CallbackInvoked 1 None]
    ∧ assoc_get 1 (_pendingCallbacks v') = None.
Proof.
  destruct (C5_specific_trigger_cannot_narrow_all_keys_entry
              storeWithSubscriber (Single (KStr "a")) None false 1
              {| meta_keys := None; meta_throttledUntil := None;
                 meta_bypassBlock := false |} allKeysPending)
    as (meta' & Hget & Hkeys & _ & Hdelivery).
  - apply (bool_decide_unpack _). vm_compute. exact I.
  - reflexivity.
  - reflexivity.
  - reflexivity.
  - destruct (Hdelivery quiet 0 allKeysPendingWorld (λ _ _ _, eq_refl)
                eq_refl eq_refl) as (v' & Hres & Hinv & Hpend).
    exists meta', v'.
    split; [exact Hget |]. split; [exact Hkeys |]. split; [exact Hres |].
    vm_compute in Hget. injection Hget as <-.
    split; [rewrite Hinv; vm_compute; reflexivity |].
    etransitivity; [exact Hpend | vm_compute; reflexivity].
Defined.

(** ** Requests made during a pass *)

Lemma _resolveCallbacks_nested behaviour fuel w :
  _isTriggering w = true →
  _resolveCallbacks behaviour fuel w = Ok (set_triggerPending true w).
Proof. intros Htr. destruct fuel; simpl; by rewrite Htr. Qed.

Lemma run_nested behaviour fuel ops w :
  _isTriggering w = true →
  run (_resolveCallbacks behaviour fuel) ops w
  = let* r := requestsIn ops w in Ok r.2.
Proof.
  revert w. induction ops as [|op ops IH]; intros w Htr; [done |].
  cbn [run requestsIn]. rewrite step_prepare.
  destruct (prepare op w) as [p| |] eqn:Hp; [|done..]. cbn [bind].
  pose proof (prepare_spec _ _ _ Hp) as (_ & Ht & _).
  rewrite Htr in Ht.
  assert ((if p.2 then _resolveCallbacks behaviour fuel p.1 else Ok p.1)
          = Ok (if p.2 then set_triggerPending true p.1 else p.1)) as ->.
  { destruct p.2; [by apply _resolveCallbacks_nested | done]. }
  cbn [bind]. rewrite IH by (by destruct p.2).
  by destruct (requestsIn ops _).
Qed.

Lemma requestsIn_flags ops w r :
  _isTriggering w = true →
  requestsIn ops w = Ok r →
  _isTriggering r.2 = true
  ∧ _triggerPending r.2 = _triggerPending w || r.1.
Proof.
  revert w r. induction ops as [|op ops IH]; intros w r Htr; simpl.
  - intros [= <-]. simpl. by rewrite orb_false_r.
  - destruct (prepare op w) as [p| |] eqn:Hp; [|done..]. simpl.
    pose proof (prepare_spec _ _ _ Hp) as (_ & Ht & _).
    pose proof (prepare_triggerPending _ _ _ Hp) as Hpend.
    rewrite Htr in Ht.
    destruct (requestsIn ops _) as [r'| |] eqn:Hr; [|done..]. simpl.
    intros [= <-]. simpl.
    apply IH in Hr as [Ht' Hp']; [|by destruct p.2].
    split; [done |]. rewrite Hp'.
    destruct p.2; simpl; [by rewrite orb_true_r | by rewrite Hpend].
Qed.

Lemma invokeCallbacks_nested behaviour fuel callbacks w :
  _isTriggering w = true →
  invokeCallbacks behaviour (_resolveCallbacks behaviour fuel) callbacks w
  = let* r := passRequests behaviour callbacks w in Ok r.2.
Proof.
  revert w.
  induction callbacks as [|[callback keys] callbacks IH]; intros w Htr;
    [done |].
  cbn [invokeCallbacks passRequests].
  set (w1 := emit (CallbackInvoked callback keys) w).
  rewrite run_nested by done.
  destruct (requestsIn (behaviour callback keys w1) w1) as [r| |] eqn:Hr;
    [|done..].
  cbn [bind]. apply requestsIn_flags in Hr as [Ht _]; [|done].
  rewrite IH by done. by destruct (passRequests behaviour callbacks r.2).
Qed.

Lemma passRequests_flags behaviour callbacks w r :
  _isTriggering w = true →
  passRequests behaviour callbacks w = Ok r →
  _isTriggering r.2 = true
  ∧ _triggerPending r.2 = _triggerPending w || r.1.
Proof.
  revert w r.
  induction callbacks as [|[callback keys] callbacks IH]; intros w r Htr;
    simpl.
  - intros [= <-]. simpl. by rewrite orb_false_r.
  - set (w1 := emit (CallbackInvoked callback keys) w).
    destruct (requestsIn (behaviour callback keys w1) w1) as [r1| |] eqn:Hr1;
      [|done..].
    simpl. apply requestsIn_flags in Hr1 as [Ht1 Hp1]; [|done].
    destruct (passRequests behaviour callbacks r1.2) as [r2| |] eqn:Hr2;
      [|done..].
    simpl. intros [= <-]. simpl.
    apply IH in Hr2 as [Ht2 Hp2]; [|done].
    split; [done |]. rewrite Hp2, Hp1. simpl. by rewrite orb_assoc.
Qed.

(** A pass is the invocation of the captured callbacks from [passStart],
    and the pending flag it leaves tells whether a call made during the
    pass reached the resolver. *)
Lemma resolverPass_requests behaviour fuel w w1 :
  resolverPass behaviour (_resolveCallbacks behaviour fuel) w = Ok w1 →
  ∃ requested v,
    passRequests behaviour (capturedBy w).1 (passStart w) = Ok (requested, v)
    ∧ w1 = set_isTriggering false (emit (EndInvokeStoreCallbacks 0) v)
    ∧ _triggerPending w1 = requested.
Proof.
  unfold resolverPass, passStart, capturedBy. simpl.
  destruct (captureCallbacks _ _ _ _) as [callbacks pending]. simpl.
  rewrite invokeCallbacks_nested by done.
  destruct (passRequests behaviour callbacks _) as [[requested v]| |] eqn:Hr;
    [|done..].
  simpl. intros [= <-]. exists requested, v. split_and!; [done | done |].
  by apply passRequests_flags in Hr as [_ Hp].
Qed.

(** C8.  While the reentrancy flag is set, a resolution request only sets
    the pending flag and returns.  Every call made by a running callback
    finds the flag set and leaves it set, so inside a pass no further pass
    starts and no callback is invoked by a nested request; such a call
    does what it does before reaching the resolver and, if it then asks
    for a resolution, sets the pending flag, which nothing else touches.
    A pass clears the pending flag when it starts, whatever its value, and
    the flag it leaves is set exactly when a call made by one of its
    callbacks reached the resolver; the reentrancy flag it leaves is
    cleared.  After the pass the resolver is entered once more exactly
    when the pending flag is set: a pass during which requests were
    recorded, however many, is followed by exactly one further pass before
    the resolver looks at the flag again, and a pass without a request by
    none.  Seen from outside, the begin and end marks of passes strictly
    alternate: passes never overlap. *)
Theorem C8_resolver_passes_never_nest behaviour fuel :
  (∀ w, _isTriggering w = true →
     _resolveCallbacks behaviour fuel w = Ok (set_triggerPending true w))
  ∧ (∀ ops w w', _isTriggering w = true →
       run (_resolveCallbacks behaviour fuel) ops w = Ok w' →
       _isTriggering w' = true
       ∧ filter resolverEvent (events_since w w') = [])
  ∧ (∀ op w w', _isTriggering w = true →
       step (_resolveCallbacks behaviour fuel) op w = Ok w' →
       ∃ p, prepare op w = Ok p
            ∧ w' = (if p.2 then set_triggerPending true p.1 else p.1)
            ∧ _triggerPending p.1 = _triggerPending w)
  ∧ (∀ w w1,
       resolverPass behaviour (_resolveCallbacks behaviour fuel) w = Ok w1 →
       _isTriggering w1 = false
       ∧ ∃ requested v,
           passRequests behaviour (capturedBy w).1 (passStart w)
           = Ok (requested, v)
           ∧ w1 = set_isTriggering false (emit (EndInvokeStoreCallbacks 0) v)
           ∧ _triggerPending w1 = requested)
  ∧ (∀ w w1, _isTriggering w = false →
       resolverPass behaviour (_resolveCallbacks behaviour fuel) w = Ok w1 →
       _resolveCallbacks behaviour (S fuel) w
       = (if _triggerPending w1 then _resolveCallbacks behaviour fuel w1
          else Ok w1)
       ∧ (_triggerPending w1 = false →
          _resolveCallbacks behaviour (S fuel) w = Ok w1
          ∧ filter passMark (events_since w w1) = passMarks 1)
       ∧ (_triggerPending w1 = true →
          ∀ w2,
            resolverPass behaviour (_resolveCallbacks behaviour fuel) w1
            = Ok w2 →
            _triggerPending w2 = false →
            _resolveCallbacks behaviour (S (S fuel)) w = Ok w2
            ∧ filter passMark (events_since w w2) = passMarks 2
            ∧ filter isInvocation (events_since w w2)
              = map invocation ((capturedBy w).1 ++ (capturedBy w1).1)))
  ∧ (∀ ops w w', _isTriggering w = false →
       exec behaviour fuel ops w = Ok w' →
       _isTriggering w' = false
       ∧ ∃ n, filter passMark (events_since w w') = passMarks n).
Proof.
  assert (∀ f w w1,
            resolverPass behaviour (_resolveCallbacks behaviour f) w = Ok w1 →
            filter passMark (events_since w w1) = passMarks 1
            ∧ filter isInvocation (events_since w w1)
              = map invocation (capturedBy w).1
            ∧ ∃ evs, trace w1 = trace w ++ evs) as Hmarks.
  { intros f w w1 Hpass.
    apply resolverPass_spec in Hpass as (_ & _ & evs & Hev & Hq);
      [|apply _resolveCallbacks_follows].
    rewrite (events_since_app _ _ _ Hev). split_and!; [| | by exists evs].
    - rewrite filter_passMark_resolverEvent, Hq.
      rewrite filter_cons. simpl. rewrite filter_app.
      by rewrite filter_passMark_invocations.
    - by rewrite filter_isInvocation_resolverEvent, Hq,
        filter_isInvocation_pass. }
  assert (∀ f f' w,
            resolverPass behaviour (_resolveCallbacks behaviour f) w
            = resolverPass behaviour (_resolveCallbacks behaviour f') w)
    as Hfuel.
  { intros f f' w. unfold resolverPass.
    destruct (captureCallbacks _ _ _ _) as [callbacks pending].
    by rewrite !invokeCallbacks_nested by done. }
  split_and!.
  - intros w. apply _resolveCallbacks_nested.
  - intros ops w w' Htr Hrun.
    apply run_follows in Hrun as [_ Ht (evs & Hev & Hq & _)];
      [|apply _resolveCallbacks_follows].
    split; [congruence |]. rewrite (events_since_app _ _ _ Hev). auto.
  - intros op w w'. apply nested_step.
  - intros w w1 Hpass. split.
    + by apply resolverPass_spec in Hpass as (_ & ? & _);
        [|apply _resolveCallbacks_follows].
    + destruct (resolverPass_requests _ _ _ _ Hpass)
        as (requested & v & Hr & Hw1 & Hp).
      by exists requested, v.
  - intros w w1 Htr Hpass.
    assert (_resolveCallbacks behaviour (S fuel) w
            = (if _triggerPending w1 then _resolveCallbacks behaviour fuel w1
               else Ok w1)) as Hnext
      by (cbn [_resolveCallbacks]; by rewrite Htr, Hpass).
    split; [exact Hnext |]. split.
    + intros Hpend. split; [|by apply (Hmarks fuel)].
      by rewrite Hnext, Hpend.
    + intros Hpend w2 Hpass2 Hpend2.
      destruct (Hmarks _ _ _ Hpass) as (Hm1 & Hi1 & evs1 & Hev1).
      destruct (Hmarks _ _ _ Hpass2) as (Hm2 & Hi2 & evs2 & Hev2).
      assert (_isTriggering w1 = false) as Htr1.
      { by apply resolverPass_spec in Hpass as (_ & ? & _);
          [|apply _resolveCallbacks_follows]. }
      assert (events_since w w2 = events_since w w1 ++ events_since w1 w2)
        as Happ.
      { rewrite (events_since_app _ _ _ Hev1), (events_since_app _ _ _ Hev2).
        apply events_since_app. by rewrite Hev2, Hev1, app_assoc. }
      split_and!.
      * cbn [_resolveCallbacks]. rewrite Htr.
        rewrite (Hfuel (S fuel) fuel), Hpass. cbn [bind]. rewrite Hpend.
        rewrite Htr1, Hpass2. cbn [bind]. by rewrite Hpend2.
      * by rewrite Happ, filter_app, Hm1, Hm2.
      * by rewrite Happ, filter_app, Hi1, Hi2, map_app.
  - intros ops w w' Htr Hrun.
    apply exec_follows in Hrun as [_ Ht (evs & Hev & _ & Hm)].
    split; [congruence |]. rewrite (events_since_app _ _ _ Hev). auto.
Qed.

(** Callback 1, invoked for "a", triggers "b" twice.  Neither request
    starts a pass inside the running one: the pass only leaves the pending
    flag set.  Together the two requests cause exactly one further pass,
    in which callback 2 is invoked once and no request is made, and the
    resolver returns. *)
Lemma C8_witness :
  let pass := resolverPass retriggers (_resolveCallbacks retriggers 0) in
  let w1 := worldOf (pass aTriggered) aTriggered in
  let w2 := worldOf (pass w1) w1 in
  (∃ v, passRequests retriggers (capturedBy aTriggered).1 (passStart aTriggered)
        = Ok (true, v))
  ∧ _triggerPending w1 = true
  ∧ _resolveCallbacks retriggers 2 aTriggered = Ok w2
  ∧ filter passMark (events_since aTriggered w2) = passMarks 2
  ∧ filter isInvocation (events_since aTriggered w2)
    = [CallbackInvoked 1 (Some ["a"]); CallbackInvoked 2 (Some ["b"])].
Proof.
  intros pass w1 w2.
  destruct (C8_resolver_passes_never_nest retriggers 0)
    as (_ & _ & _ & Hflag & Hnext & _).
  assert (pass aTriggered = Ok w1) as Hpass1 by (vm_compute; reflexivity).
  assert (pass w1 = Ok w2) as Hpass2 by (vm_compute; reflexivity).
  destruct (Hflag aTriggered w1 Hpass1)
    as (_ & requested & v & Hreq & _ & Hpend).
  assert (requested = true) as ->.
  { assert (_triggerPending w1 = true) as Hset by (vm_compute; reflexivity).
    congruence. }
  destruct (Hnext aTriggered w1 eq_refl Hpass1) as (_ & _ & Hsecond).
  destruct (Hsecond Hpend w2 Hpass2) as (Hres & Hmarks & Hinv);
    [vm_compute; reflexivity |].
  split; [by exists v |]. split; [exact Hpend |]. split; [exact Hres |].
  split; [exact Hmarks |]. rewrite Hinv. vm_compute. reflexivity.
Defined.

(** ** The trigger-block stack, from the push to the delivery *)




